(** * Entity-to-DTO converter: parser, classifiers and generators

    A shallow embedding of [client/src/app/page.tsx] (the entity-to-DTO
    page): [parseEntity], the four field classifiers,
    [getValidatorDecorators], [extractEnumImports], [genDocDto],
    [genResponseDto] and [toRelationResDtoType].

    Texts are lists of UTF-16 code units; the model covers the code units
    0..255 and writes them as [ascii].  The regular expressions of the
    source are values of the type [regex] below and are run by a
    backtracking matcher that lists the successful end positions in the
    priority order of the ECMAScript semantics, so that the first element
    of the list is the match the JavaScript engine reports. *)

From Stdlib Require Import Ascii String.
From Stdlib Require Import List Bool Arith ZArith Lia.
Import ListNotations.

Set Implicit Arguments.

Local Open Scope char_scope.
Local Open Scope list_scope.

(** ** Texts *)

Definition text := list ascii.

(** A source literal. *)
Definition T (s : string) : text := list_ascii_of_string s.

Definition LF : ascii := "010".
Definition CR : ascii := "013".
Definition DQ : ascii := "034".

Fixpoint text_eqb (a b : text) : bool :=
  match a, b with
  | [], [] => true
  | x :: a', y :: b' => Ascii.eqb x y && text_eqb a' b'
  | _, _ => false
  end.

(** ** Character classes *)

Definition code (c : ascii) : nat := nat_of_ascii c.

Definition in_range (lo hi : nat) (c : ascii) : bool :=
  Nat.leb lo (code c) && Nat.leb (code c) hi.

Definition is_upper : ascii -> bool := in_range 65 90.
Definition is_lower : ascii -> bool := in_range 97 122.
Definition is_digit : ascii -> bool := in_range 48 57.

(** [\w] *)
Definition is_word (c : ascii) : bool :=
  is_upper c || is_lower c || is_digit c || Ascii.eqb c "_".

(** [\s], and the characters [trim] removes: TAB, LF, VT, FF, CR, SP and
    NBSP are the white space and line terminators below 256. *)
Definition is_space (c : ascii) : bool :=
  in_range 9 13 c || Nat.eqb (code c) 32 || Nat.eqb (code c) 160.

(** [.] matches everything but a line terminator. *)
Definition is_dot (c : ascii) : bool :=
  negb (Ascii.eqb c LF || Ascii.eqb c CR).

(** [[A-Za-z_]] and [[A-Za-z0-9_]] *)
Definition is_ident_start (c : ascii) : bool :=
  is_upper c || is_lower c || Ascii.eqb c "_".
Definition is_ident_char (c : ascii) : bool :=
  is_upper c || is_lower c || is_digit c || Ascii.eqb c "_".

(** Canonicalisation of the [i] flag on the code units below 128 that the
    patterns of this file mention: a letter and its other case match. *)
Definition to_lower (c : ascii) : ascii :=
  if is_upper c then ascii_of_nat (code c + 32) else c.
Definition eqb_nocase (a c : ascii) : bool :=
  Ascii.eqb (to_lower a) (to_lower c).

(** ** Regular expressions

    The constructs the patterns of the source use.  Every quantifier of the
    source ranges over a single character class ([RStar], [RPlus]) or is an
    optional item ([ROpt]); no group is nested in another or sits under a
    quantifier, so the captures are recorded in the order the groups
    close, which is their numbering. *)

Inductive regex : Type :=
| REps
| RChar (p : ascii -> bool)
| RSeq (a b : regex)
| RAlt (a b : regex)
| ROpt (a : regex)
| RStar (p : ascii -> bool)
| RGroup (a : regex)
| RBol
| REol
| RWordB.

Definition RPlus (p : ascii -> bool) : regex := RSeq (RChar p) (RStar p).

Fixpoint RLit (l : text) : regex :=
  match l with
  | [] => REps
  | c :: l' => RSeq (RChar (Ascii.eqb c)) (RLit l')
  end.

Fixpoint RLitI (l : text) : regex :=
  match l with
  | [] => REps
  | c :: l' => RSeq (RChar (eqb_nocase c)) (RLitI l')
  end.

Fixpoint RSeqs (rs : list regex) : regex :=
  match rs with
  | [] => REps
  | [r] => r
  | r :: rs' => RSeq r (RSeqs rs')
  end.

Fixpoint RAlts (r : regex) (rs : list regex) : regex :=
  match rs with
  | [] => r
  | r' :: rs' => RAlt r (RAlts r' rs')
  end.

(** A position of the matcher: the characters before it (nearest first),
    the characters after it, and the captures closed so far. *)
Record mstate : Type := MState {
  before : list ascii;
  after : list ascii;
  caps : list text
}.

(** The text between two positions of one run. *)
Definition consumed (st st' : mstate) : text :=
  rev (firstn (length (before st') - length (before st)) (before st')).

Definition word_at (l : list ascii) : bool :=
  match l with
  | c :: _ => is_word c
  | [] => false
  end.

(** Greedy [p*]: the longest run first, then each shorter one. *)
Fixpoint star_states (p : ascii -> bool) (b a : list ascii) (cs : list text)
  : list mstate :=
  match a with
  | c :: a' =>
      if p c then star_states p (c :: b) a' cs ++ [MState b a cs]
      else [MState b a cs]
  | [] => [MState b a cs]
  end.

(** All the ways [r] matches at [st], in priority order. *)
Fixpoint run (r : regex) (st : mstate) : list mstate :=
  match r with
  | REps => [st]
  | RChar p =>
      match after st with
      | c :: a' => if p c then [MState (c :: before st) a' (caps st)] else []
      | [] => []
      end
  | RSeq a b => flat_map (run b) (run a st)
  | RAlt a b => run a st ++ run b st
  | ROpt a => run a st ++ [st]
  | RStar p => star_states p (before st) (after st) (caps st)
  | RGroup a =>
      map (fun st' => MState (before st') (after st')
                             (caps st' ++ [consumed st st']))
          (run a st)
  | RBol => match before st with [] => [st] | _ => [] end
  | REol => match after st with [] => [st] | _ => [] end
  | RWordB =>
      if xorb (word_at (before st)) (word_at (after st)) then [st] else []
  end.

(** The search of [RegExp.prototype.exec] without the sticky or global
    flag: the first start position, left to right, at which the pattern
    matches; the result is the start and the end position. *)
Fixpoint search (r : regex) (b a : list ascii) : option (mstate * mstate) :=
  match run r (MState b a []) with
  | st' :: _ => Some (MState b a [], st')
  | [] =>
      match a with
      | c :: a' => search r (c :: b) a'
      | [] => None
      end
  end.

(** [re.test(s)] *)
Definition rx_test (r : regex) (s : text) : bool :=
  match search r [] s with
  | Some _ => true
  | None => false
  end.

(** [s.match(re)] for a pattern without the global flag: the whole match
    and the captures. *)
Definition rx_match (r : regex) (s : text) : option (text * list text) :=
  match search r [] s with
  | Some (st, st') => Some (consumed st st', caps st')
  | None => None
  end.

(** [s.replace(re, by)] for a pattern without the global flag and a
    replacement without [$]. *)
Definition rx_replace (r : regex) (s by_ : text) : text :=
  match search r [] s with
  | Some (st, st') => rev (before st) ++ by_ ++ after st'
  | None => s
  end.

(** ** String operations of the source *)

Fixpoint dropWhile (p : ascii -> bool) (s : text) : text :=
  match s with
  | c :: s' => if p c then dropWhile p s' else s
  | [] => []
  end.

(** [s.trim()] *)
Definition trim (s : text) : text :=
  rev (dropWhile is_space (rev (dropWhile is_space s))).

(** [s.startsWith(p)] *)
Fixpoint startsWith (p s : text) : bool :=
  match p, s with
  | [], _ => true
  | x :: p', y :: s' => Ascii.eqb x y && startsWith p' s'
  | _ :: _, [] => false
  end.

(** [s.endsWith(p)] *)
Definition endsWith (p s : text) : bool := startsWith (rev p) (rev s).

(** [s.includes(p)] *)
Fixpoint includes (p s : text) : bool :=
  startsWith p s ||
  match s with
  | _ :: s' => includes p s'
  | [] => false
  end.

(** [ls.join(sep)] *)
Fixpoint join (sep : text) (ls : list text) : text :=
  match ls with
  | [] => []
  | [l] => l
  | l :: ls' => l ++ sep ++ join sep ls'
  end.

(** [s.split(/\r?\n/)]: the separator is a line feed, with the carriage
    return before it when there is one; [cur] holds the characters of the
    current piece, last first. *)
Fixpoint splitLinesFrom (cur : list ascii) (s : text) : list text :=
  match s with
  | [] => [rev cur]
  | c :: s' =>
      if Ascii.eqb c LF then rev cur :: splitLinesFrom [] s'
      else
        match s' with
        | d :: s'' =>
            if Ascii.eqb c CR && Ascii.eqb d LF
            then rev cur :: splitLinesFrom [] s''
            else splitLinesFrom (c :: cur) s'
        | [] => splitLinesFrom (c :: cur) s'
        end
  end.

Definition splitLines (s : text) : list text := splitLinesFrom [] s.

(** [(l.match(/\(/g) || []).length] and the same for [)]: the number of
    occurrences of the character. *)
Definition countChar (c : ascii) (l : text) : Z :=
  Z.of_nat (List.length (filter (Ascii.eqb c) l)).

(** [s.replace(/\s+/g, "")]: every run of white space is removed. *)
Definition removeSpaces (s : text) : text :=
  filter (fun c => negb (is_space c)) s.

(** [x || ""] for an optional string. *)
Definition orEmpty (o : option text) : text :=
  match o with
  | Some m => m
  | None => []
  end.

(** The elements in the order of their first occurrence, as [new Set]
    keeps them. *)
Fixpoint dedupeFrom (seen l : list text) : list text :=
  match l with
  | [] => []
  | x :: l' =>
      if existsb (text_eqb x) seen then dedupeFrom seen l'
      else x :: dedupeFrom (x :: seen) l'
  end.

Definition dedupe (l : list text) : list text := dedupeFrom [] l.

(** ** The patterns of the source *)

Definition is_quote (c : ascii) : bool := Ascii.eqb c "'" || Ascii.eqb c DQ.
Definition not_semicolon (c : ascii) : bool := negb (Ascii.eqb c ";").

(** [/export\s+class\s+(\w+)/] *)
Definition class_re : regex :=
  RSeqs [RLit (T "export"); RPlus is_space; RLit (T "class"); RPlus is_space;
         RGroup (RPlus is_word)].

(** [/Entity$/] *)
Definition entity_end_re : regex := RSeq (RLit (T "Entity")) REol.

(** The property pattern of [parseEntity], item by item: [^];
    [(?:public\s+|private\s+|readonly\s+)?]; group 1, an [[A-Za-z_]]
    followed by [[A-Za-z0-9_]] any number of times; [\??]; [:]; [\s*];
    group 2, [[^;]+]; [;]. *)
Definition prop_re : regex :=
  RSeqs [RBol;
         ROpt (RAlts (RSeq (RLit (T "public")) (RPlus is_space))
                     [RSeq (RLit (T "private")) (RPlus is_space);
                      RSeq (RLit (T "readonly")) (RPlus is_space)]);
         RGroup (RSeq (RChar is_ident_start) (RStar is_ident_char));
         ROpt (RChar (Ascii.eqb "?"));
         RLit (T ":");
         RStar is_space;
         RGroup (RPlus not_semicolon);
         RLit (T ";")].

(** [/\?$/] *)
Definition qmark_end_re : regex := RSeq (RChar (Ascii.eqb "?")) REol.

(** [/nullable\s*:\s*true/] *)
Definition nullable_re : regex :=
  RSeqs [RLit (T "nullable"); RStar is_space; RLit (T ":"); RStar is_space;
         RLit (T "true")].

(** [/@(OneToOne|OneToMany|ManyToOne|ManyToMany|JoinColumn|JoinTable)\b/] *)
Definition relation_re : regex :=
  RSeqs [RLit (T "@");
         RGroup (RAlts (RLit (T "OneToOne"))
                       [RLit (T "OneToMany"); RLit (T "ManyToOne");
                        RLit (T "ManyToMany"); RLit (T "JoinColumn");
                        RLit (T "JoinTable")]);
         RWordB].

(** [/@PrimaryGeneratedColumn\b/] *)
Definition generated_re : regex :=
  RSeq (RLit (T "@PrimaryGeneratedColumn")) RWordB.

(** [/@(CreateDateColumn|UpdateDateColumn|DeleteDateColumn)\b/] *)
Definition audit_re : regex :=
  RSeqs [RLit (T "@");
         RGroup (RAlts (RLit (T "CreateDateColumn"))
                       [RLit (T "UpdateDateColumn");
                        RLit (T "DeleteDateColumn")]);
         RWordB].

(** [/@Column\(/] *)
Definition column_re : regex := RLit (T "@Column(").

(** [/type\s*:\s*[Q]tinyint[Q]/i], where [[Q]] is the class of the
    single and the double quote. *)
Definition tinyint_re : regex :=
  RSeqs [RLitI (T "type"); RStar is_space; RLitI (T ":"); RStar is_space;
         RChar is_quote; RLitI (T "tinyint"); RChar is_quote].

(** [/width\s*:\s*1\b/] *)
Definition width1_re : regex :=
  RSeqs [RLit (T "width"); RStar is_space; RLit (T ":"); RStar is_space;
         RLit (T "1"); RWordB].

(** [/Enum\b/], [/\bEnum\b/] and [/Enum$/] *)
Definition enum_wb_re : regex := RSeq (RLit (T "Enum")) RWordB.
Definition wb_enum_wb_re : regex := RSeqs [RWordB; RLit (T "Enum"); RWordB].
Definition enum_end_re : regex := RSeq (RLit (T "Enum")) REol.

(** [/type\s*:\s*[Q][a-z]*int[Q]/i]: under the [i] flag the class
    [[a-z]] holds the letters of both cases. *)
Definition int_re : regex :=
  RSeqs [RLitI (T "type"); RStar is_space; RLitI (T ":"); RStar is_space;
         RChar is_quote; RStar (fun c => is_lower c || is_upper c);
         RLitI (T "int"); RChar is_quote].

(** [/type\s*:\s*[Q][a-z]*date/] *)
Definition date_re : regex :=
  RSeqs [RLit (T "type"); RStar is_space; RLit (T ":"); RStar is_space;
         RChar is_quote; RStar is_lower; RLit (T "date")].

(** [/^Array<(.+)>$/] *)
Definition array_generic_re : regex :=
  RSeqs [RBol; RLit (T "Array<"); RGroup (RPlus is_dot); RLit (T ">"); REol].

(** ** Data model *)

Record Field : Type := mkField {
  name : text;
  tsType : text;
  optional : bool;
  decorators : list text;
  rawColumnMeta : option text (* contents inside @Column({ ... }) *)
}.

Record ParsedEntity : Type := mkParsedEntity {
  className : text;
  baseName : text;
  fields : list Field
}.

(** ** parseEntity *)

(** The inner loop of [parseEntity], from the line of the [@Column(]
    decorator on: the lines are accumulated into [meta] until the
    parenthesis depth is back at zero or below.  The result is the text
    and, when that happens, the offset [j - i] of the line where it
    happens; when the lines run out first the outer index stays where it
    is. *)
Fixpoint scanColumnMeta (ls : list text) (meta : text) (depth : Z)
  : text * option nat :=
  match ls with
  | [] => (meta, None)
  | l :: rest =>
      let meta' := meta ++ (match meta with [] => [] | _ => [LF] end) ++ l in
      let depth' := (depth + countChar "(" l - countChar ")" l)%Z in
      if (depth' <=? 0)%Z then (meta', Some 0)
      else
        let (m, adv) := scanColumnMeta rest meta' depth' in
        (m, option_map S adv)
  end.

(** The variables of the outer loop. *)
Record scanState : Type := mkScan {
  fieldsAcc : list Field;
  decoratorBuf : list text;
  pendingColumnMeta : option text
}.

Definition initScan : scanState := mkScan [] [] None.

Definition isDecoratorLine (line : text) : bool := startsWith (T "@") line.

(** The lines after line [i] that [i = j] makes the outer loop pass over,
    when line [i] is a [@Column(] decorator with a brace. *)
Definition opensColumnMeta (line : text) : bool :=
  startsWith (T "@Column(") line && includes (T "{") line.

(** The body of the outer loop at a property line: the field a matching
    line yields. *)
Definition fieldOfLine (line : text) (st : scanState) : option Field :=
  match rx_match prop_re line with
  | Some (whole, [n; ty]) =>
      let opt :=
        rx_test qmark_end_re whole
        || rx_test nullable_re
             (orEmpty (pendingColumnMeta st) ++ [LF] ++ join [LF] (decoratorBuf st))
      in
      Some (mkField n (trim ty) opt (decoratorBuf st) (pendingColumnMeta st))
  | _ => None
  end.

(** The outer loop of [parseEntity] over the lines from index [i] on;
    [skip] is the number of the next lines that [i = j] has already
    consumed. *)
Fixpoint scanLines (ls : list text) (skip : nat) (st : scanState)
  : scanState :=
  match ls with
  | [] => st
  | l :: rest =>
      match skip with
      | S k => scanLines rest k st
      | O =>
          let line := trim l in
          if isDecoratorLine line then
            let buf := decoratorBuf st ++ [line] in
            if opensColumnMeta line then
              let (meta, adv) := scanColumnMeta (l :: rest) [] 0%Z in
              scanLines rest (match adv with Some k => k | None => 0 end)
                        (mkScan (fieldsAcc st) buf (Some meta))
            else
              scanLines rest 0 (mkScan (fieldsAcc st) buf (pendingColumnMeta st))
          else
            match fieldOfLine line st with
            | Some f => scanLines rest 0 (mkScan (fieldsAcc st ++ [f]) [] None)
            | None => scanLines rest 0 st
            end
      end
  end.

(** [className.replace(/Entity$/, "")] *)
Definition baseNameOf (cn : text) : text := rx_replace entity_end_re cn [].

Definition parseEntity (source : text) : option ParsedEntity :=
  match rx_match class_re source with
  | Some (_, cn :: _) =>
      match cn with
      | [] => None
      | _ =>
          Some (mkParsedEntity cn (baseNameOf cn)
                  (fieldsAcc (scanLines (splitLines source) 0 initScan)))
      end
  | _ => None
  end.

(** ** Field classifiers *)

Definition isRelation (field : Field) : bool :=
  existsb (rx_test relation_re) (decorators field).

Definition isGeneratedPrimary (field : Field) : bool :=
  existsb (rx_test generated_re) (decorators field).

Definition isAudit (field : Field) : bool :=
  existsb (rx_test audit_re) (decorators field).

Definition isTinyIntBoolean (field : Field) : bool :=
  let meta := orEmpty (rawColumnMeta field) in
  rx_test column_re meta && rx_test tinyint_re meta && rx_test width1_re meta.

Definition mapTsType (field : Field) : text := trim (tsType field).

(** ** Validators of the request DTO *)

Definition getValidatorDecorators (field : Field) (required : bool)
  : list text :=
  let t := removeSpaces (tsType field) in
  let columnMeta := orEmpty (rawColumnMeta field) in
  let decos :=
    if rx_test enum_wb_re t then
      [T "@IsEnum(" ++ trim (tsType field) ++ T ")"]
    else if text_eqb t (T "string") then [T "@IsString()"]
    else if text_eqb t (T "Date") then [T "@IsDate()"]
    else if text_eqb t (T "number") then
      (if rx_test int_re columnMeta then [T "@IsInt()"] else [T "@IsInt()"])
    else [] in
  let decos := if negb required then decos ++ [T "@IsOptional()"] else decos in
  let decos :=
    if required && text_eqb t (T "string")
    then decos ++ [T "@IsNotEmpty()"] else decos in
  decos.

(** ** Import harvesting *)

Definition isEnumTypeName (t : text) : bool :=
  rx_test wb_enum_wb_re t || rx_test enum_end_re t.

Definition extractEnumImports (source : text) (fs : list Field) : list text :=
  let enumTypeNames :=
    dedupe (filter isEnumTypeName (map (fun f => trim (tsType f)) fs)) in
  let importLines :=
    filter (fun l => startsWith (T "import") (trim l)) (splitLines source) in
  let selected :=
    filter (fun line => existsb (fun n => includes n line) enumTypeNames)
           importLines in
  dedupe selected.

(** ** Request DTO generator *)

Record Options : Type := mkOptions {
  forceOptional : bool;
  stripAudit : bool
}.

(** [t === "Date"] or the date pattern on the column metadata. *)
Definition isDateTyped (t : text) (field : Field) : bool :=
  text_eqb t (T "Date") || rx_test date_re (orEmpty (rawColumnMeta field)).

(** [isRequired] of the loop body of [genDocDto]. *)
Definition isRequired (opts : Options) (f : Field) : bool :=
  negb (forceOptional opts) && negb (optional f) && negb (isGeneratedPrimary f).

Definition boolTo : text := T "  @Transform(({ value }) => boolTransformer.to(value))".
Definition dateTo : text := T "  @Transform(({ value }) => dateTransformer.to(value))".
Definition boolFrom : text := T "  @Transform(({ value }) => boolTransformer.from(value))".
Definition dateFrom : text := T "  @Transform(({ value }) => dateTransformer.from(value))".
Definition exposeLine : text := T "  @Expose()".

(** One turn of the loop of [genDocDto]: the lines pushed for [f]. *)
Definition docFieldStep (opts : Options) (lines : list text) (f : Field)
  : list text :=
  let required := isRequired opts f in
  let t := mapTsType f in
  let isTiny := isTinyIntBoolean f in
  let isDateType := isDateTyped t f in
  let lines := if isTiny then lines ++ [boolTo] else lines in
  let lines := if isDateType then lines ++ [dateTo] else lines in
  let lines :=
    fold_left (fun ls d => ls ++ [T "  " ++ d])
              (getValidatorDecorators f (negb required)) lines in
  lines ++ [T "  " ++ name f ++ T ": " ++ (if isTiny then T "number" else t) ++ T ";";
            []].

Definition docRetained (parsed : ParsedEntity) : list Field :=
  filter (fun f => negb (isRelation f) && negb (isAudit f)) (fields parsed).

Definition docHeader (source : text) (parsed : ParsedEntity) : list text :=
  [T "import { IsString, IsOptional, IsInt, IsNotEmpty, IsDate, IsEnum } from 'class-validator';";
   T "import { Transform } from 'class-transformer';";
   T "import { PartialType } from '@nestjs/mapped-types';";
   T "import { CommonDto } from 'src/common/dto/common.dto';";
   T "import { boolTransformer, dateTransformer } from 'src/common/util/transformer';"]
  ++ extractEnumImports source (fields parsed)
  ++ [[];
      T "export class " ++ (baseName parsed ++ T "Dto") ++ T " extends CommonDto {"].

Definition genDocDtoLines (source : text) (parsed : ParsedEntity)
  (opts : Options) : list text :=
  let className := baseName parsed ++ T "Dto" in
  let lines := docHeader source parsed in
  let lines := fold_left (docFieldStep opts) (docRetained parsed) lines in
  let lines := lines ++ [T "}"] in
  lines ++ [[];
            T "export class " ++ baseName parsed ++ T "ReqDto extends PartialType("
              ++ className ++ T ") {}"].

Definition genDocDto (source : text) (parsed : ParsedEntity) (opts : Options)
  : text :=
  join [LF] (genDocDtoLines source parsed opts).

(** ** Type resolver *)

(** [t.slice(0, -2)] *)
Definition dropLast2 (t : text) : text := firstn (List.length t - 2) t.

(** [toRelationResDtoType], with the depth of the recursion bounded by
    [fuel]; the argument of each recursive call is shorter than the text
    it comes from, so the length of the text is enough fuel. *)
Fixpoint toRelationResDtoTypeFuel (fuel : nat) (tsType : text) : text :=
  let t := trim tsType in
  match fuel with
  | O => rx_replace entity_end_re t (T "ResDto")
  | S fuel' =>
      match rx_match array_generic_re t with
      | Some (_, inner :: _) => toRelationResDtoTypeFuel fuel' inner ++ T "[]"
      | _ =>
          if endsWith (T "[]") t then
            toRelationResDtoTypeFuel fuel' (trim (dropLast2 t)) ++ T "[]"
          else rx_replace entity_end_re t (T "ResDto")
      end
  end.

Definition toRelationResDtoType (tsType : text) : text :=
  toRelationResDtoTypeFuel (List.length tsType) tsType.

(** ** Response DTO generator *)

(** The declared type of a field of the response DTO. *)
Definition resTypeStr (f : Field) : text :=
  let relation := isRelation f in
  let isTiny := isTinyIntBoolean f in
  let isDateColumn := isDateTyped (trim (tsType f)) f in
  let audit := isAudit f in
  if relation then toRelationResDtoType (trim (tsType f))
  else if isTiny then T "boolean"
  else if audit && isDateColumn then T "Date"
  else if isDateColumn then T "string"
  else trim (tsType f).

(** One turn of the loop of [genResponseDto]. *)
Definition resFieldStep (lines : list text) (f : Field) : list text :=
  let relation := isRelation f in
  let isTiny := isTinyIntBoolean f in
  let isDateColumn := isDateTyped (trim (tsType f)) f in
  let audit := isAudit f in
  let lines :=
    if negb relation then
      let lines := if isTiny then lines ++ [boolFrom] else lines in
      if negb audit && isDateColumn then lines ++ [dateFrom] else lines
    else lines in
  let lines := lines ++ [exposeLine] in
  lines ++ [T "  " ++ name f ++ T ": " ++ resTypeStr f ++ T ";"; []].

Definition resHeader (source : text) (parsed : ParsedEntity) : list text :=
  [T "import { Expose, Transform } from 'class-transformer';";
   T "import { boolTransformer, dateTransformer } from 'src/common/util/transformer';"]
  ++ extractEnumImports source (fields parsed)
  ++ [[]; T "export class " ++ (baseName parsed ++ T "ResDto") ++ T " {"].

Definition genResponseDtoLines (source : text) (parsed : ParsedEntity)
  : list text :=
  let lines := resHeader source parsed in
  let lines := fold_left resFieldStep (fields parsed) lines in
  lines ++ [T "}"].

Definition genResponseDto (source : text) (parsed : ParsedEntity) : text :=
  join [LF] (genResponseDtoLines source parsed).


(** ** The page

    The values that [EntityToDtoPage] derives from its state (the input
    text and the two check boxes) at each rendering. *)

(** A string used as a condition: it is not empty. *)
Definition truthy (s : text) : bool :=
  match s with
  | [] => false
  | _ :: _ => true
  end.

(** [parsed] *)
Definition pageParsed (input : text) : option ParsedEntity :=
  if truthy (trim input) then parseEntity input else None.

(** [dtoCode] *)
Definition pageDtoCode (input : text) (forceOptional stripAudit : bool)
  : text :=
  match pageParsed input with
  | Some parsed => genDocDto input parsed (mkOptions forceOptional stripAudit)
  | None => []
  end.

(** [resDtoCode] *)
Definition pageResDtoCode (input : text) : text :=
  match pageParsed input with
  | Some parsed => genResponseDto input parsed
  | None => []
  end.

(** The message that the class name could not be parsed is rendered. *)
Definition showsParseError (input : text) : bool :=
  match pageParsed input with
  | None => truthy (trim input)
  | Some _ => false
  end.

(** The invitation to paste an entity is rendered. *)
Definition showsPasteHint (input : text) : bool := negb (truthy (trim input)).

(** [disabled] of a copy button. *)
Definition copyDisabled (code : text) : bool := negb (truthy code).
(** * Specification-side definitions *)

(** What a pattern matches, without the priorities: [matches r b w a cs]
    holds when [r] matches the text [w] that stands between [b] (the text
    before it, nearest character first) and [a], closing the captures
    [cs]. *)
Inductive matches : regex -> list ascii -> text -> list ascii -> list text
                    -> Prop :=
| MEps b a : matches REps b [] a []
| MChar p c b a : p c = true -> matches (RChar p) b [c] a []
| MSeq r1 r2 b w1 w2 a cs1 cs2 :
    matches r1 b w1 (w2 ++ a) cs1 ->
    matches r2 (rev w1 ++ b) w2 a cs2 ->
    matches (RSeq r1 r2) b (w1 ++ w2) a (cs1 ++ cs2)
| MAltL r1 r2 b w a cs : matches r1 b w a cs -> matches (RAlt r1 r2) b w a cs
| MAltR r1 r2 b w a cs : matches r2 b w a cs -> matches (RAlt r1 r2) b w a cs
| MOptSome r b w a cs : matches r b w a cs -> matches (ROpt r) b w a cs
| MOptNone r b a : matches (ROpt r) b [] a []
| MStar p b w a : forallb p w = true -> matches (RStar p) b w a []
| MGroup r b w a cs : matches r b w a cs -> matches (RGroup r) b w a (cs ++ [w])
| MBol a : matches RBol [] [] a []
| MEol b : matches REol b [] [] []
| MWordB b a :
    xorb (word_at b) (word_at a) = true -> matches RWordB b [] a [].

Create HintDb rx.
#[local] Hint Constructors matches : rx.

(** A text occurs in [s] at the offset [length pre]. *)
Definition occurs_at (r : regex) (b : list ascii) (pre w post : text)
  (cs : list text) : Prop :=
  matches r (rev pre ++ b) w post cs.

(** Greedy repetition: the first result leaves no character of the class
    behind it. *)
Definition class_at (p : ascii -> bool) (l : list ascii) : bool :=
  match l with
  | c :: _ => p c
  | [] => false
  end.

(** The pattern has a capturing group. *)
Fixpoint has_group (r : regex) : bool :=
  match r with
  | RSeq a b | RAlt a b => has_group a || has_group b
  | ROpt a => has_group a
  | RGroup _ => true
  | _ => false
  end.

(** ** The class declaration *)

(** An exported class declaration with a capturable identifier stands in
    [s] after [pre]: the word [export], white space, the word [class],
    white space, and at least one word character. *)
Definition classDeclAt (s pre ws1 ws2 id post : text) : Prop :=
  s = pre ++ T "export" ++ ws1 ++ T "class" ++ ws2 ++ id ++ post /\
  ws1 <> [] /\ forallb is_space ws1 = true /\
  ws2 <> [] /\ forallb is_space ws2 = true /\
  id <> [] /\ forallb is_word id = true.

Definition hasClassDecl (s : text) : Prop :=
  exists pre ws1 ws2 id post, classDeclAt s pre ws1 ws2 id post.

(** [id] is the identifier of the first declaration of [s]: the whole run
    of word characters, at the leftmost place where a declaration
    stands. *)
Definition firstClassDecl (s id : text) : Prop :=
  exists pre ws1 ws2 post,
    classDeclAt s pre ws1 ws2 id post /\ word_at post = false /\
    forall pre' ws1' ws2' id' post',
      classDeclAt s pre' ws1' ws2' id' post' -> length pre <= length pre'.

(** [cn] without a trailing [Entity], and [cn] itself when it has none. *)
Definition withoutEntitySuffix (cn bn : text) : Prop :=
  (forall x, cn = x ++ T "Entity" -> bn = x) /\
  ((forall x, cn <> x ++ T "Entity") -> bn = cn).

(** * Sample entities *)

Module Samples.

Definition unlines (ls : list string) : text := join [LF] (map T ls).

(** The entity of the scenario: a generated primary key, a plain string
    column, a relation and an audit timestamp. *)
Definition docSource : text :=
  unlines
    ["import { Entity } from 'typeorm';";
     "";
     "@Entity('doc')";
     "export class DocEntity {";
     "  @PrimaryGeneratedColumn()";
     "  id: number;";
     "";
     "  @Column({ type: 'varchar', length: 100 })";
     "  title: string;";
     "";
     "  @OneToMany(() => CommentEntity, (c) => c.doc)";
     "  comments: CommentEntity[];";
     "";
     "  @CreateDateColumn()";
     "  createdAt: Date;";
     "}"]%string.

Definition docParsed : ParsedEntity :=
  mkParsedEntity (T "DocEntity") (T "Doc")
    [mkField (T "id") (T "number") false
       [T "@Entity('doc')"; T "@PrimaryGeneratedColumn()"] None;
     mkField (T "title") (T "string") false
       [T "@Column({ type: 'varchar', length: 100 })"]
       (Some (T "  @Column({ type: 'varchar', length: 100 })"));
     mkField (T "comments") (T "CommentEntity[]") false
       [T "@OneToMany(() => CommentEntity, (c) => c.doc)"] None;
     mkField (T "createdAt") (T "Date") false [T "@CreateDateColumn()"] None].

(** A property written with the optional marker. *)
Definition nickSource : text :=
  unlines ["export class UserEntity {"; "  nick?: string;"; "}"]%string.

End Samples.


(** ** The generated classes, field by field *)

(** The lines of one field of the request DTO. *)
Definition docFieldLines (opts : Options) (f : Field) : list text :=
  docFieldStep opts [] f.

Definition docFooter (parsed : ParsedEntity) : list text :=
  [T "}"; [];
   T "export class " ++ baseName parsed ++ T "ReqDto extends PartialType("
     ++ (baseName parsed ++ T "Dto") ++ T ") {}"].

(** The declaration line of a field, with the type a generator gives it. *)
Definition declLine (f : Field) (ty : text) : text :=
  T "  " ++ name f ++ T ": " ++ ty ++ T ";".

(** The transform decorators of the response DTO, in the words of the
    specification: none for a relation; otherwise the boolean transform
    of a tinyint boolean, then the date transform of a date-typed field
    that is not an audit field. *)
Definition resTransformsSpec (f : Field) : list text :=
  if isRelation f then []
  else
    (if isTinyIntBoolean f then [boolFrom] else [])
    ++ (if isDateTyped (trim (tsType f)) f && negb (isAudit f)
        then [dateFrom] else []).

(** The declared type of the response DTO, in the priority order of the
    specification. *)
Definition resDeclaredTypeSpec (f : Field) : text :=
  if isRelation f then toRelationResDtoType (trim (tsType f))
  else if isTinyIntBoolean f then T "boolean"
  else if isAudit f && isDateTyped (trim (tsType f)) f then T "Date"
  else if isDateTyped (trim (tsType f)) f && negb (isAudit f) then T "string"
  else trim (tsType f).

Definition resFieldLinesSpec (f : Field) : list text :=
  resTransformsSpec f ++ [exposeLine; declLine f (resDeclaredTypeSpec f); []].

(** ** Wrapped type names *)

(** The two array wrappers of a type text: the plain suffix [T[]] and the
    generic form [Array<T>]. *)
Inductive wrapper : Type := Suffix | Generic.

(** [wrap ks base]: [base] under the wrappers [ks], outermost first. *)
Fixpoint wrap (ks : list wrapper) (base : text) : text :=
  match ks with
  | [] => base
  | Suffix :: ks' => wrap ks' base ++ T "[]"
  | Generic :: ks' => T "Array<" ++ wrap ks' base ++ T ">"
  end.

(** A text without white space at its ends and without a line
    terminator. *)
Definition tidy (t : text) : Prop :=
  t <> [] /\ class_at is_space t = false /\
  class_at is_space (rev t) = false /\ forallb is_dot t = true.

(** [n] plain array suffixes. *)
Fixpoint arraySuffix (n : nat) : text :=
  match n with
  | O => []
  | S n' => arraySuffix n' ++ T "[]"
  end.

(** ** Column metadata of a tinyint boolean *)

(** The metadata text has [@Column(] somewhere. *)
Definition mentionsColumn (meta : text) : Prop :=
  exists pre post, meta = pre ++ T "@Column(" ++ post.

(** Somewhere in the metadata text stand the letters [type] in any case,
    white space or none, a colon, white space or none, a quote, the
    letters [tinyint] in any case, and a quote.  Nothing is asked of the
    text before the letters [type], which can be the end of a longer
    name, and the two quotes need not be the same. *)
Definition mentionsTinyintType (meta : text) : Prop :=
  exists pre kw ws1 ws2 q1 v q2 post,
    meta = pre ++ kw ++ ws1 ++ T ":" ++ ws2 ++ [q1] ++ v ++ [q2] ++ post /\
    map to_lower kw = T "type" /\
    forallb is_space ws1 = true /\ forallb is_space ws2 = true /\
    is_quote q1 = true /\ map to_lower v = T "tinyint" /\ is_quote q2 = true.

(** Somewhere in the metadata text stand the letters [width], white
    space or none, a colon, white space or none, and the digit [1] with
    no word character right after it.  Nothing is asked of the text
    before the letters [width], and the digit can be followed by a
    decimal point. *)
Definition mentionsWidthOne (meta : text) : Prop :=
  exists pre ws1 ws2 post,
    meta = pre ++ T "width" ++ ws1 ++ T ":" ++ ws2 ++ T "1" ++ post /\
    forallb is_space ws1 = true /\ forallb is_space ws2 = true /\
    word_at post = false.

(** A line of a generated class that carries a decorator: two blanks,
    the marker, and a closing parenthesis at the end. *)
Definition isDecoratorRow (l : text) : bool :=
  startsWith (T "  @") l && endsWith (T ")") l.

(** The emission part of the claim on tinyint booleans, as it is stated:
    for every field of a parsed entity for which [isTinyIntBoolean] holds,
    the request DTO has its declaration with the type [number] and the
    boolean transform, and the response DTO has its declaration with the
    type [boolean] and the inverse transform. *)
Definition tinyIntEmissionAsStated : Prop :=
  forall (src : text) (parsed : ParsedEntity) (opts : Options) (f : Field),
    In f (fields parsed) -> isTinyIntBoolean f = true ->
    (In boolTo (genDocDtoLines src parsed opts) /\
     In (declLine f (T "number")) (genDocDtoLines src parsed opts)) /\
    (In boolFrom (genResponseDtoLines src parsed) /\
     In (declLine f (T "boolean")) (genResponseDtoLines src parsed)).

Module TinySamples.

(** A tinyint boolean column that also carries a join-column decorator. *)
Definition memberSource : text :=
  Samples.unlines
    ["export class MemberEntity {";
     "  @Column({ type: 'tinyint', width: 1 })";
     "  @JoinColumn({ name: 'active' })";
     "  active: number;";
     "}"]%string.

Definition activeField : Field :=
  mkField (T "active") (T "number") false
    [T "@Column({ type: 'tinyint', width: 1 })";
     T "@JoinColumn({ name: 'active' })"]
    (Some (T "  @Column({ type: 'tinyint', width: 1 })")).

Definition memberParsed : ParsedEntity :=
  mkParsedEntity (T "MemberEntity") (T "Member") [activeField].

(** A plain tinyint boolean column. *)
Definition enabledField : Field :=
  mkField (T "enabled") (T "number") false
    [T "@Column({ type: 'tinyint', width: 1 })"]
    (Some (T "  @Column({ type: 'tinyint', width: 1 })")).

Definition flagParsed : ParsedEntity :=
  mkParsedEntity (T "FlagEntity") (T "Flag") [enabledField].

(** Neither a [type] attribute nor a [width] attribute of value 1. *)
Definition looseField : Field :=
  mkField (T "ratio") (T "number") false
    [T "@Column({ subtype: 'tinyint', maxwidth: 1.5 })"]
    (Some (T "  @Column({ subtype: 'tinyint', maxwidth: 1.5 })")).

End TinySamples.

(** ** The lines the scan visits *)

(** A trimmed line matches the property pattern. *)
Definition isPropertyLine (line : text) : bool :=
  match rx_match prop_re line with
  | Some _ => true
  | None => false
  end.

(** The number of lines after [l] that the outer loop passes over once it
    has visited [l]: the continuation lines of a column metadata block
    that closes. *)
Definition linesConsumed (l : text) (rest : list text) : nat :=
  if isDecoratorLine (trim l) && opensColumnMeta (trim l) then
    match snd (scanColumnMeta (l :: rest) [] 0%Z) with
    | Some k => k
    | None => 0
    end
  else 0.

(** The lines the outer loop visits, in order. *)
Fixpoint visitedLines (ls : list text) (skip : nat) : list text :=
  match ls with
  | [] => []
  | l :: rest =>
      match skip with
      | S k => visitedLines rest k
      | O => l :: visitedLines rest (linesConsumed l rest)
      end
  end.

(** The claim on the decorators of the first field, as it is stated: all
    the decorator lines before the first line that matches the property
    pattern are the decorators of the first field. *)
Definition firstFieldDecoratorsAsStated : Prop :=
  forall (s : text) (e : ParsedEntity) (pre : list text) (p : text)
         (post : list text),
    parseEntity s = Some e ->
    splitLines s = pre ++ p :: post ->
    Forall (fun l => isPropertyLine (trim l) = false) pre ->
    isPropertyLine (trim p) = true ->
    exists f fs,
      fields e = f :: fs /\
      decorators f = filter isDecoratorLine (map trim pre).

Module ScanSamples.

(** A decorator line inside the parentheses of a column decorator that
    spans several lines. *)
Definition noteSource : text :=
  Samples.unlines
    ["@Entity()";
     "export class NoteEntity {";
     "  @Column({";
     "  @Index()";
     "    type: 'text'";
     "  })";
     "  body: string;";
     "}"]%string.

Definition noteParsed : ParsedEntity :=
  mkParsedEntity (T "NoteEntity") (T "Note")
    [mkField (T "body") (T "string") false
       [T "@Entity()"; T "@Column({"]
       (Some (Samples.unlines
                ["  @Column({"; "  @Index()"; "    type: 'text'"; "  })"]%string))].

(** Two exported classes in one text. *)
Definition userSource : text :=
  Samples.unlines
    ["export class UserEntity {";
     "  @PrimaryGeneratedColumn()";
     "  id: number;";
     "  name: string;";
     "}"]%string.

Definition postSource : text :=
  Samples.unlines
    ["export class PostEntity {";
     "  @Column({ nullable: true })";
     "  title: string;";
     "}"]%string.

End ScanSamples.

(** ** Two classes in one text *)

(** Every column metadata block that the scan of [ls] opens closes within
    [ls], and the scan does not pass over lines beyond [ls]. *)
Fixpoint blocksClosed (ls : list text) (skip : nat) : bool :=
  match ls with
  | [] => Nat.eqb skip 0
  | l :: rest =>
      match skip with
      | S k => blocksClosed rest k
      | O =>
          if isDecoratorLine (trim l) && opensColumnMeta (trim l) then
            match snd (scanColumnMeta (l :: rest) [] 0%Z) with
            | Some k => blocksClosed rest k
            | None => false
            end
          else blocksClosed rest 0
      end
  end.

(** No decorator line and no column metadata is pending after the last
    line of [s]. *)
Definition nothingPending (s : text) : bool :=
  let st := scanLines (splitLines s) 0 initScan in
  match decoratorBuf st, pendingColumnMeta st with
  | [], None => true
  | _, _ => false
  end.

(** [nl] is a line break after [s1]: a carriage return and a line feed,
    or a line feed that no carriage return at the end of [s1] pairs
    with. *)
Definition lineBreakAfter (s1 nl : text) : Prop :=
  nl = [CR; LF] \/ (nl = [LF] /\ endsWith [CR] s1 = false).

(** A declaration starts at the head of [t], stage by stage. *)
Fixpoint stripPrefix (p t : text) : option text :=
  match p, t with
  | [], _ => Some t
  | x :: p', y :: t' => if Ascii.eqb x y then stripPrefix p' t' else None
  | _ :: _, [] => None
  end.

Definition afterSpaces (t : text) : option text :=
  match t with
  | c :: t' => if is_space c then Some (dropWhile is_space t') else None
  | [] => None
  end.

Definition declStartsAt (t : text) : bool :=
  match stripPrefix (T "export") t with
  | Some t1 =>
      match afterSpaces t1 with
      | Some t2 =>
          match stripPrefix (T "class") t2 with
          | Some t3 =>
              match afterSpaces t3 with
              | Some t4 => word_at t4
              | None => false
              end
          | None => false
          end
      | None => false
      end
  | None => false
  end.

(** No character of the text is the letter [e]. *)
Definition noE (l : text) : bool :=
  forallb (fun c => negb (Ascii.eqb c "e")) l.

(** * Definitions for the further properties *)

(** The validator chosen by the declared type alone. *)
Definition typeValidators (field : Field) : list text :=
  let t := removeSpaces (tsType field) in
  if rx_test enum_wb_re t then [T "@IsEnum(" ++ trim (tsType field) ++ T ")"]
  else if text_eqb t (T "string") then [T "@IsString()"]
  else if text_eqb t (T "Date") then [T "@IsDate()"]
  else if text_eqb t (T "number") then [T "@IsInt()"]
  else [].

(** The opening minus the closing parentheses of a line, and of a block
    of lines. *)
Definition parenBalance (l : text) : Z := (countChar "(" l - countChar ")" l)%Z.

Fixpoint sumBalance (ls : list text) : Z :=
  match ls with
  | [] => 0%Z
  | l :: rest => (parenBalance l + sumBalance rest)%Z
  end.

(** An identifier: a letter or an underscore, then letters, digits and
    underscores. *)
Definition isIdentifier (n : text) : bool :=
  match n with
  | c :: r => is_ident_start c && forallb is_ident_char r
  | [] => false
  end.

(** Nothing, or one of the three modifier keywords and white space. *)
Definition modifierPrefix (m : text) : Prop :=
  m = [] \/
  exists kw sp,
    In kw [T "public"; T "private"; T "readonly"] /\ m = kw ++ sp /\
    sp <> [] /\ forallb is_space sp = true.

(** Nothing, or the optional marker. *)
Definition optionalMarker (q : text) : Prop := q = [] \/ q = T "?".

(** The name and the type that a trimmed line declares, when it matches
    the property pattern. *)
Definition declarationOf (line : text) : list (text * text) :=
  match rx_match prop_re line with
  | Some (_, [n; ty]) => [(n, trim ty)]
  | _ => []
  end.

(** What the pending metadata and the decorator buffer have to do with
    each other: metadata is pending exactly when a line of the buffer is
    a column decorator with a brace, and it starts with such a line as
    the source has it. *)
Definition metaInvariant (buf : list text) (pend : option text) : Prop :=
  match pend with
  | None => forallb (fun d => negb (opensColumnMeta d)) buf = true
  | Some m =>
      exists l rest,
        In (trim l) buf /\ opensColumnMeta (trim l) = true /\
        m = join [LF] (l :: rest)
  end.

(** A decorator line names one of [names]: it has the marker, the name,
    and no word character right after the name. *)
Definition namesDecorator (names : list text) (d : text) : Prop :=
  exists pre kw post,
    d = pre ++ T "@" ++ kw ++ post /\ In kw names /\ word_at post = false.

Definition relationNames : list text :=
  [T "OneToOne"; T "OneToMany"; T "ManyToOne"; T "ManyToMany";
   T "JoinColumn"; T "JoinTable"].

Definition auditNames : list text :=
  [T "CreateDateColumn"; T "UpdateDateColumn"; T "DeleteDateColumn"].

(** The text has no line feed. *)
Definition noLF (l : text) : bool := forallb (fun c => negb (Ascii.eqb c LF)) l.

(** The number of lines equal to [x]. *)
Definition countLine (x : text) (ls : list text) : nat :=
  length (filter (text_eqb x) ls).

(** The visited lines cut after each line that matches the property
    pattern: the pieces that end before such a line, in order, and the
    lines after the last one.  [cur] is the piece being collected. *)
Fixpoint cutAtProperties (cur : list text) (ls : list text)
  : list (list text) * list text :=
  match ls with
  | [] => ([], cur)
  | l :: rest =>
      if isPropertyLine l then
        (cur :: fst (cutAtProperties [] rest), snd (cutAtProperties [] rest))
      else cutAtProperties (cur ++ [l]) rest
  end.

(** * Definitions for the request DTO and for texts with two classes *)

(** The declared type of a field of the request DTO. *)
Definition docDeclaredType (f : Field) : text :=
  if isTinyIntBoolean f then T "number" else trim (tsType f).

(** The lines of the request DTO: the header, the blocks of the retained
    fields, the footer. *)
Definition docLines (src : text) (parsed : ParsedEntity) (opts : Options)
  : list text :=
  docHeader src parsed
  ++ flat_map (docFieldLines opts) (docRetained parsed)
  ++ docFooter parsed.

(** A field appears in a generated text when one of the lines of the text
    is the declaration of the field, as the generators write it. *)
Definition fieldAppears (f : Field) (out : text) : Prop :=
  In (declLine f (trim (tsType f))) (splitLines out).

(** The claim on the excluded fields, as it is stated, for the entities
    that [parseEntity] returns. *)
Definition excludedAsStated : Prop :=
  forall (src : text) (parsed : ParsedEntity) (opts : Options) (f : Field),
    parseEntity src = Some parsed -> In f (fields parsed) ->
    isRelation f = true \/ isAudit f = true ->
    ~ fieldAppears f (genDocDto src parsed opts).

(** The relation field of the scenario entity. *)
Definition commentsField : Field :=
  mkField (T "comments") (T "CommentEntity[]") false
    [T "@OneToMany(() => CommentEntity, (c) => c.doc)"] None.

Module ImportSamples.

(** A relation whose name starts with the letters [import] and whose type
    has the enum naming. *)
Definition accountSource : text :=
  Samples.unlines
    ["export class AccountEntity {";
     "  @ManyToOne(() => RoleEnum)";
     "  importRole: RoleEnum;";
     "}"]%string.

Definition importRole : Field :=
  mkField (T "importRole") (T "RoleEnum") false
    [T "@ManyToOne(() => RoleEnum)"] None.

Definition accountParsed : ParsedEntity :=
  mkParsedEntity (T "AccountEntity") (T "Account") [importRole].

End ImportSamples.

Module KeySamples.

(** A generated primary key of string type. *)
Definition tokenSource : text :=
  Samples.unlines
    ["export class TokenEntity {";
     "  @PrimaryGeneratedColumn('uuid')";
     "  id: string;";
     "}"]%string.

Definition idField : Field :=
  mkField (T "id") (T "string") false
    [T "@PrimaryGeneratedColumn('uuid')"] None.

Definition tokenParsed : ParsedEntity :=
  mkParsedEntity (T "TokenEntity") (T "Token") [idField].

End KeySamples.

(** The names and the types of a list of fields. *)
Definition declarations (fs : list Field) : list (text * text) :=
  map (fun f => (name f, tsType f)) fs.

(** The claim on texts with two classes, as it is stated: the class name
    is the one of the first class, and the property declarations of the
    two classes are merged in the order of the text. *)
Definition twoClassesAsStated : Prop :=
  forall (s1 s2 : text) (e1 e2 : ParsedEntity),
    parseEntity s1 = Some e1 -> parseEntity s2 = Some e2 ->
    exists e,
      parseEntity (s1 ++ [LF] ++ s2) = Some e /\
      className e = className e1 /\
      declarations (fields e)
      = declarations (fields e1) ++ declarations (fields e2).

Module BoundarySamples.

(** A parenthesis inside the comment text of the first class leaves its
    metadata block open for the scan; the parenthesis inside the comment
    text of the second class closes it. *)
Definition smileSource : text :=
  Samples.unlines
    ["export class SmileEntity {";
     "  @Column({ comment: 'mood :(' })";
     "  mood: string;";
     "}"]%string.

Definition frownSource : text :=
  Samples.unlines
    ["export class FrownEntity {";
     "  @Column({ comment: 'mood :)' })";
     "  note: string;";
     "}"]%string.

End BoundarySamples.

(** * Theory of the matcher *)

Section MatcherTheory.

Lemma consumed_app (b w : list ascii) (a a' : list ascii) (cs cs' : list text) :
  consumed (MState b a cs) (MState (rev w ++ b) a' cs') = w.
Proof.
  unfold consumed; simpl.
  rewrite length_app, length_rev.
  replace (length w + length b - length b) with (length (rev w)) by
    (rewrite length_rev; lia).
  rewrite firstn_app, Nat.sub_diag, firstn_all; simpl.
  rewrite app_nil_r. apply rev_involutive.
Qed.

Lemma star_states_sound p a : forall b cs st',
  In st' (star_states p b a cs) ->
  exists w, a = w ++ after st' /\ before st' = rev w ++ b /\
            caps st' = cs /\ forallb p w = true.
Proof.
  induction a as [| c a IH]; intros b cs st' Hin; simpl in Hin.
  - destruct Hin as [<- | []]. exists []. auto.
  - destruct (p c) eqn:Hp.
    + apply in_app_or in Hin. destruct Hin as [Hin | [<- | []]].
      * destruct (IH _ _ _ Hin) as (w & Ha & Hb & Hc & Hw).
        exists (c :: w). simpl. rewrite Hp, Hw, Hb, <- app_assoc.
        repeat split; auto. now f_equal.
      * exists []. auto.
    + destruct Hin as [<- | []]. exists []. auto.
Qed.

Lemma star_states_complete p w : forall b a cs,
  forallb p w = true ->
  In (MState (rev w ++ b) a cs) (star_states p b (w ++ a) cs).
Proof.
  induction w as [| c w IH]; intros b a cs Hw; simpl in *.
  - destruct a as [| d a]; simpl; auto.
    destruct (p d); [apply in_or_app; right |]; simpl; auto.
  - apply andb_prop in Hw. destruct Hw as [Hc Hw]. rewrite Hc.
    apply in_or_app. left. rewrite <- app_assoc. simpl. now apply IH.
Qed.

(** Every result of the matcher is a match. *)
Lemma run_sound r : forall st st',
  In st' (run r st) ->
  exists w cs, after st = w ++ after st' /\ before st' = rev w ++ before st /\
               caps st' = caps st ++ cs /\
               matches r (before st) w (after st') cs.
Proof.
  induction r; intros st st' Hin; simpl in Hin.
  - destruct Hin as [<- | []]. exists [], []. rewrite app_nil_r.
    auto with rx.
  - destruct (after st) as [| c a'] eqn:Ha; [contradiction |].
    destruct (p c) eqn:Hp; [| contradiction].
    destruct Hin as [<- | []]. exists [c], []. simpl. rewrite app_nil_r.
    auto with rx.
  - apply in_flat_map in Hin. destruct Hin as (mid & Hmid & Hin).
    destruct (IHr1 _ _ Hmid) as (w1 & cs1 & Ha1 & Hb1 & Hc1 & Hm1).
    destruct (IHr2 _ _ Hin) as (w2 & cs2 & Ha2 & Hb2 & Hc2 & Hm2).
    exists (w1 ++ w2), (cs1 ++ cs2).
    rewrite Ha1, Ha2, Hb2, Hb1, Hc2, Hc1, rev_app_distr, !app_assoc.
    repeat split; auto.
    rewrite Ha2 in Hm1. rewrite Hb1 in Hm2. now apply MSeq.
  - apply in_app_or in Hin. destruct Hin as [Hin | Hin].
    + destruct (IHr1 _ _ Hin) as (w & cs & ? & ? & ? & ?).
      exists w, cs. auto with rx.
    + destruct (IHr2 _ _ Hin) as (w & cs & ? & ? & ? & ?).
      exists w, cs. auto with rx.
  - apply in_app_or in Hin. destruct Hin as [Hin | [<- | []]].
    + destruct (IHr _ _ Hin) as (w & cs & ? & ? & ? & ?).
      exists w, cs. auto with rx.
    + exists [], []. rewrite app_nil_r. auto with rx.
  - destruct (star_states_sound _ _ _ _ _ Hin) as (w & Ha & Hb & Hc & Hw).
    exists w, []. rewrite app_nil_r. auto with rx.
  - apply in_map_iff in Hin. destruct Hin as (mid & <- & Hin).
    destruct (IHr _ _ Hin) as (w & cs & Ha & Hb & Hc & Hm). simpl.
    exists w, (cs ++ [w]). rewrite Hc, app_assoc. repeat split; auto with rx.
    do 2 f_equal. destruct st as [b a c0], mid as [b' a' c']. simpl in *.
    subst b'. apply consumed_app.
  - destruct (before st) eqn:Hb; [| contradiction].
    destruct Hin as [<- | []]. exists [], []. rewrite Hb, !app_nil_r.
    auto with rx.
  - destruct (after st) eqn:Ha; [| contradiction].
    destruct Hin as [<- | []]. exists [], []. rewrite Ha, !app_nil_r.
    auto with rx.
  - destruct (xorb _ _) eqn:Hx; [| contradiction].
    destruct Hin as [<- | []]. exists [], []. rewrite app_nil_r.
    auto with rx.
Qed.

(** Every match is among the results of the matcher. *)
Lemma run_complete r b w a cs :
  matches r b w a cs ->
  forall c0, In (MState (rev w ++ b) a (c0 ++ cs)) (run r (MState b (w ++ a) c0)).
Proof.
  induction 1; intros c0; simpl; rewrite ?app_nil_r; auto.
  - rewrite H. simpl. auto.
  - apply in_flat_map. exists (MState (rev w1 ++ b) (w2 ++ a) (c0 ++ cs1)).
    split.
    + rewrite <- app_assoc. apply IHmatches1.
    + rewrite rev_app_distr, <- app_assoc, (app_assoc c0). apply IHmatches2.
  - apply in_or_app. left. apply IHmatches.
  - apply in_or_app. right. apply IHmatches.
  - apply in_or_app. left. apply IHmatches.
  - apply in_or_app. right. simpl. auto.
  - now apply star_states_complete.
  - apply in_map_iff. exists (MState (rev w ++ b) a (c0 ++ cs)). split.
    + simpl. rewrite consumed_app, app_assoc. reflexivity.
    + apply IHmatches.
  - rewrite H. simpl. auto.
Qed.

Lemma search_none r : forall a b,
  search r b a = None ->
  forall pre w post cs, a = pre ++ w ++ post -> ~ occurs_at r b pre w post cs.
Proof.
  induction a as [| c a IH]; intros b Hs pre w post cs Heq Hm; simpl in Hs.
  - destruct (run r (MState b [] [])) eqn:Hr; [| discriminate].
    symmetry in Heq. apply app_eq_nil in Heq. destruct Heq as [-> Heq].
    apply app_eq_nil in Heq. destruct Heq as [-> ->].
    apply run_complete with (c0 := []) in Hm. simpl in Hm.
    rewrite Hr in Hm. contradiction.
  - destruct (run r (MState b (c :: a) [])) eqn:Hr; [| discriminate].
    destruct pre as [| d pre].
    + simpl in Heq. apply run_complete with (c0 := []) in Hm. simpl in Hm.
      rewrite <- Heq, Hr in Hm. contradiction.
    + simpl in Heq. injection Heq as -> Heq.
      apply (IH (d :: b) Hs pre w post cs Heq).
      unfold occurs_at in *. simpl in Hm. now rewrite <- app_assoc in Hm.
Qed.

Lemma search_some r : forall a b st st',
  search r b a = Some (st, st') ->
  exists pre w cs,
    a = pre ++ w ++ after st' /\
    st = MState (rev pre ++ b) (w ++ after st') [] /\
    before st' = rev w ++ rev pre ++ b /\ caps st' = cs /\
    hd_error (run r st) = Some st' /\
    occurs_at r b pre w (after st') cs /\
    (forall pre' w' post' cs',
        a = pre' ++ w' ++ post' -> occurs_at r b pre' w' post' cs' ->
        length pre <= length pre').
Proof.
  induction a as [| c a IH]; intros b st st' Hs; simpl in Hs.
  - destruct (run r (MState b [] [])) as [| s1 l] eqn:Hr; [discriminate |].
    injection Hs as <- <-.
    assert (Hin : In s1 (run r (MState b [] []))) by (rewrite Hr; simpl; auto).
    destruct (run_sound _ _ _ Hin) as (w & cs & Ha & Hb & Hc & Hm).
    simpl in *. exists [], w, cs. simpl. rewrite <- Ha, Hr.
    repeat split; auto. intros. lia.
  - destruct (run r (MState b (c :: a) [])) as [| s1 l] eqn:Hr.
    + destruct (IH _ _ _ Hs) as (pre & w & cs & Ha & Hst & Hb & Hc & Hh & Hm & Hl).
      exists (c :: pre), w, cs. simpl. rewrite <- !app_assoc. simpl.
      rewrite <- Ha. repeat split; auto.
      * unfold occurs_at in *. simpl. now rewrite <- app_assoc.
      * intros pre' w' post' cs' Heq Hm'. destruct pre' as [| d pre'].
        -- exfalso. simpl in Heq. unfold occurs_at in Hm'. simpl in Hm'.
           apply run_complete with (c0 := []) in Hm'. simpl in Hm'.
           rewrite <- Heq, Hr in Hm'. contradiction.
        -- simpl in Heq. injection Heq as -> Heq. simpl.
           apply le_n_S. apply (Hl pre' w' post' cs' Heq).
           unfold occurs_at in *. simpl in Hm'. now rewrite <- app_assoc in Hm'.
    + injection Hs as <- <-.
      assert (Hin : In s1 (run r (MState b (c :: a) []))) by (rewrite Hr; simpl; auto).
      destruct (run_sound _ _ _ Hin) as (w & cs & Ha & Hb & Hc & Hm).
      simpl in *. exists [], w, cs. simpl. rewrite <- Ha, Hr.
      repeat split; auto. intros. lia.
Qed.

Lemma search_complete r a b pre w post cs :
  a = pre ++ w ++ post -> occurs_at r b pre w post cs ->
  search r b a <> None.
Proof.
  intros Heq Hm Hs. eapply search_none; eauto.
Qed.

(** [match] and [test] in terms of occurrences. *)
Lemma rx_match_some r s whole cs :
  rx_match r s = Some (whole, cs) ->
  exists pre post,
    s = pre ++ whole ++ post /\ occurs_at r [] pre whole post cs /\
    hd_error (run r (MState (rev pre) (whole ++ post) []))
      = Some (MState (rev whole ++ rev pre) post cs) /\
    (forall pre' w' post' cs',
        s = pre' ++ w' ++ post' -> occurs_at r [] pre' w' post' cs' ->
        length pre <= length pre').
Proof.
  unfold rx_match. destruct (search r [] s) as [[st st'] |] eqn:Hs;
    [| discriminate].
  intros H. injection H as <- <-. apply search_some in Hs.
  destruct Hs as (pre & w & cs & Ha & Hst & Hb & Hc & Hh & Hm & Hl).
  destruct st' as [b' a' c']. simpl in *. subst.
  rewrite app_nil_r in *. rewrite consumed_app.
  exists pre, a'. repeat split; auto.
Qed.

Lemma rx_match_none r s :
  rx_match r s = None ->
  forall pre w post cs, s = pre ++ w ++ post -> ~ occurs_at r [] pre w post cs.
Proof.
  unfold rx_match. destruct (search r [] s) as [[st st'] |] eqn:Hs;
    [discriminate |].
  intros _. now apply search_none.
Qed.

Lemma rx_test_true r s :
  rx_test r s = true ->
  exists pre w post cs, s = pre ++ w ++ post /\ occurs_at r [] pre w post cs.
Proof.
  unfold rx_test. destruct (search r [] s) as [[st st'] |] eqn:Hs;
    [| discriminate].
  intros _. apply search_some in Hs.
  destruct Hs as (pre & w & cs & Ha & Hst & Hb & Hc & Hh & Hm & Hl).
  eauto 10.
Qed.

Lemma rx_test_false r s :
  rx_test r s = false ->
  forall pre w post cs, s = pre ++ w ++ post -> ~ occurs_at r [] pre w post cs.
Proof.
  unfold rx_test. destruct (search r [] s) as [[st st'] |] eqn:Hs;
    [discriminate |].
  intros _. now apply search_none.
Qed.

Lemma rx_test_intro r s pre w post cs :
  s = pre ++ w ++ post -> occurs_at r [] pre w post cs -> rx_test r s = true.
Proof.
  intros Heq Hm. destruct (rx_test r s) eqn:Ht; auto.
  exfalso. eapply rx_test_false; eauto.
Qed.

End MatcherTheory.

(** ** Inversion and introduction lemmas, pattern by pattern *)

Section MatchesLemmas.

Lemma matches_seq_inv r1 r2 b w a cs :
  matches (RSeq r1 r2) b w a cs ->
  exists w1 w2 cs1 cs2,
    w = w1 ++ w2 /\ cs = cs1 ++ cs2 /\
    matches r1 b w1 (w2 ++ a) cs1 /\ matches r2 (rev w1 ++ b) w2 a cs2.
Proof. inversion 1; subst. eauto 10. Qed.

Lemma matches_char_inv p b w a cs :
  matches (RChar p) b w a cs -> exists c, w = [c] /\ p c = true /\ cs = [].
Proof. inversion 1; subst. eauto. Qed.

Lemma matches_star_inv p b w a cs :
  matches (RStar p) b w a cs -> forallb p w = true /\ cs = [].
Proof. inversion 1; subst. auto. Qed.

Lemma matches_group_inv r b w a cs :
  matches (RGroup r) b w a cs ->
  exists cs', cs = cs' ++ [w] /\ matches r b w a cs'.
Proof. inversion 1; subst. eauto. Qed.

Lemma matches_eol_inv b w a cs :
  matches REol b w a cs -> w = [] /\ a = [] /\ cs = [].
Proof. inversion 1; subst. auto. Qed.

Lemma matches_bol_inv b w a cs :
  matches RBol b w a cs -> w = [] /\ b = [] /\ cs = [].
Proof. inversion 1; subst. auto. Qed.

Lemma matches_wordb_inv b w a cs :
  matches RWordB b w a cs ->
  w = [] /\ xorb (word_at b) (word_at a) = true /\ cs = [].
Proof. inversion 1; subst. auto. Qed.

Lemma matches_lit_inv l : forall b w a cs,
  matches (RLit l) b w a cs -> w = l /\ cs = [].
Proof.
  induction l as [| c l IH]; intros b w a cs H; simpl in H.
  - inversion H; subst. auto.
  - apply matches_seq_inv in H.
    destruct H as (w1 & w2 & cs1 & cs2 & -> & -> & H1 & H2).
    apply matches_char_inv in H1. destruct H1 as (d & -> & Hd & ->).
    apply Ascii.eqb_eq in Hd. subst d.
    apply IH in H2. destruct H2 as [-> ->]. auto.
Qed.

Lemma matches_lit l : forall b a, matches (RLit l) b l a [].
Proof.
  induction l as [| c l IH]; intros b a; simpl.
  - constructor.
  - apply (MSeq (r1 := RChar (Ascii.eqb c)) (r2 := RLit l) (w1 := [c])
                (w2 := l) (cs1 := []) (cs2 := [])).
    + constructor. apply Ascii.eqb_refl.
    + apply IH.
Qed.

Lemma matches_plus_inv p b w a cs :
  matches (RPlus p) b w a cs -> w <> [] /\ forallb p w = true /\ cs = [].
Proof.
  intros H. apply matches_seq_inv in H.
  destruct H as (w1 & w2 & cs1 & cs2 & -> & -> & H1 & H2).
  apply matches_char_inv in H1. destruct H1 as (d & -> & Hd & ->).
  apply matches_star_inv in H2. destruct H2 as [Hw ->].
  simpl. rewrite Hd, Hw. repeat split; auto. discriminate.
Qed.

Lemma matches_plus p b w a :
  w <> [] -> forallb p w = true -> matches (RPlus p) b w a [].
Proof.
  intros Hne Hw. destruct w as [| c w]; [contradiction |].
  simpl in Hw. apply andb_prop in Hw. destruct Hw as [Hc Hw].
  apply (MSeq (r1 := RChar p) (r2 := RStar p) (w1 := [c]) (w2 := w)
              (cs1 := []) (cs2 := [])); now constructor.
Qed.

Lemma matches_seq r1 r2 b w1 w2 a cs1 cs2 w cs :
  matches r1 b w1 (w2 ++ a) cs1 ->
  matches r2 (rev w1 ++ b) w2 a cs2 ->
  w = w1 ++ w2 -> cs = cs1 ++ cs2 ->
  matches (RSeq r1 r2) b w a cs.
Proof. intros H1 H2 -> ->. now apply MSeq. Qed.

(** The first result of a sequence is the first result of its second
    part at one of the results of its first part. *)
Lemma hd_flat_map (A B : Type) (f : A -> list B) (l : list A) (y : B) :
  hd_error (flat_map f l) = Some y ->
  exists x, In x l /\ hd_error (f x) = Some y.
Proof.
  induction l as [| x l IH]; simpl; [discriminate |].
  destruct (f x) as [| z fx] eqn:Hf; simpl.
  - intros H. destruct (IH H) as (x' & Hin & Hx'). eauto.
  - intros H. exists x. rewrite Hf. auto.
Qed.

Lemma hd_run_seq a b st st' :
  hd_error (run (RSeq a b) st) = Some st' ->
  exists x, In x (run a st) /\ hd_error (run b x) = Some st'.
Proof. apply hd_flat_map. Qed.

Lemma star_states_hd p a : forall b cs st',
  hd_error (star_states p b a cs) = Some st' -> class_at p (after st') = false.
Proof.
  induction a as [| c a IH]; intros b cs st' H; simpl in H.
  - injection H as <-. reflexivity.
  - destruct (p c) eqn:Hp.
    + destruct (star_states p (c :: b) a cs) as [| s l] eqn:Hs.
      * destruct a; simpl in Hs; [discriminate |].
        destruct (p a); [destruct (star_states p _ a0 cs) |]; discriminate.
      * simpl in H. injection H as <-. apply (IH (c :: b) cs). now rewrite Hs.
    + injection H as <-. simpl. exact Hp.
Qed.

Lemma hd_run_plus p st st' :
  hd_error (run (RPlus p) st) = Some st' -> class_at p (after st') = false.
Proof.
  intros H. apply hd_run_seq in H. destruct H as (x & _ & H).
  simpl in H. now apply star_states_hd in H.
Qed.

Lemma hd_run_group r st st' :
  hd_error (run (RGroup r) st) = Some st' ->
  exists x, hd_error (run r st) = Some x /\ after st' = after x.
Proof.
  simpl. destruct (run r st) as [| x l]; simpl; [discriminate |].
  intros H. injection H as <-. eauto.
Qed.

Lemma matches_opt_inv r b w a cs :
  matches (ROpt r) b w a cs -> matches r b w a cs \/ (w = [] /\ cs = []).
Proof. inversion 1; subst; auto. Qed.

Lemma matches_alt_inv r1 r2 b w a cs :
  matches (RAlt r1 r2) b w a cs ->
  matches r1 b w a cs \/ matches r2 b w a cs.
Proof. inversion 1; subst; auto. Qed.

Lemma matches_lit_seq_inv l r b w a cs :
  matches (RSeq (RLit l) r) b w a cs -> exists x, w = l ++ x.
Proof.
  intros Hm. apply matches_seq_inv in Hm.
  destruct Hm as (x1 & x2 & ? & ? & -> & _ & Hl & _).
  apply matches_lit_inv in Hl. destruct Hl as [-> _]. eauto.
Qed.

End MatchesLemmas.

(** * The class declaration *)

Section ClassDeclaration.

Lemma class_re_inv b w a cs :
  matches class_re b w a cs ->
  exists ws1 ws2 id,
    w = T "export" ++ ws1 ++ T "class" ++ ws2 ++ id /\
    ws1 <> [] /\ forallb is_space ws1 = true /\
    ws2 <> [] /\ forallb is_space ws2 = true /\
    id <> [] /\ forallb is_word id = true /\ cs = [id].
Proof.
  unfold class_re. cbn [RSeqs]. intros H.
  apply matches_seq_inv in H. destruct H as (w1 & r1 & c1 & d1 & -> & -> & H1 & H).
  apply matches_lit_inv in H1. destruct H1 as [-> ->].
  apply matches_seq_inv in H. destruct H as (w2 & r2 & c2 & d2 & -> & -> & H2 & H).
  apply matches_plus_inv in H2. destruct H2 as (Hn2 & Hs2 & ->).
  apply matches_seq_inv in H. destruct H as (w3 & r3 & c3 & d3 & -> & -> & H3 & H).
  apply matches_lit_inv in H3. destruct H3 as [-> ->].
  apply matches_seq_inv in H. destruct H as (w4 & r4 & c4 & d4 & -> & -> & H4 & H).
  apply matches_plus_inv in H4. destruct H4 as (Hn4 & Hs4 & ->).
  apply matches_group_inv in H. destruct H as (c5 & -> & H).
  apply matches_plus_inv in H. destruct H as (Hn5 & Hs5 & ->).
  exists w2, w4, r4. repeat split; auto.
Qed.

Lemma class_re_intro b ws1 ws2 id a :
  ws1 <> [] -> forallb is_space ws1 = true ->
  ws2 <> [] -> forallb is_space ws2 = true ->
  id <> [] -> forallb is_word id = true ->
  matches class_re b (T "export" ++ ws1 ++ T "class" ++ ws2 ++ id) a [id].
Proof.
  intros. unfold class_re. cbn [RSeqs].
  apply matches_seq with (w1 := T "export") (cs1 := [])
    (w2 := ws1 ++ T "class" ++ ws2 ++ id) (cs2 := [id]);
    [apply matches_lit | | reflexivity | reflexivity].
  apply matches_seq with (w1 := ws1) (cs1 := [])
    (w2 := T "class" ++ ws2 ++ id) (cs2 := [id]);
    [now apply matches_plus | | reflexivity | reflexivity].
  apply matches_seq with (w1 := T "class") (cs1 := [])
    (w2 := ws2 ++ id) (cs2 := [id]);
    [apply matches_lit | | reflexivity | reflexivity].
  apply matches_seq with (w1 := ws2) (cs1 := []) (w2 := id) (cs2 := [id]);
    [now apply matches_plus | | reflexivity | reflexivity].
  apply (MGroup (r := RPlus is_word) (cs := [])). now apply matches_plus.
Qed.

Lemma classDeclAt_occurs s pre ws1 ws2 id post :
  classDeclAt s pre ws1 ws2 id post ->
  s = pre ++ (T "export" ++ ws1 ++ T "class" ++ ws2 ++ id) ++ post /\
  occurs_at class_re [] pre (T "export" ++ ws1 ++ T "class" ++ ws2 ++ id)
            post [id].
Proof.
  intros (Hs & ? & ? & ? & ? & ? & ?). split.
  - rewrite Hs. now rewrite <- !app_assoc.
  - unfold occurs_at. now apply class_re_intro.
Qed.

Lemma class_re_hd st st' :
  hd_error (run class_re st) = Some st' -> word_at (after st') = false.
Proof.
  unfold class_re. cbn [RSeqs]. intros H.
  apply hd_run_seq in H. destruct H as (x1 & _ & H).
  apply hd_run_seq in H. destruct H as (x2 & _ & H).
  apply hd_run_seq in H. destruct H as (x3 & _ & H).
  apply hd_run_seq in H. destruct H as (x4 & _ & H).
  apply hd_run_group in H. destruct H as (x5 & H & ->).
  apply hd_run_plus in H. destruct (after x5); auto.
Qed.

(** The result of the class pattern on a text. *)
Lemma class_search s :
  match rx_match class_re s with
  | None => ~ hasClassDecl s
  | Some (_, cs) => exists id, cs = [id] /\ id <> [] /\ firstClassDecl s id
  end.
Proof.
  unfold rx_match. destruct (search class_re [] s) as [[st st'] |] eqn:Hs.
  - apply search_some in Hs.
    destruct Hs as (pre & w & cs & Ha & Hst & Hb & Hc & Hh & Hm & Hl).
    pose proof (class_re_hd _ Hh) as Hw.
    apply class_re_inv in Hm.
    destruct Hm as (ws1 & ws2 & id & -> & ? & ? & ? & ? & ? & ? & Hcs).
    exists id. rewrite Hc, Hcs. repeat split; auto.
    exists pre, ws1, ws2, (after st'). repeat split; auto.
    + rewrite Ha. now rewrite <- !app_assoc.
    + intros pre' ws1' ws2' id' post' Hd.
      apply classDeclAt_occurs in Hd. destruct Hd as [Hd Ho].
      exact (Hl _ _ _ _ Hd Ho).
  - intros (pre & ws1 & ws2 & id & post & Hd).
    apply classDeclAt_occurs in Hd. destruct Hd as [Hd Ho].
    eapply search_none; eauto.
Qed.

(** [replace(/Entity$/, by)] *)
Lemma entity_end_inv b w a cs :
  matches entity_end_re b w a cs -> w = T "Entity" /\ a = [].
Proof.
  unfold entity_end_re. intros H. apply matches_seq_inv in H.
  destruct H as (w1 & w2 & c1 & c2 & -> & -> & H1 & H2).
  apply matches_lit_inv in H1. destruct H1 as [-> ->].
  apply matches_eol_inv in H2. destruct H2 as (-> & -> & ->).
  now rewrite app_nil_r.
Qed.

Lemma entity_end_intro b : matches entity_end_re b (T "Entity") [] [].
Proof.
  unfold entity_end_re.
  eapply matches_seq; [apply matches_lit | apply MEol | |];
    now rewrite ?app_nil_r.
Qed.

Lemma replace_entity_suffix x by_ :
  rx_replace entity_end_re (x ++ T "Entity") by_ = x ++ by_.
Proof.
  unfold rx_replace.
  destruct (search entity_end_re [] (x ++ T "Entity")) as [[st st'] |] eqn:Hs.
  - apply search_some in Hs.
    destruct Hs as (pre & w & cs & Ha & Hst & Hb & Hc & Hh & Hm & Hl).
    apply entity_end_inv in Hm. destruct Hm as [-> Hpost].
    rewrite Hpost in *. rewrite Hst. simpl. rewrite !app_nil_r in *.
    rewrite rev_involutive. apply app_inv_tail in Ha. now subst.
  - exfalso. eapply search_none with (pre := x) (w := T "Entity") (post := []);
      eauto using entity_end_intro.
    apply entity_end_intro.
Qed.

Lemma replace_entity_none cn by_ :
  (forall x, cn <> x ++ T "Entity") -> rx_replace entity_end_re cn by_ = cn.
Proof.
  intros Hno. unfold rx_replace.
  destruct (search entity_end_re [] cn) as [[st st'] |] eqn:Hs; auto.
  apply search_some in Hs.
  destruct Hs as (pre & w & cs & Ha & Hst & Hb & Hc & Hh & Hm & Hl).
  apply entity_end_inv in Hm. destruct Hm as [-> Hpost].
  rewrite Hpost, app_nil_r in Ha. now apply Hno in Ha.
Qed.

Lemma baseNameOf_spec cn : withoutEntitySuffix cn (baseNameOf cn).
Proof.
  unfold baseNameOf. split.
  - intros x ->. rewrite replace_entity_suffix. apply app_nil_r.
  - apply replace_entity_none.
Qed.

End ClassDeclaration.

(** C3. [parseEntity] returns the absent result exactly when no exported
    class declaration with a capturable identifier stands anywhere in the
    text; and for every text with such a declaration it returns a
    [ParsedEntity] whose [className] is the identifier captured at the
    first declaration and whose [baseName] is [className] without a
    trailing [Entity] ([className] itself when it has none). *)
Theorem parseEntity_class_declaration (s : text) :
  (parseEntity s = None <-> ~ hasClassDecl s) /\
  (hasClassDecl s ->
   exists e, parseEntity s = Some e /\
             firstClassDecl s (className e) /\
             withoutEntitySuffix (className e) (baseName e)).
Proof.
  pose proof (class_search s) as H. unfold parseEntity.
  destruct (rx_match class_re s) as [[whole cs] |].
  - destruct H as (id & -> & Hne & Hfirst).
    destruct id as [| c id]; [contradiction |]. split.
    + split; [discriminate |]. intros Hno. exfalso. apply Hno.
      destruct Hfirst as (pre & ws1 & ws2 & post & Hd & _). red. eauto 10.
    + intros _. eexists. split; [reflexivity |]. simpl. split; auto.
      apply baseNameOf_spec.
  - split; [tauto |]. intros Hd. contradiction.
Qed.

Example parse_docSource : parseEntity Samples.docSource = Some Samples.docParsed.
Proof. vm_compute. reflexivity. Qed.

(** Witness of C3 on the scenario entity. *)
Lemma parseEntity_class_declaration_witness :
  hasClassDecl Samples.docSource /\
  exists e, parseEntity Samples.docSource = Some e /\
            firstClassDecl Samples.docSource (className e) /\
            withoutEntitySuffix (className e) (baseName e).
Proof.
  assert (H : hasClassDecl Samples.docSource).
  { exists (T "import { Entity } from 'typeorm';" ++ [LF; LF]
              ++ T "@Entity('doc')" ++ [LF]),
           (T " "), (T " "), (T "DocEntity"),
           (skipn 72 Samples.docSource).
    unfold classDeclAt.
    repeat split; try discriminate; vm_compute; reflexivity. }
  split; [exact H |].
  exact (proj2 (parseEntity_class_declaration Samples.docSource) H).
Defined.


(** * The optional flag *)

Section OptionalFlag.

Lemma matches_seq_suffix r1 r2 l b w a cs :
  (forall b' w' a' cs', matches r2 b' w' a' cs' -> exists x, w' = x ++ l) ->
  matches (RSeq r1 r2) b w a cs -> exists x, w = x ++ l.
Proof.
  intros Hr H. apply matches_seq_inv in H.
  destruct H as (w1 & w2 & cs1 & cs2 & -> & -> & _ & H2).
  apply Hr in H2. destruct H2 as (x & ->). exists (w1 ++ x).
  now rewrite app_assoc.
Qed.

(** The whole match of the property pattern ends with the semicolon. *)
Lemma prop_re_whole b w a cs :
  matches prop_re b w a cs -> exists x, w = x ++ T ";".
Proof.
  unfold prop_re. cbn [RSeqs].
  do 7 (apply matches_seq_suffix; intros ? ? ? ?).
  intros H. apply matches_lit_inv in H. destruct H as [-> _]. now exists [].
Qed.

Lemma qmark_end_semicolon x : rx_test qmark_end_re (x ++ T ";") = false.
Proof.
  destruct (rx_test qmark_end_re (x ++ T ";")) eqn:Ht; auto.
  apply rx_test_true in Ht. destruct Ht as (pre & w & post & cs & Heq & Hm).
  unfold occurs_at, qmark_end_re in Hm. apply matches_seq_inv in Hm.
  destruct Hm as (w1 & w2 & c1 & c2 & -> & -> & H1 & H2).
  apply matches_char_inv in H1. destruct H1 as (c & -> & Hc & _).
  apply matches_eol_inv in H2. destruct H2 as (-> & -> & _).
  apply Ascii.eqb_eq in Hc. subst c. simpl in Heq.
  apply (f_equal (@rev ascii)) in Heq. rewrite !rev_app_distr in Heq.
  simpl in Heq. discriminate.
Qed.

(** What the parser computes for the flag: the optional marker of the
    declaration never sets it. *)
Lemma fieldOfLine_optional line st f :
  fieldOfLine line st = Some f ->
  optional f =
    rx_test nullable_re
      (orEmpty (rawColumnMeta f) ++ [LF] ++ join [LF] (decorators f)).
Proof.
  unfold fieldOfLine.
  destruct (rx_match prop_re line) as [[whole cs] |] eqn:Hm; [| discriminate].
  destruct cs as [| n [| ty [| ? ?]]]; try discriminate.
  intros H. injection H as <-. simpl.
  apply rx_match_some in Hm. destruct Hm as (pre & post & _ & Ho & _).
  apply prop_re_whole in Ho. destruct Ho as (x & ->).
  now rewrite qmark_end_semicolon.
Qed.

Lemma scanLines_cons l rest skip st :
  scanLines (l :: rest) skip st =
  match skip with
  | S k => scanLines rest k st
  | O =>
      let line := trim l in
      if isDecoratorLine line then
        let buf := decoratorBuf st ++ [line] in
        if opensColumnMeta line then
          let (meta, adv) := scanColumnMeta (l :: rest) [] 0%Z in
          scanLines rest (match adv with Some k => k | None => 0 end)
                    (mkScan (fieldsAcc st) buf (Some meta))
        else
          scanLines rest 0 (mkScan (fieldsAcc st) buf (pendingColumnMeta st))
      else
        match fieldOfLine line st with
        | Some f => scanLines rest 0 (mkScan (fieldsAcc st ++ [f]) [] None)
        | None => scanLines rest 0 st
        end
  end.
Proof. reflexivity. Qed.

Lemma scanLines_fields_inv (P : Field -> Prop) :
  (forall line st f, fieldOfLine line st = Some f -> P f) ->
  forall ls skip st,
    Forall P (fieldsAcc st) -> Forall P (fieldsAcc (scanLines ls skip st)).
Proof.
  intros HP. induction ls as [| l ls IH]; intros skip st Hst; [exact Hst |].
  rewrite scanLines_cons.
  destruct skip as [| k]; [| now apply IH]. cbv zeta.
  destruct (isDecoratorLine (trim l)).
  - destruct (opensColumnMeta (trim l)).
    + destruct (scanColumnMeta (l :: ls) [] 0) as [meta adv]. now apply IH.
    + now apply IH.
  - destruct (fieldOfLine (trim l) st) as [f |] eqn:Hf; [| now apply IH].
    apply IH. simpl. apply Forall_app. split; auto.
    constructor; eauto.
Qed.

Lemma parsed_optional_is_nullable s e f :
  parseEntity s = Some e -> In f (fields e) ->
  optional f =
    rx_test nullable_re
      (orEmpty (rawColumnMeta f) ++ [LF] ++ join [LF] (decorators f)).
Proof.
  unfold parseEntity.
  destruct (rx_match class_re s) as [[whole [| [| c cn] cs]] |];
    try discriminate.
  intros H. injection H as <-. simpl. revert f. apply Forall_forall.
  apply scanLines_fields_inv; [| constructor].
  intros line st f. apply fieldOfLine_optional.
Qed.

End OptionalFlag.

(** C2. The flag the parser computes at a declaration written with the
    optional marker, [nick?: string;], and no nullable marker: the whole
    match that [/\?$/] is tested on ends with the semicolon, so the marker
    does not set the flag. *)
Theorem parseEntity_optional_marker_ignored :
  parseEntity Samples.nickSource
  = Some (mkParsedEntity (T "UserEntity") (T "User")
            [mkField (T "nick") (T "string") false [] None]).
Proof. vm_compute. reflexivity. Qed.

(** * The validators of the request DTO *)

(** What the generator emits: [getValidatorDecorators] is called with the
    negation of [isRequired]. *)
Lemma docFieldStep_optional_validator opts f :
  In (T "@IsOptional()") (getValidatorDecorators f (negb (isRequired opts f)))
  <-> isRequired opts f = true.
Proof.
  unfold getValidatorDecorators.
  destruct (isRequired opts f); simpl.
  - split; auto. intros _. apply in_or_app. right. simpl. auto.
  - split; [| discriminate]. intros H. exfalso.
    repeat match type of H with
           | context [if ?b then _ else _] => destruct b
           end;
      simpl in H; intuition discriminate.
Qed.

(** C1. The request DTO of the scenario entity with [forceOptional] off:
    [title] is required and string-typed and gets [@IsOptional()] and no
    [@IsNotEmpty()]; [id] is not required and gets no [@IsOptional()]. *)
Theorem genDocDto_scenario_validators :
  map (isRequired (mkOptions false true)) (docRetained Samples.docParsed)
  = [false; true] /\
  genDocDtoLines Samples.docSource Samples.docParsed (mkOptions false true)
  = map T
      ["import { IsString, IsOptional, IsInt, IsNotEmpty, IsDate, IsEnum } from 'class-validator';";
       "import { Transform } from 'class-transformer';";
       "import { PartialType } from '@nestjs/mapped-types';";
       "import { CommonDto } from 'src/common/dto/common.dto';";
       "import { boolTransformer, dateTransformer } from 'src/common/util/transformer';";
       "";
       "export class DocDto extends CommonDto {";
       "  @IsInt()";
       "  id: number;";
       "";
       "  @IsString()";
       "  @IsOptional()";
       "  title: string;";
       "";
       "}";
       "";
       "export class DocReqDto extends PartialType(DocDto) {}"]%string.
Proof. split; vm_compute; reflexivity. Qed.

(** * The generators *)

Section Generators.

Lemma fold_left_push (A : Type) (step : list text -> A -> list text) :
  (forall lines x, step lines x = lines ++ step [] x) ->
  forall xs lines,
    fold_left step xs lines = lines ++ flat_map (step []) xs.
Proof.
  intros Hstep. induction xs as [| x xs IH]; intros lines; simpl.
  - now rewrite app_nil_r.
  - rewrite IH, Hstep, <- app_assoc. reflexivity.
Qed.

Lemma fold_left_indent (ds : list text) : forall lines,
  fold_left (fun ls d => ls ++ [T "  " ++ d]) ds lines
  = lines ++ map (fun d => T "  " ++ d) ds.
Proof.
  induction ds as [| d ds IH]; intros lines; simpl.
  - now rewrite app_nil_r.
  - rewrite IH, <- app_assoc. reflexivity.
Qed.

Lemma docFieldStep_push opts lines f :
  docFieldStep opts lines f = lines ++ docFieldStep opts [] f.
Proof.
  unfold docFieldStep. cbv zeta. rewrite !fold_left_indent.
  destruct (isTinyIntBoolean f), (isDateTyped (mapTsType f) f);
    rewrite <- ?app_assoc; reflexivity.
Qed.

Lemma resFieldStep_push lines f :
  resFieldStep lines f = lines ++ resFieldStep [] f.
Proof.
  unfold resFieldStep. cbv zeta.
  destruct (isRelation f), (isTinyIntBoolean f), (isAudit f),
    (isDateTyped (trim (tsType f)) f);
    simpl; rewrite <- ?app_assoc; reflexivity.
Qed.

Lemma genDocDtoLines_blocks src parsed opts :
  genDocDtoLines src parsed opts
  = docHeader src parsed
    ++ flat_map (docFieldLines opts) (docRetained parsed)
    ++ docFooter parsed.
Proof.
  unfold genDocDtoLines. cbv zeta.
  rewrite (fold_left_push (docFieldStep opts) (docFieldStep_push opts)).
  unfold docFooter, docFieldLines. rewrite <- !app_assoc. reflexivity.
Qed.

Lemma resFieldStep_spec f : resFieldStep [] f = resFieldLinesSpec f.
Proof.
  unfold resFieldStep, resFieldLinesSpec, resTransformsSpec,
    resDeclaredTypeSpec, resTypeStr, declLine. cbv zeta.
  destruct (isRelation f), (isTinyIntBoolean f), (isAudit f),
    (isDateTyped (trim (tsType f)) f); reflexivity.
Qed.

Lemma genResponseDtoLines_blocks src parsed :
  genResponseDtoLines src parsed
  = resHeader src parsed
    ++ flat_map resFieldLinesSpec (fields parsed)
    ++ [T "}"].
Proof.
  unfold genResponseDtoLines. cbv zeta.
  rewrite (fold_left_push resFieldStep resFieldStep_push).
  rewrite <- app_assoc. do 2 f_equal.
  apply flat_map_ext. intros f. apply resFieldStep_spec.
Qed.

End Generators.

(** C5. A generated primary key of string type in the request DTO, for
    both values of [forceOptional] and of [stripAudit]: the required flag
    of the loop is false, as the formula [not forceOptional] and [not
    optional] and [not isGeneratedPrimary] gives it, and the generated
    class marks the key as required all the same: it has [@IsNotEmpty()]
    and no [@IsOptional()], because the flag reaches
    [getValidatorDecorators] negated. *)
Theorem genDocDto_generated_primary_validators :
  parseEntity KeySamples.tokenSource = Some KeySamples.tokenParsed /\
  isGeneratedPrimary KeySamples.idField = true /\
  forall fo sa : bool,
    map (isRequired (mkOptions fo sa)) (docRetained KeySamples.tokenParsed)
    = [false] /\
    genDocDto KeySamples.tokenSource KeySamples.tokenParsed (mkOptions fo sa)
    = Samples.unlines
        ["import { IsString, IsOptional, IsInt, IsNotEmpty, IsDate, IsEnum } from 'class-validator';";
         "import { Transform } from 'class-transformer';";
         "import { PartialType } from '@nestjs/mapped-types';";
         "import { CommonDto } from 'src/common/dto/common.dto';";
         "import { boolTransformer, dateTransformer } from 'src/common/util/transformer';";
         "";
         "export class TokenDto extends CommonDto {";
         "  @IsString()";
         "  @IsNotEmpty()";
         "  id: string;";
         "";
         "}";
         "";
         "export class TokenReqDto extends PartialType(TokenDto) {}"]%string.
Proof.
  split; [vm_compute; reflexivity |].
  split; [vm_compute; reflexivity |].
  intros [] []; split; vm_compute; reflexivity.
Qed.


(** * Trimming *)

Section Trim.

Lemma dropWhile_split p l :
  exists pre, l = pre ++ dropWhile p l /\ forallb p pre = true /\
              class_at p (dropWhile p l) = false.
Proof.
  induction l as [| c l IH]; simpl.
  - exists []. auto.
  - destruct (p c) eqn:Hc.
    + destruct IH as (pre & Hl & Hp & Hd). exists (c :: pre). simpl.
      rewrite Hc, Hp, <- Hl. auto.
    + exists []. simpl. auto.
Qed.

Lemma dropWhile_fixed p l : class_at p l = false -> dropWhile p l = l.
Proof. destruct l as [| c l]; simpl; auto. now intros ->. Qed.

Lemma class_at_app p l l' :
  l <> [] -> class_at p (l ++ l') = class_at p l.
Proof. destruct l; simpl; congruence. Qed.

Lemma trim_fixed t :
  class_at is_space t = false -> class_at is_space (rev t) = false ->
  trim t = t.
Proof.
  intros H1 H2. unfold trim.
  rewrite (dropWhile_fixed _ _ H1), (dropWhile_fixed _ _ H2).
  apply rev_involutive.
Qed.

Lemma trim_shape s :
  class_at is_space (trim s) = false /\
  class_at is_space (rev (trim s)) = false.
Proof.
  unfold trim.
  destruct (dropWhile_split is_space s) as (p1 & _ & _ & Hd).
  set (d := dropWhile is_space s) in *.
  destruct (dropWhile_split is_space (rev d)) as (p2 & Hr & _ & Hr').
  set (r := dropWhile is_space (rev d)) in *.
  rewrite rev_involutive. split; auto.
  destruct r as [| c r]; auto.
  apply (f_equal (@rev ascii)) in Hr.
  rewrite rev_involutive, rev_app_distr in Hr.
  rewrite Hr in Hd. rewrite class_at_app in Hd; auto.
  simpl. intros E. apply app_eq_nil in E. destruct E. discriminate.
Qed.

Lemma trim_idempotent s : trim (trim s) = trim s.
Proof. destruct (trim_shape s). now apply trim_fixed. Qed.

Lemma dropWhile_length p l : length (dropWhile p l) <= length l.
Proof.
  induction l as [| c l IH]; simpl; auto. destruct (p c); simpl; lia.
Qed.

Lemma trim_length s : length (trim s) <= length s.
Proof.
  unfold trim. rewrite length_rev.
  etransitivity; [apply dropWhile_length |]. rewrite length_rev.
  apply dropWhile_length.
Qed.

End Trim.

(** * The type resolver *)

Section TypeResolver.

Lemma word_char_facts c :
  is_word c = true ->
  is_space c = false /\ is_dot c = true /\
  Ascii.eqb "]" c = false /\ Ascii.eqb ">" c = false /\
  Ascii.eqb "<" c = false.
Proof.
  destruct c as [[] [] [] [] [] [] [] []]; vm_compute;
    intros H; try discriminate H; auto.
Qed.

Lemma array_generic_inv b w a cs :
  matches array_generic_re b w a cs ->
  exists g, w = T "Array<" ++ g ++ T ">" /\ cs = [g] /\ g <> [] /\
            forallb is_dot g = true /\ b = [] /\ a = [].
Proof.
  unfold array_generic_re. cbn [RSeqs]. intros H.
  apply matches_seq_inv in H. destruct H as (w1 & r1 & c1 & d1 & -> & -> & H1 & H).
  apply matches_bol_inv in H1. destruct H1 as (-> & -> & ->).
  apply matches_seq_inv in H. destruct H as (w2 & r2 & c2 & d2 & -> & -> & H2 & H).
  apply matches_lit_inv in H2. destruct H2 as [-> ->].
  apply matches_seq_inv in H. destruct H as (w3 & r3 & c3 & d3 & -> & -> & H3 & H).
  apply matches_group_inv in H3. destruct H3 as (c4 & -> & H3).
  apply matches_plus_inv in H3. destruct H3 as (Hne & Hdot & ->).
  apply matches_seq_inv in H. destruct H as (w5 & r5 & c5 & d5 & -> & -> & H5 & H).
  apply matches_lit_inv in H5. destruct H5 as [-> ->].
  apply matches_eol_inv in H. destruct H as (-> & -> & ->).
  exists w3. rewrite !app_nil_r. simpl. repeat split; auto.
Qed.

Lemma array_generic_intro g :
  g <> [] -> forallb is_dot g = true ->
  matches array_generic_re [] (T "Array<" ++ g ++ T ">") [] [g].
Proof.
  intros Hne Hdot. unfold array_generic_re. cbn [RSeqs].
  apply matches_seq with (w1 := []) (cs1 := [])
    (w2 := T "Array<" ++ g ++ T ">") (cs2 := [g]);
    [apply MBol | | reflexivity | reflexivity].
  apply matches_seq with (w1 := T "Array<") (cs1 := [])
    (w2 := g ++ T ">") (cs2 := [g]);
    [apply matches_lit | | reflexivity | reflexivity].
  apply matches_seq with (w1 := g) (cs1 := [g]) (w2 := T ">") (cs2 := []);
    [ | | reflexivity | reflexivity].
  - apply (MGroup (r := RPlus is_dot) (cs := [])). now apply matches_plus.
  - apply matches_seq with (w1 := T ">") (cs1 := []) (w2 := []) (cs2 := []);
      [apply matches_lit | apply MEol | reflexivity | reflexivity].
Qed.

Lemma array_generic_match t whole cs :
  rx_match array_generic_re t = Some (whole, cs) ->
  exists g, t = T "Array<" ++ g ++ T ">" /\ cs = [g] /\ g <> [] /\
            forallb is_dot g = true.
Proof.
  intros H. apply rx_match_some in H.
  destruct H as (pre & post & Heq & Ho & _).
  apply array_generic_inv in Ho.
  destruct Ho as (g & -> & -> & Hne & Hdot & Hb & ->).
  rewrite app_nil_r in Hb.
  assert (pre = []) by (destruct pre; auto; simpl in Hb;
                        apply app_eq_nil in Hb; destruct Hb; discriminate).
  subst pre. rewrite app_nil_r in Heq. simpl in Heq. exists g. auto.
Qed.

Lemma array_generic_wrapped g :
  g <> [] -> forallb is_dot g = true ->
  exists whole,
    rx_match array_generic_re (T "Array<" ++ g ++ T ">") = Some (whole, [g]).
Proof.
  intros Hne Hdot.
  destruct (rx_match array_generic_re (T "Array<" ++ g ++ T ">"))
    as [[whole cs] |] eqn:Hm.
  - apply array_generic_match in Hm.
    destruct Hm as (g' & Heq & -> & _). exists whole.
    apply app_inv_head in Heq. apply app_inv_tail in Heq. now subst.
  - exfalso.
    apply (@rx_match_none _ _ Hm []
             (T "Array<" ++ g ++ T ">") [] [g]).
    + now rewrite app_nil_r.
    + now apply array_generic_intro.
Qed.

Lemma endsWith_app p s : endsWith p (s ++ p) = true.
Proof.
  unfold endsWith. rewrite rev_app_distr.
  induction (rev p) as [| c l IH]; simpl; auto.
  now rewrite Ascii.eqb_refl.
Qed.

Lemma endsWith_length p s : endsWith p s = true -> length p <= length s.
Proof.
  unfold endsWith. rewrite <- (length_rev p), <- (length_rev s).
  generalize (rev s). induction (rev p) as [| c l IH]; intros [| d r]; simpl;
    try lia; try discriminate.
  intros H. apply andb_prop in H. destruct H as [_ H]. apply IH in H. lia.
Qed.

Lemma dropLast2_app s : dropLast2 (s ++ T "[]") = s.
Proof.
  unfold dropLast2. rewrite length_app. simpl.
  replace (length s + 2 - 2) with (length s + 0) by lia.
  rewrite firstn_app_2. simpl. apply app_nil_r.
Qed.

Lemma dropLast2_length t : 2 <= length t -> length (dropLast2 t) < length t.
Proof. intros H. unfold dropLast2. rewrite length_firstn. lia. Qed.

(** The length of the text is enough fuel. *)
Lemma toRelationResDtoTypeFuel_enough : forall n m t,
  length t <= n -> length t <= m ->
  toRelationResDtoTypeFuel n t = toRelationResDtoTypeFuel m t.
Proof.
  assert (Hnil : forall k, toRelationResDtoTypeFuel k [] = []).
  { intros [| k]; reflexivity. }
  induction n as [| n IH]; intros m t Hn Hm.
  - destruct t; [| simpl in Hn; lia]. now rewrite !Hnil.
  - destruct m as [| m].
    + destruct t; [| simpl in Hm; lia]. now rewrite !Hnil.
    + cbn [toRelationResDtoTypeFuel]. pose proof (trim_length t) as Ht.
      destruct (rx_match array_generic_re (trim t)) as [[whole cs] |] eqn:Hr.
      * apply array_generic_match in Hr.
        destruct Hr as (g & Heq & -> & _).
        assert (length g < length (trim t)).
        { rewrite Heq, !length_app. simpl. lia. }
        f_equal. apply IH; lia.
      * destruct (endsWith (T "[]") (trim t)) eqn:He; auto.
        apply endsWith_length in He. simpl in He.
        pose proof (dropLast2_length _ He).
        pose proof (trim_length (dropLast2 (trim t))).
        f_equal. apply IH; lia.
Qed.

(** The recursion of the source, one step unfolded. *)
Lemma toRelationResDtoType_eq tsType :
  toRelationResDtoType tsType =
  let t := trim tsType in
  match rx_match array_generic_re t with
  | Some (_, inner :: _) => toRelationResDtoType inner ++ T "[]"
  | _ =>
      if endsWith (T "[]") t
      then toRelationResDtoType (trim (dropLast2 t)) ++ T "[]"
      else rx_replace entity_end_re t (T "ResDto")
  end.
Proof.
  unfold toRelationResDtoType. cbv zeta.
  destruct tsType as [| c r] eqn:E; [reflexivity |].
  rewrite <- E. assert (Hlen : length tsType = S (length r)) by now subst.
  rewrite Hlen. cbn [toRelationResDtoTypeFuel].
  pose proof (trim_length tsType) as Ht.
  destruct (rx_match array_generic_re (trim tsType)) as [[whole cs] |] eqn:Hr.
  - apply array_generic_match in Hr. destruct Hr as (g & Heq & -> & _).
    assert (length g < length (trim tsType)).
    { rewrite Heq, !length_app. simpl. lia. }
    f_equal. apply toRelationResDtoTypeFuel_enough; lia.
  - destruct (endsWith (T "[]") (trim tsType)) eqn:He; auto.
    apply endsWith_length in He. simpl in He.
    pose proof (dropLast2_length _ He).
    pose proof (trim_length (dropLast2 (trim tsType))).
    f_equal. apply toRelationResDtoTypeFuel_enough; lia.
Qed.

Lemma forallb_rev (p : ascii -> bool) l :
  forallb p l = true -> forallb p (rev l) = true.
Proof.
  rewrite !forallb_forall. intros H x Hx. apply H. now apply in_rev.
Qed.

Lemma word_first_not_space l :
  forallb is_word l = true -> class_at is_space l = false.
Proof.
  destruct l as [| c l]; simpl; auto. intros H. apply andb_prop in H.
  destruct H as [H _]. now apply word_char_facts in H.
Qed.

Lemma word_tidy base :
  base <> [] -> forallb is_word base = true -> tidy base.
Proof.
  intros Hne Hw. repeat split; auto.
  - now apply word_first_not_space.
  - apply word_first_not_space. now apply forallb_rev.
  - rewrite forallb_forall in *. intros c Hc. apply Hw in Hc.
    now apply word_char_facts in Hc.
Qed.

Lemma tidy_suffix t : tidy t -> tidy (t ++ T "[]").
Proof.
  intros (Hne & H1 & H2 & Hd). repeat split.
  - destruct t; discriminate.
  - now rewrite class_at_app.
  - now rewrite rev_app_distr.
  - rewrite forallb_app, Hd. reflexivity.
Qed.

Lemma tidy_generic t : tidy t -> tidy (T "Array<" ++ t ++ T ">").
Proof.
  intros (Hne & H1 & H2 & Hd). repeat split.
  - discriminate.
  - rewrite !rev_app_distr. reflexivity.
  - rewrite !forallb_app, Hd. reflexivity.
Qed.

Lemma tidy_wrap ks base : tidy base -> tidy (wrap ks base).
Proof.
  intros Hb. induction ks as [| [|] ks IH]; cbn [wrap]; auto.
  - now apply tidy_suffix.
  - now apply tidy_generic.
Qed.

Lemma tidy_trim t : tidy t -> trim t = t.
Proof. intros (_ & H1 & H2 & _). now apply trim_fixed. Qed.

(** One step of the resolver strips one wrapper. *)
Lemma toRelationResDtoType_suffix t :
  tidy t ->
  toRelationResDtoType (t ++ T "[]") = toRelationResDtoType t ++ T "[]".
Proof.
  intros Ht. rewrite (toRelationResDtoType_eq (t ++ T "[]")). cbv zeta.
  rewrite (tidy_trim (tidy_suffix Ht)).
  destruct (rx_match array_generic_re (t ++ T "[]")) as [[whole cs] |] eqn:Hr.
  - exfalso. apply array_generic_match in Hr. destruct Hr as (g & Heq & _).
    apply (f_equal (@rev ascii)) in Heq. rewrite !rev_app_distr in Heq.
    simpl in Heq. discriminate.
  - rewrite endsWith_app, dropLast2_app, (tidy_trim Ht). reflexivity.
Qed.

Lemma toRelationResDtoType_generic t :
  tidy t ->
  toRelationResDtoType (T "Array<" ++ t ++ T ">")
  = toRelationResDtoType t ++ T "[]".
Proof.
  intros Ht. rewrite (toRelationResDtoType_eq (T "Array<" ++ t ++ T ">")).
  cbv zeta. rewrite (tidy_trim (tidy_generic Ht)).
  destruct Ht as (Hne & _ & _ & Hd).
  destruct (array_generic_wrapped Hne Hd) as (whole & ->). reflexivity.
Qed.

Lemma toRelationResDtoType_word base :
  forallb is_word base = true ->
  toRelationResDtoType base = rx_replace entity_end_re base (T "ResDto").
Proof.
  intros Hw. rewrite toRelationResDtoType_eq. cbv zeta.
  assert (Htrim : trim base = base).
  { destruct base as [| c l] eqn:E; [reflexivity |]. rewrite <- E in *.
    apply tidy_trim, word_tidy; auto. subst. discriminate. }
  rewrite Htrim.
  destruct (rx_match array_generic_re base) as [[whole cs] |] eqn:Hr.
  - exfalso. apply array_generic_match in Hr. destruct Hr as (g & -> & _).
    rewrite forallb_app in Hw. discriminate.
  - destruct (endsWith (T "[]") base) eqn:He; auto. exfalso.
    unfold endsWith in He. apply forallb_rev in Hw.
    change (rev (T "[]")) with ["]"; "["]%char in He.
    destruct (rev base) as [| c l]; [discriminate |].
    cbn [startsWith forallb] in He, Hw. apply andb_prop in He, Hw.
    destruct He as [He _], Hw as [Hw _].
    apply word_char_facts in Hw. destruct Hw as (_ & _ & Hw & _).
    congruence.
Qed.

Lemma toRelationResDtoType_wrap ks base :
  base <> [] -> forallb is_word base = true ->
  toRelationResDtoType (wrap ks base)
  = rx_replace entity_end_re base (T "ResDto") ++ arraySuffix (length ks).
Proof.
  intros Hne Hw. pose proof (word_tidy Hne Hw) as Hb.
  induction ks as [| [|] ks IH]; cbn [wrap length arraySuffix].
  - rewrite app_nil_r. now apply toRelationResDtoType_word.
  - rewrite toRelationResDtoType_suffix by now apply tidy_wrap.
    now rewrite IH, <- app_assoc.
  - rewrite toRelationResDtoType_generic by now apply tidy_wrap.
    now rewrite IH, <- app_assoc.
Qed.

End TypeResolver.

(** C7. The three examples; one step of the resolver strips one wrapper
    of either kind; a name ending in [Entity] under [n] wrappers of one
    kind becomes the name with [ResDto] and [n] plain array suffixes; a
    name that does not end in [Entity] is returned unchanged. *)
Theorem toRelationResDtoType_wrappers :
  toRelationResDtoType (T "DocEntity") = T "DocResDto" /\
  toRelationResDtoType (T "DocEntity[]") = T "DocResDto[]" /\
  toRelationResDtoType (T "Array<DocEntity>") = T "DocResDto[]" /\
  (forall k ks x,
      forallb is_word x = true ->
      toRelationResDtoType (wrap (k :: ks) (x ++ T "Entity"))
      = toRelationResDtoType (wrap ks (x ++ T "Entity")) ++ T "[]") /\
  (forall k n x,
      forallb is_word x = true ->
      toRelationResDtoType (wrap (repeat k n) (x ++ T "Entity"))
      = x ++ T "ResDto" ++ arraySuffix n) /\
  (forall x,
      forallb is_word x = true -> (forall y, x <> y ++ T "Entity") ->
      toRelationResDtoType x = x).
Proof.
  assert (Hbase : forall x, forallb is_word x = true ->
            x ++ T "Entity" <> [] /\
            forallb is_word (x ++ T "Entity") = true).
  { intros x Hx. split.
    - destruct x; discriminate.
    - rewrite forallb_app, Hx. reflexivity. }
  split; [vm_compute; reflexivity |].
  split; [vm_compute; reflexivity |].
  split; [vm_compute; reflexivity |].
  split; [| split].
  - intros k ks x Hx. destruct (Hbase x Hx) as [Hne Hw].
    pose proof (tidy_wrap ks (word_tidy Hne Hw)) as Ht.
    destruct k; cbn [wrap].
    + now apply toRelationResDtoType_suffix.
    + now apply toRelationResDtoType_generic.
  - intros k n x Hx. destruct (Hbase x Hx) as [Hne Hw].
    rewrite toRelationResDtoType_wrap by assumption.
    rewrite replace_entity_suffix, repeat_length, <- app_assoc. reflexivity.
  - intros x Hx Hno. rewrite toRelationResDtoType_word by assumption.
    now apply replace_entity_none.
Qed.

(** Witness of C7: [CommentEntity] under two generic wrappers, and the
    name [number]. *)
Lemma toRelationResDtoType_wrappers_witness :
  toRelationResDtoType (T "Array<Array<CommentEntity>>")
  = T "CommentResDto[][]" /\
  toRelationResDtoType (T "number") = T "number".
Proof.
  destruct toRelationResDtoType_wrappers as (_ & _ & _ & _ & Hn & Hu).
  split.
  - exact (Hn Generic 2 (T "Comment") eq_refl).
  - apply (Hu (T "number") eq_refl).
    intros y Hy. apply (f_equal (@rev ascii)) in Hy.
    rewrite rev_app_distr in Hy. simpl in Hy. discriminate.
Defined.

(** * Tinyint booleans *)

Section TinyInt.

Lemma matches_liti_inv l : forall b w a cs,
  matches (RLitI l) b w a cs -> map to_lower w = map to_lower l /\ cs = [].
Proof.
  induction l as [| c l IH]; intros b w a cs H; simpl in H.
  - inversion H; subst. auto.
  - apply matches_seq_inv in H.
    destruct H as (w1 & w2 & cs1 & cs2 & -> & -> & H1 & H2).
    apply matches_char_inv in H1. destruct H1 as (d & -> & Hd & ->).
    apply Ascii.eqb_eq in Hd.
    apply IH in H2. destruct H2 as [H2 ->]. simpl. rewrite H2, Hd. auto.
Qed.

Lemma colon_nocase c : to_lower c = to_lower ":" -> c = ":"%char.
Proof.
  destruct c as [[] [] [] [] [] [] [] []]; vm_compute; intros H;
    try discriminate H; reflexivity.
Qed.

Lemma tinyint_re_inv b w a cs :
  matches tinyint_re b w a cs ->
  exists kw ws1 ws2 q1 v q2,
    w = kw ++ ws1 ++ T ":" ++ ws2 ++ [q1] ++ v ++ [q2] /\
    map to_lower kw = T "type" /\
    forallb is_space ws1 = true /\ forallb is_space ws2 = true /\
    is_quote q1 = true /\ map to_lower v = T "tinyint" /\ is_quote q2 = true.
Proof.
  unfold tinyint_re. cbn [RSeqs]. intros H.
  apply matches_seq_inv in H. destruct H as (w1 & r1 & c1 & d1 & -> & -> & H1 & H).
  apply matches_liti_inv in H1. destruct H1 as [H1 _].
  apply matches_seq_inv in H. destruct H as (w2 & r2 & c2 & d2 & -> & -> & H2 & H).
  apply matches_star_inv in H2. destruct H2 as [H2 _].
  apply matches_seq_inv in H. destruct H as (w3 & r3 & c3 & d3 & -> & -> & H3 & H).
  apply matches_liti_inv in H3. destruct H3 as [H3 _].
  apply matches_seq_inv in H. destruct H as (w4 & r4 & c4 & d4 & -> & -> & H4 & H).
  apply matches_star_inv in H4. destruct H4 as [H4 _].
  apply matches_seq_inv in H. destruct H as (w5 & r5 & c5 & d5 & -> & -> & H5 & H).
  apply matches_char_inv in H5. destruct H5 as (q1 & -> & H5 & _).
  apply matches_seq_inv in H. destruct H as (w6 & r6 & c6 & d6 & -> & -> & H6 & H).
  apply matches_liti_inv in H6. destruct H6 as [H6 _].
  apply matches_char_inv in H. destruct H as (q2 & -> & H7 & _).
  destruct w3 as [| k [| ? ?]]; try discriminate H3.
  injection H3 as H3. apply colon_nocase in H3. subst k.
  exists w1, w2, w4, q1, w6, q2. repeat split; auto.
Qed.

Lemma width1_re_inv b w a cs :
  matches width1_re b w a cs ->
  exists ws1 ws2,
    w = T "width" ++ ws1 ++ T ":" ++ ws2 ++ T "1" /\
    forallb is_space ws1 = true /\ forallb is_space ws2 = true /\
    word_at a = false.
Proof.
  unfold width1_re. cbn [RSeqs]. intros H.
  apply matches_seq_inv in H. destruct H as (w1 & r1 & c1 & d1 & -> & -> & H1 & H).
  apply matches_lit_inv in H1. destruct H1 as [-> _].
  apply matches_seq_inv in H. destruct H as (w2 & r2 & c2 & d2 & -> & -> & H2 & H).
  apply matches_star_inv in H2. destruct H2 as [H2 _].
  apply matches_seq_inv in H. destruct H as (w3 & r3 & c3 & d3 & -> & -> & H3 & H).
  apply matches_lit_inv in H3. destruct H3 as [-> _].
  apply matches_seq_inv in H. destruct H as (w4 & r4 & c4 & d4 & -> & -> & H4 & H).
  apply matches_star_inv in H4. destruct H4 as [H4 _].
  apply matches_seq_inv in H. destruct H as (w5 & r5 & c5 & d5 & -> & -> & H5 & H).
  apply matches_lit_inv in H5. destruct H5 as [-> _].
  apply matches_wordb_inv in H. destruct H as (-> & Hx & _).
  exists w2, w4. rewrite app_nil_r. repeat split; auto.
  simpl in Hx. destruct (word_at a); [discriminate | reflexivity].
Qed.

Lemma matches_liti l : forall w b a,
  map to_lower w = map to_lower l -> matches (RLitI l) b w a [].
Proof.
  induction l as [| c l IH]; intros [| d w] b a H; try discriminate H.
  - constructor.
  - cbn [map] in H. injection H as Hd Hw. cbn [RLitI].
    apply (MSeq (r1 := RChar (eqb_nocase c)) (r2 := RLitI l) (w1 := [d])
                (w2 := w) (cs1 := []) (cs2 := [])).
    + constructor. unfold eqb_nocase. rewrite Hd. apply Ascii.eqb_refl.
    + now apply IH.
Qed.

Lemma tinyint_re_intro b kw ws1 ws2 q1 v q2 a :
  map to_lower kw = T "type" ->
  forallb is_space ws1 = true -> forallb is_space ws2 = true ->
  is_quote q1 = true -> map to_lower v = T "tinyint" -> is_quote q2 = true ->
  matches tinyint_re b
    (kw ++ ws1 ++ T ":" ++ ws2 ++ [q1] ++ v ++ [q2]) a [].
Proof.
  intros Hkw Hs1 Hs2 Hq1 Hv Hq2. unfold tinyint_re. cbn [RSeqs].
  eapply matches_seq with (cs1 := []) (cs2 := []);
    [apply matches_liti; rewrite Hkw; reflexivity | | reflexivity | reflexivity].
  eapply matches_seq with (cs1 := []) (cs2 := []);
    [apply MStar, Hs1 | | reflexivity | reflexivity].
  eapply matches_seq with (cs1 := []) (cs2 := []);
    [apply matches_liti; reflexivity | | reflexivity | reflexivity].
  eapply matches_seq with (cs1 := []) (cs2 := []);
    [apply MStar, Hs2 | | reflexivity | reflexivity].
  eapply matches_seq with (cs1 := []) (cs2 := []);
    [apply MChar, Hq1 | | reflexivity | reflexivity].
  eapply matches_seq with (w2 := [q2]) (cs1 := []) (cs2 := []);
    [apply matches_liti; rewrite Hv; reflexivity | | reflexivity | reflexivity].
  apply MChar, Hq2.
Qed.

Lemma width1_re_intro b ws1 ws2 a :
  forallb is_space ws1 = true -> forallb is_space ws2 = true ->
  word_at a = false ->
  matches width1_re b (T "width" ++ ws1 ++ T ":" ++ ws2 ++ T "1") a [].
Proof.
  intros Hs1 Hs2 Ha. unfold width1_re. cbn [RSeqs].
  eapply matches_seq with (cs1 := []) (cs2 := []);
    [apply matches_lit | | reflexivity | reflexivity].
  eapply matches_seq with (cs1 := []) (cs2 := []);
    [apply MStar, Hs1 | | reflexivity | reflexivity].
  eapply matches_seq with (cs1 := []) (cs2 := []);
    [apply matches_lit | | reflexivity | reflexivity].
  eapply matches_seq with (cs1 := []) (cs2 := []);
    [apply MStar, Hs2 | | reflexivity | reflexivity].
  eapply matches_seq with (w1 := T "1") (w2 := []) (cs1 := []) (cs2 := []);
    [apply matches_lit | | reflexivity | reflexivity].
  constructor. cbn [rev T list_ascii_of_string app word_at].
  rewrite Ha. reflexivity.
Qed.

Lemma column_re_test meta :
  rx_test column_re meta = true <-> mentionsColumn meta.
Proof.
  unfold column_re, mentionsColumn. split.
  - intros H. apply rx_test_true in H.
    destruct H as (pre & w & post & cs & Heq & Ho).
    apply matches_lit_inv in Ho. destruct Ho as [-> _]. eauto.
  - intros (pre & post & ->).
    apply (@rx_test_intro _ _ pre (T "@Column(") post []); [reflexivity |].
    apply matches_lit.
Qed.

Lemma tinyint_re_test meta :
  rx_test tinyint_re meta = true <-> mentionsTinyintType meta.
Proof.
  split.
  - intros Ht. apply rx_test_true in Ht.
    destruct Ht as (pre & w & post & cs & Heq & Ho).
    apply tinyint_re_inv in Ho.
    destruct Ho as (kw & ws1 & ws2 & q1 & v & q2 & -> & Hrest).
    exists pre, kw, ws1, ws2, q1, v, q2, post. split; auto.
    rewrite Heq, <- !app_assoc. reflexivity.
  - intros (pre & kw & ws1 & ws2 & q1 & v & q2 & post & -> & Hkw & Hs1 & Hs2
            & Hq1 & Hv & Hq2).
    apply (@rx_test_intro _ _ pre
             (kw ++ ws1 ++ T ":" ++ ws2 ++ [q1] ++ v ++ [q2]) post []).
    + now rewrite <- !app_assoc.
    + now apply tinyint_re_intro.
Qed.

Lemma width1_re_test meta :
  rx_test width1_re meta = true <-> mentionsWidthOne meta.
Proof.
  split.
  - intros Hw. apply rx_test_true in Hw.
    destruct Hw as (pre & w & post & cs & Heq & Ho).
    apply width1_re_inv in Ho. destruct Ho as (ws1 & ws2 & -> & Hrest).
    exists pre, ws1, ws2, post. split; auto.
    rewrite Heq, <- !app_assoc. reflexivity.
  - intros (pre & ws1 & ws2 & post & -> & Hs1 & Hs2 & Hw).
    apply (@rx_test_intro _ _ pre
             (T "width" ++ ws1 ++ T ":" ++ ws2 ++ T "1") post []).
    + now rewrite <- !app_assoc.
    + now apply width1_re_intro.
Qed.

Lemma isTinyIntBoolean_metadata f :
  isTinyIntBoolean f = true <->
  mentionsColumn (orEmpty (rawColumnMeta f)) /\
  mentionsTinyintType (orEmpty (rawColumnMeta f)) /\
  mentionsWidthOne (orEmpty (rawColumnMeta f)).
Proof.
  unfold isTinyIntBoolean. cbv zeta.
  rewrite !andb_true_iff, column_re_test, tinyint_re_test, width1_re_test.
  tauto.
Qed.

Lemma flat_map_block (A B : Type) (g : A -> list B) x xs :
  In x xs -> exists l1 l2, flat_map g xs = l1 ++ g x ++ l2.
Proof.
  induction xs as [| y xs IH]; simpl; [contradiction |].
  intros [-> | Hin].
  - exists [], (flat_map g xs). reflexivity.
  - destruct (IH Hin) as (l1 & l2 & ->). exists (g y ++ l1), l2.
    now rewrite <- app_assoc.
Qed.

Lemma isDecoratorRow_intro x :
  isDecoratorRow (T "  @" ++ x ++ T ")") = true.
Proof.
  unfold isDecoratorRow, endsWith. rewrite !rev_app_distr. reflexivity.
Qed.

Lemma validator_rows f required :
  forallb isDecoratorRow
    (map (fun d => T "  " ++ d) (getValidatorDecorators f required)) = true.
Proof.
  unfold getValidatorDecorators. cbv zeta.
  assert (He : isDecoratorRow
                 (T "  " ++ T "@IsEnum(" ++ trim (tsType f) ++ T ")") = true)
    by apply (isDecoratorRow_intro (T "IsEnum(" ++ trim (tsType f))).
  repeat match goal with
         | |- context [if ?b then _ else _] => destruct b
         end;
    rewrite ?map_app, ?forallb_app; cbn [map forallb]; rewrite ?He;
    reflexivity.
Qed.

Lemma docFieldLines_tiny opts f :
  isTinyIntBoolean f = true ->
  exists mid,
    docFieldLines opts f = boolTo :: mid ++ [declLine f (T "number"); []] /\
    forallb isDecoratorRow mid = true.
Proof.
  intros Ht. unfold docFieldLines, docFieldStep. cbv zeta.
  rewrite Ht, fold_left_indent.
  exists ((if isDateTyped (mapTsType f) f then [dateTo] else [])
          ++ map (fun d => T "  " ++ d)
               (getValidatorDecorators f (negb (isRequired opts f)))).
  split.
  - destruct (isDateTyped (mapTsType f) f); cbn [app];
      rewrite <- ?app_assoc; reflexivity.
  - rewrite forallb_app, validator_rows.
    destruct (isDateTyped (mapTsType f) f); reflexivity.
Qed.

Lemma resFieldLines_tiny f :
  isTinyIntBoolean f = true -> isRelation f = false ->
  exists mid,
    resFieldLinesSpec f
    = boolFrom :: mid ++ [exposeLine; declLine f (T "boolean"); []] /\
    forallb isDecoratorRow mid = true.
Proof.
  intros Ht Hr. unfold resFieldLinesSpec, resTransformsSpec,
    resDeclaredTypeSpec. rewrite Ht, Hr.
  exists (if isDateTyped (trim (tsType f)) f && negb (isAudit f)
          then [dateFrom] else []).
  destruct (isDateTyped (trim (tsType f)) f && negb (isAudit f));
    cbn [app]; split; reflexivity.
Qed.

End TinyInt.

(** C8, as amended.  [isTinyIntBoolean] holds exactly when the column
    metadata text has [@Column(] somewhere, has somewhere the letters
    [type] in any case, a colon and a quoted [tinyint] in any case, and
    has somewhere the letters [width], a colon and the digit [1] with no
    word character after it; the patterns are not tied to whole
    attributes, so the metadata [subtype: 'tinyint', maxwidth: 1.5]
    satisfies them.  For such a field that is neither a relation nor an
    audit field, the text of the request DTO has the block of the field:
    the storage-to-semantic boolean transform, further decorator rows,
    and the declaration of type [number].  For such a field that is not a
    relation, the text of the response DTO has the block of the field:
    the inverse boolean transform, further decorator rows, the exposure
    marker and the declaration of type [boolean]. *)
Theorem isTinyIntBoolean_emission (f : Field) :
  (isTinyIntBoolean f = true <->
   mentionsColumn (orEmpty (rawColumnMeta f)) /\
   mentionsTinyintType (orEmpty (rawColumnMeta f)) /\
   mentionsWidthOne (orEmpty (rawColumnMeta f))) /\
  isTinyIntBoolean TinySamples.looseField = true /\
  (isTinyIntBoolean f = true -> isRelation f = false -> isAudit f = false ->
   forall src parsed opts,
     In f (fields parsed) ->
     exists l1 mid l2,
       genDocDto src parsed opts
       = join [LF]
           (l1 ++ (boolTo :: mid ++ [declLine f (T "number"); []]) ++ l2) /\
       forallb isDecoratorRow mid = true) /\
  (isTinyIntBoolean f = true -> isRelation f = false ->
   forall src parsed,
     In f (fields parsed) ->
     exists l1 mid l2,
       genResponseDto src parsed
       = join [LF]
           (l1 ++ (boolFrom :: mid
                     ++ [exposeLine; declLine f (T "boolean"); []]) ++ l2) /\
       forallb isDecoratorRow mid = true).
Proof.
  split; [apply isTinyIntBoolean_metadata |].
  split; [vm_compute; reflexivity |]. split.
  - intros H Hr Ha src parsed opts Hin.
    assert (Hret : In f (docRetained parsed)).
    { unfold docRetained. apply filter_In. now rewrite Hr, Ha. }
    destruct (@flat_map_block _ _ (docFieldLines opts) _ _ Hret) as (l1 & l2 & Hb).
    destruct (@docFieldLines_tiny opts f H) as (mid & Hm & Hrows).
    exists (docHeader src parsed ++ l1), mid, (l2 ++ docFooter parsed).
    split; [| exact Hrows]. unfold genDocDto.
    rewrite genDocDtoLines_blocks, Hb, Hm, <- !app_assoc. reflexivity.
  - intros H Hr src parsed Hin.
    destruct (@flat_map_block _ _ resFieldLinesSpec _ _ Hin) as (l1 & l2 & Hb).
    destruct (@resFieldLines_tiny f H Hr) as (mid & Hm & Hrows).
    exists (resHeader src parsed ++ l1), mid, (l2 ++ [T "}"]).
    split; [| exact Hrows]. unfold genResponseDto.
    rewrite genResponseDtoLines_blocks, Hb, Hm, <- !app_assoc. reflexivity.
Qed.

(** Witness of C8: a plain tinyint boolean column, in both generated
    texts. *)
Lemma isTinyIntBoolean_emission_witness :
  (exists l1 mid l2,
     genDocDto [] TinySamples.flagParsed (mkOptions false true)
     = join [LF]
         (l1 ++ (boolTo :: mid
                   ++ [declLine TinySamples.enabledField (T "number"); []])
             ++ l2) /\
     forallb isDecoratorRow mid = true) /\
  (exists l1 mid l2,
     genResponseDto [] TinySamples.flagParsed
     = join [LF]
         (l1 ++ (boolFrom :: mid
                   ++ [exposeLine;
                       declLine TinySamples.enabledField (T "boolean"); []])
             ++ l2) /\
     forallb isDecoratorRow mid = true).
Proof.
  destruct (isTinyIntBoolean_emission TinySamples.enabledField)
    as (_ & _ & Hdoc & Hres).
  split.
  - apply Hdoc; try (vm_compute; reflexivity).
    cbn [fields TinySamples.flagParsed In]. auto.
  - apply Hres; try (vm_compute; reflexivity).
    cbn [fields TinySamples.flagParsed In]. auto.
Defined.

Example parse_memberSource :
  parseEntity TinySamples.memberSource = Some TinySamples.memberParsed.
Proof. vm_compute. reflexivity. Qed.

(** Counterexample to C8 as stated: the tinyint boolean [active] of
    [MemberEntity] also carries [@JoinColumn]; the request DTO has no
    line for it and the response DTO declares it with the resolved
    relation type and without the transform. *)
Lemma tinyIntEmission_counterexample : ~ tinyIntEmissionAsStated.
Proof.
  intros Hc.
  destruct (Hc TinySamples.memberSource TinySamples.memberParsed
              (mkOptions false true) TinySamples.activeField) as [_ [Hb _]].
  - simpl. auto.
  - vm_compute. reflexivity.
  - vm_compute in Hb. intuition discriminate.
Qed.

(** * The line scan *)

Section LineScan.

Lemma matches_no_group r b w a cs :
  matches r b w a cs -> has_group r = false -> cs = [].
Proof.
  induction 1; simpl; intros Hg; auto; try discriminate.
  - apply orb_false_iff in Hg. destruct Hg as [H1 H2].
    now rewrite IHmatches1, IHmatches2.
  - apply orb_false_iff in Hg. destruct Hg as [H1 H2]. auto.
  - apply orb_false_iff in Hg. destruct Hg as [H1 H2]. auto.
Qed.

(** The property pattern closes two groups. *)
Lemma prop_re_caps b w a cs :
  matches prop_re b w a cs -> exists n ty, cs = [n; ty].
Proof.
  unfold prop_re. cbn [RSeqs]. intros H.
  apply matches_seq_inv in H. destruct H as (w1 & r1 & c1 & d1 & -> & -> & H1 & H).
  apply matches_no_group in H1; [| reflexivity]. subst c1.
  apply matches_seq_inv in H. destruct H as (w2 & r2 & c2 & d2 & -> & -> & H2 & H).
  apply matches_no_group in H2; [| reflexivity]. subst c2.
  apply matches_seq_inv in H. destruct H as (w3 & r3 & c3 & d3 & -> & -> & H3 & H).
  apply matches_group_inv in H3. destruct H3 as (c3' & -> & H3).
  apply matches_no_group in H3; [| reflexivity]. subst c3'.
  apply matches_seq_inv in H. destruct H as (w4 & r4 & c4 & d4 & -> & -> & H4 & H).
  apply matches_no_group in H4; [| reflexivity]. subst c4.
  apply matches_seq_inv in H. destruct H as (w5 & r5 & c5 & d5 & -> & -> & H5 & H).
  apply matches_no_group in H5; [| reflexivity]. subst c5.
  apply matches_seq_inv in H. destruct H as (w6 & r6 & c6 & d6 & -> & -> & H6 & H).
  apply matches_no_group in H6; [| reflexivity]. subst c6.
  apply matches_seq_inv in H. destruct H as (w7 & r7 & c7 & d7 & -> & -> & H7 & H).
  apply matches_group_inv in H7. destruct H7 as (c7' & -> & H7).
  apply matches_no_group in H7; [| reflexivity]. subst c7'.
  apply matches_no_group in H; [| reflexivity]. subst d7.
  simpl. eauto.
Qed.

(** A line yields a field exactly when it matches the property pattern;
    the field takes the decorator buffer and the pending metadata. *)
Lemma fieldOfLine_property line st :
  isPropertyLine line = true ->
  exists f, fieldOfLine line st = Some f /\
            decorators f = decoratorBuf st /\
            rawColumnMeta f = pendingColumnMeta st.
Proof.
  unfold isPropertyLine, fieldOfLine.
  destruct (rx_match prop_re line) as [[whole cs] |] eqn:Hm; [| discriminate].
  intros _. apply rx_match_some in Hm. destruct Hm as (pre & post & _ & Ho & _).
  apply prop_re_caps in Ho. destruct Ho as (n & ty & ->).
  eexists. split; [reflexivity |]. simpl. auto.
Qed.

Lemma fieldOfLine_not_property line st :
  isPropertyLine line = false -> fieldOfLine line st = None.
Proof.
  unfold isPropertyLine, fieldOfLine.
  destruct (rx_match prop_re line) as [[whole cs] |]; [discriminate | auto].
Qed.

(** A line that matches the property pattern does not start with the
    decorator marker. *)
Lemma prop_re_first b w a cs :
  matches prop_re b w a cs ->
  exists c w', w = c :: w' /\ Ascii.eqb "@" c = false.
Proof.
  unfold prop_re. cbn [RSeqs RAlts]. intros H.
  apply matches_seq_inv in H. destruct H as (w1 & r1 & c1 & d1 & -> & -> & H1 & H).
  apply matches_bol_inv in H1. destruct H1 as (-> & _ & _).
  apply matches_seq_inv in H. destruct H as (w2 & r2 & c2 & d2 & -> & -> & H2 & H).
  apply matches_seq_inv in H. destruct H as (w3 & r3 & c3 & d3 & -> & -> & H3 & H).
  apply matches_group_inv in H3. destruct H3 as (c3' & _ & H3).
  apply matches_seq_inv in H3. destruct H3 as (w4 & r4 & c4 & d4 & -> & _ & H4 & _).
  apply matches_char_inv in H4. destruct H4 as (c & -> & Hc & _).
  assert (Hat : Ascii.eqb "@" c = false).
  { destruct (Ascii.eqb "@" c) eqn:E; auto. apply Ascii.eqb_eq in E.
    subst c. discriminate Hc. }
  apply matches_opt_inv in H2. destruct H2 as [H2 | [-> _]].
  - apply matches_alt_inv in H2. destruct H2 as [H2 | H2];
      [| apply matches_alt_inv in H2; destruct H2 as [H2 | H2]];
      apply matches_lit_seq_inv in H2; destruct H2 as (x & ->);
      cbn [app T list_ascii_of_string]; eexists; eexists;
      (split; [reflexivity | reflexivity]).
  - cbn [app]. eexists; eexists; split; [reflexivity | exact Hat].
Qed.

Lemma property_line_not_decorator line :
  isPropertyLine line = true -> isDecoratorLine line = false.
Proof.
  unfold isPropertyLine, isDecoratorLine.
  destruct (rx_match prop_re line) as [[whole cs] |] eqn:Hm; [| discriminate].
  intros _. apply rx_match_some in Hm.
  destruct Hm as (pre & post & Heq & Ho & _).
  pose proof Ho as Ho'. unfold occurs_at, prop_re in Ho'. cbn [RSeqs] in Ho'.
  apply matches_seq_inv in Ho'.
  destruct Ho' as (w1 & r1 & c1 & d1 & _ & _ & H1 & _).
  apply matches_bol_inv in H1. destruct H1 as (_ & Hb & _).
  rewrite app_nil_r in Hb.
  assert (pre = []) by (destruct pre; auto; simpl in Hb;
                        apply app_eq_nil in Hb; destruct Hb; discriminate).
  subst pre. apply prop_re_first in Ho. destruct Ho as (c & w' & -> & Hc).
  subst line. cbn [app startsWith T list_ascii_of_string]. now rewrite Hc.
Qed.

(** The state of the scan enters a field only through its buffers. *)
Lemma fieldOfLine_buffers line st st' :
  decoratorBuf st = decoratorBuf st' ->
  pendingColumnMeta st = pendingColumnMeta st' ->
  fieldOfLine line st = fieldOfLine line st'.
Proof. unfold fieldOfLine. now intros -> ->. Qed.

(** The scan only adds fields. *)
Lemma scanLines_fields_prefix : forall ls skip st,
  exists fs, fieldsAcc (scanLines ls skip st) = fieldsAcc st ++ fs.
Proof.
  induction ls as [| l ls IH]; intros skip st.
  - exists []. simpl. now rewrite app_nil_r.
  - rewrite scanLines_cons. destruct skip as [| k]; [| apply IH]. cbv zeta.
    destruct (isDecoratorLine (trim l)).
    + destruct (opensColumnMeta (trim l)).
      * destruct (scanColumnMeta (l :: ls) [] 0) as [meta adv].
        destruct (IH (match adv with Some k => k | None => 0 end)
                    (mkScan (fieldsAcc st) (decoratorBuf st ++ [trim l])
                       (Some meta))) as (fs & ->).
        now exists fs.
      * destruct (IH 0 (mkScan (fieldsAcc st) (decoratorBuf st ++ [trim l])
                          (pendingColumnMeta st))) as (fs & ->).
        now exists fs.
    + destruct (fieldOfLine (trim l) st) as [f |]; [| apply IH].
      destruct (IH 0 (mkScan (fieldsAcc st ++ [f]) [] None)) as (fs & ->).
      simpl. exists (f :: fs). now rewrite <- app_assoc.
Qed.

Lemma visitedLines_cons l ls skip :
  visitedLines (l :: ls) skip =
  match skip with
  | S k => visitedLines ls k
  | O => l :: visitedLines ls (linesConsumed l ls)
  end.
Proof. reflexivity. Qed.

(** The first field the scan emits, from a state without fields: its
    decorators are the buffer and the decorator lines visited before the
    first visited property line. *)
Lemma scanLines_first_field : forall ls skip st pre p post,
  visitedLines ls skip = pre ++ p :: post ->
  Forall (fun l => isDecoratorLine (trim l) = true \/
                   isPropertyLine (trim l) = false) pre ->
  isDecoratorLine (trim p) = false ->
  isPropertyLine (trim p) = true ->
  fieldsAcc st = [] ->
  exists f fs,
    fieldsAcc (scanLines ls skip st) = f :: fs /\
    decorators f = decoratorBuf st ++ filter isDecoratorLine (map trim pre).
Proof.
  induction ls as [| l ls IH]; intros skip st pre p post Hv Hpre Hd Hp Hst.
  - destruct pre; discriminate Hv.
  - rewrite scanLines_cons. rewrite visitedLines_cons in Hv.
    destruct skip as [| k]; [| now apply (IH k st pre p post)]. cbv zeta.
    destruct pre as [| q pre].
    + cbn [app] in Hv. injection Hv as -> Hv. rewrite Hd.
      destruct (@fieldOfLine_property (trim p) st Hp) as (f & -> & Hdec & _).
      destruct (scanLines_fields_prefix ls 0
                  (mkScan (fieldsAcc st ++ [f]) [] None)) as (fs & ->).
      cbn [fieldsAcc]. rewrite Hst. cbn [app]. exists f, fs. split; auto.
      cbn [map filter]. now rewrite app_nil_r.
    + cbn [app] in Hv. injection Hv as -> Hv.
      inversion Hpre as [| ? ? Hq Hpre']; subst.
      unfold linesConsumed in Hv. cbn [map filter].
      destruct (isDecoratorLine (trim q)) eqn:Hdq.
      * cbn [andb] in Hv. destruct (opensColumnMeta (trim q)).
        -- destruct (scanColumnMeta (q :: ls) [] 0) as [meta adv].
           cbn [snd] in Hv.
           destruct (IH _ (mkScan (fieldsAcc st) (decoratorBuf st ++ [trim q])
                             (Some meta)) pre p post Hv Hpre' Hd Hp Hst)
             as (f & fs & -> & Hf).
           exists f, fs. split; auto. rewrite Hf. cbn [decoratorBuf].
           now rewrite <- app_assoc.
        -- destruct (IH _ (mkScan (fieldsAcc st) (decoratorBuf st ++ [trim q])
                             (pendingColumnMeta st)) pre p post Hv Hpre' Hd Hp Hst)
             as (f & fs & -> & Hf).
           exists f, fs. split; auto. rewrite Hf. cbn [decoratorBuf].
           now rewrite <- app_assoc.
      * cbn [andb] in Hv. destruct Hq as [Hq | Hq]; [discriminate |].
        rewrite (@fieldOfLine_not_property (trim q) st Hq).
        destruct (IH _ st pre p post Hv Hpre' Hd Hp Hst) as (f & fs & -> & Hf).
        exists f, fs. split; auto.
Qed.

Lemma parseEntity_fields s e :
  parseEntity s = Some e ->
  fields e = fieldsAcc (scanLines (splitLines s) 0 initScan).
Proof.
  unfold parseEntity.
  destruct (rx_match class_re s) as [[whole [| [| c cn] cs]] |];
    try discriminate.
  intros H. injection H as <-. reflexivity.
Qed.

End LineScan.

(** C9, as amended.  The decorators of the first field are, in order, the
    decorator lines that the scan visits before the first visited line
    that matches the property pattern: every decorator line before it
    (class-level ones included) except the continuation lines of a column
    metadata block of several lines, which the scan passes over.  The
    decorator buffer is cleared only when a field is emitted. *)
Theorem parseEntity_first_field_decorators
  (s : text) (e : ParsedEntity) (pre : list text) (p : text)
  (post : list text)
  (Hparse : parseEntity s = Some e)
  (Hvisit : visitedLines (splitLines s) 0 = pre ++ p :: post)
  (Hpre : Forall (fun l => isPropertyLine (trim l) = false) pre)
  (Hprop : isPropertyLine (trim p) = true) :
  exists f fs,
    fields e = f :: fs /\
    decorators f = filter isDecoratorLine (map trim pre).
Proof.
  rewrite (@parseEntity_fields s e Hparse).
  assert (Hpre' : Forall (fun l => isDecoratorLine (trim l) = true \/
                                   isPropertyLine (trim l) = false) pre).
  { eapply Forall_impl; [| exact Hpre]. simpl. auto. }
  destruct (@scanLines_first_field (splitLines s) 0 initScan pre p post
              Hvisit Hpre' (@property_line_not_decorator _ Hprop) Hprop
              eq_refl) as (f & fs & Hf & Hd).
  exists f, fs. split; auto.
Qed.

Lemma Forall_not_property (pre : list text) :
  forallb (fun l => negb (isPropertyLine (trim l))) pre = true ->
  Forall (fun l => isPropertyLine (trim l) = false) pre.
Proof.
  rewrite forallb_forall, Forall_forall. intros H l Hl.
  apply H in Hl. now apply negb_true_iff in Hl.
Qed.

Example parse_noteSource :
  parseEntity ScanSamples.noteSource = Some ScanSamples.noteParsed.
Proof. vm_compute. reflexivity. Qed.

(** Witness of C9: the class-level decorator of the scenario entity is
    the first decorator of [id]. *)
Lemma parseEntity_first_field_decorators_witness :
  exists f fs,
    fields Samples.docParsed = f :: fs /\
    decorators f = [T "@Entity('doc')"; T "@PrimaryGeneratedColumn()"].
Proof.
  apply (@parseEntity_first_field_decorators
           Samples.docSource Samples.docParsed
           (firstn 5 (splitLines Samples.docSource))
           (T "  id: number;")
           (skipn 6 (splitLines Samples.docSource))).
  - vm_compute. reflexivity.
  - vm_compute. reflexivity.
  - apply Forall_not_property. vm_compute. reflexivity.
  - vm_compute. reflexivity.
Defined.

(** Counterexample to C9 as stated: the line [@Index()] stands before
    the first property line of [NoteEntity], inside the parentheses of the
    column decorator, and is not among the decorators of [body]. *)
Lemma firstFieldDecorators_counterexample : ~ firstFieldDecoratorsAsStated.
Proof.
  intros Hc.
  destruct (Hc ScanSamples.noteSource ScanSamples.noteParsed
              (firstn 6 (splitLines ScanSamples.noteSource))
              (T "  body: string;")
              (skipn 7 (splitLines ScanSamples.noteSource)))
    as (f & fs & Hf & Hd).
  - vm_compute. reflexivity.
  - vm_compute. reflexivity.
  - apply Forall_not_property. vm_compute. reflexivity.
  - vm_compute. reflexivity.
  - injection Hf as <- _. vm_compute in Hd. discriminate Hd.
Qed.

(** * Texts with two classes: the fields *)

Section TwoClassesFields.

Lemma endsCR_tail c s : endsWith [CR] (c :: s) = false -> endsWith [CR] s = false.
Proof.
  unfold endsWith. cbn [rev]. destruct (rev s) as [| d r]; [reflexivity |].
  cbn [app startsWith]. auto.
Qed.

Lemma splitLinesFrom_cons cur c s' :
  splitLinesFrom cur (c :: s') =
  if Ascii.eqb c LF then rev cur :: splitLinesFrom [] s'
  else
    match s' with
    | d :: s'' =>
        if Ascii.eqb c CR && Ascii.eqb d LF
        then rev cur :: splitLinesFrom [] s''
        else splitLinesFrom (c :: cur) s'
    | [] => splitLinesFrom (c :: cur) s'
    end.
Proof. reflexivity. Qed.

Lemma splitLinesFrom_app_len s2 : forall n s1 cur,
  length s1 <= n -> endsWith [CR] s1 = false ->
  splitLinesFrom cur (s1 ++ LF :: s2)
  = splitLinesFrom cur s1 ++ splitLinesFrom [] s2.
Proof.
  induction n as [| n IH]; intros s1 cur Hlen Hcr.
  - destruct s1; [| simpl in Hlen; lia].
    cbn [app]. rewrite splitLinesFrom_cons. reflexivity.
  - destruct s1 as [| c s1].
    { cbn [app]. rewrite splitLinesFrom_cons. reflexivity. }
    pose proof (endsCR_tail _ _ Hcr) as Htail.
    cbn [length] in Hlen.
    cbn [app]. rewrite !splitLinesFrom_cons.
    destruct (Ascii.eqb c LF) eqn:Hc.
    + rewrite IH by (auto; lia). reflexivity.
    + destruct s1 as [| d s1].
      * cbn [app]. rewrite Ascii.eqb_refl, andb_true_r.
        destruct (Ascii.eqb c CR) eqn:Hcr'.
        -- apply Ascii.eqb_eq in Hcr'. subst c. discriminate Hcr.
        -- rewrite splitLinesFrom_cons. reflexivity.
      * cbn [app]. destruct (Ascii.eqb c CR && Ascii.eqb d LF) eqn:Hcd.
        -- pose proof (endsCR_tail _ _ Htail) as Htail2.
           cbn [length] in Hlen.
           rewrite IH by (auto; lia). reflexivity.
        -- change (d :: s1 ++ LF :: s2) with ((d :: s1) ++ LF :: s2).
           rewrite IH by (auto; lia). reflexivity.
Qed.

Lemma splitLines_app s1 s2 :
  endsWith [CR] s1 = false ->
  splitLines (s1 ++ [LF] ++ s2) = splitLines s1 ++ splitLines s2.
Proof.
  intros H. unfold splitLines. cbn [app].
  now apply (@splitLinesFrom_app_len s2 (length s1) s1 []).
Qed.

Lemma scanColumnMeta_app l2 : forall ls meta depth m k,
  scanColumnMeta ls meta depth = (m, Some k) ->
  scanColumnMeta (ls ++ l2) meta depth = (m, Some k).
Proof.
  induction ls as [| l ls IH]; intros meta depth m k H; simpl in *.
  - discriminate.
  - destruct (_ <=? 0)%Z; auto.
    destruct (scanColumnMeta ls _ _) as [m' adv] eqn:Hs.
    destruct adv as [k' |]; simpl in H; [| discriminate].
    injection H as <- <-. now rewrite (IH _ _ _ _ Hs).
Qed.

(** The scan of two blocks of lines is the scan of the second from the
    state the first leaves, when the blocks of the first are closed. *)
Lemma scanLines_app l2 : forall l1 skip st,
  blocksClosed l1 skip = true ->
  scanLines (l1 ++ l2) skip st = scanLines l2 0 (scanLines l1 skip st).
Proof.
  induction l1 as [| l l1 IH]; intros skip st Hc.
  - simpl in Hc. apply Nat.eqb_eq in Hc. now subst.
  - cbn [app]. rewrite !scanLines_cons. cbn [blocksClosed] in Hc.
    destruct skip as [| k]; [| now apply IH]. cbv zeta.
    destruct (isDecoratorLine (trim l)); cbn [andb] in Hc.
    + destruct (opensColumnMeta (trim l)).
      * destruct (scanColumnMeta (l :: l1) [] 0) as [meta adv] eqn:Hs.
        simpl in Hc. destruct adv as [k |]; [| discriminate].
        change (l :: l1 ++ l2) with ((l :: l1) ++ l2).
        rewrite (@scanColumnMeta_app l2 _ _ _ _ _ Hs). now apply IH.
      * now apply IH.
    + destruct (fieldOfLine (trim l) st); now apply IH.
Qed.

(** Fields already emitted stay in front of the fields a scan adds. *)
Lemma scanLines_frame F : forall ls skip fs buf pend,
  fieldsAcc (scanLines ls skip (mkScan (F ++ fs) buf pend))
  = F ++ fieldsAcc (scanLines ls skip (mkScan fs buf pend)).
Proof.
  induction ls as [| l ls IH]; intros skip fs buf pend; [reflexivity |].
  rewrite !scanLines_cons. destruct skip as [| k]; [| apply IH]. cbv zeta.
  destruct (isDecoratorLine (trim l)).
  - destruct (opensColumnMeta (trim l)).
    + destruct (scanColumnMeta (l :: ls) [] 0) as [meta adv]. apply IH.
    + apply IH.
  - rewrite (@fieldOfLine_buffers (trim l) (mkScan (F ++ fs) buf pend)
               (mkScan fs buf pend) eq_refl eq_refl).
    destruct (fieldOfLine (trim l) (mkScan fs buf pend)) as [f |].
    + simpl. rewrite <- app_assoc. apply IH.
    + apply IH.
Qed.

Lemma splitLinesFrom_app_crlf s2 : forall n s1 cur,
  length s1 <= n ->
  splitLinesFrom cur (s1 ++ CR :: LF :: s2)
  = splitLinesFrom cur s1 ++ splitLinesFrom [] s2.
Proof.
  induction n as [| n IH]; intros s1 cur Hlen.
  - destruct s1; [| simpl in Hlen; lia].
    cbn [app]. rewrite splitLinesFrom_cons. reflexivity.
  - destruct s1 as [| c s1].
    { cbn [app]. rewrite splitLinesFrom_cons. reflexivity. }
    cbn [length] in Hlen.
    cbn [app]. rewrite !splitLinesFrom_cons.
    destruct (Ascii.eqb c LF) eqn:Hc.
    + rewrite IH by lia. reflexivity.
    + destruct s1 as [| d s1].
      * cbn [app]. replace (Ascii.eqb CR LF) with false by reflexivity.
        rewrite andb_false_r.
        change (CR :: LF :: s2) with ([] ++ CR :: LF :: s2).
        rewrite IH by (cbn [length]; lia). reflexivity.
      * cbn [app]. destruct (Ascii.eqb c CR && Ascii.eqb d LF) eqn:Hcd.
        -- cbn [length] in Hlen. rewrite IH by lia. reflexivity.
        -- change (d :: s1 ++ CR :: LF :: s2)
             with ((d :: s1) ++ CR :: LF :: s2).
           rewrite IH by lia. reflexivity.
Qed.

(** The lines of two texts joined by a line break are the lines of the
    first followed by the lines of the second. *)
Lemma splitLines_line_break s1 nl s2 :
  lineBreakAfter s1 nl ->
  splitLines (s1 ++ nl ++ s2) = splitLines s1 ++ splitLines s2.
Proof.
  intros [-> | [-> Hcr]].
  - unfold splitLines. cbn [app].
    now apply (@splitLinesFrom_app_crlf s2 (length s1) s1 []).
  - now apply splitLines_app.
Qed.

(** The lines visited in two blocks of lines, when the blocks of the
    first are closed. *)
Lemma visitedLines_app l2 : forall l1 skip,
  blocksClosed l1 skip = true ->
  visitedLines (l1 ++ l2) skip = visitedLines l1 skip ++ visitedLines l2 0.
Proof.
  induction l1 as [| l l1 IH]; intros skip Hc.
  - simpl in Hc. apply Nat.eqb_eq in Hc. now subst.
  - cbn [app]. rewrite !visitedLines_cons. cbn [blocksClosed] in Hc.
    destruct skip as [| k]; [| now apply IH].
    cbn [app]. f_equal. unfold linesConsumed.
    destruct (isDecoratorLine (trim l) && opensColumnMeta (trim l)).
    + destruct (scanColumnMeta (l :: l1) [] 0) as [meta adv] eqn:Hs.
      simpl in Hc. destruct adv as [k |]; [| discriminate].
      change (l :: l1 ++ l2) with ((l :: l1) ++ l2).
      rewrite (@scanColumnMeta_app l2 _ _ _ _ _ Hs). cbn [snd].
      now apply IH.
    + now apply IH.
Qed.

Lemma scan_two_blocks l1 l2 :
  blocksClosed l1 0 = true ->
  decoratorBuf (scanLines l1 0 initScan) = [] ->
  pendingColumnMeta (scanLines l1 0 initScan) = None ->
  fieldsAcc (scanLines (l1 ++ l2) 0 initScan)
  = fieldsAcc (scanLines l1 0 initScan)
    ++ fieldsAcc (scanLines l2 0 initScan).
Proof.
  intros Hc Hb Hp. rewrite (@scanLines_app _ _ 0 initScan Hc).
  destruct (scanLines l1 0 initScan) as [fs buf pend].
  simpl in *. subst buf pend.
  rewrite <- (app_nil_r fs) at 1. apply scanLines_frame.
Qed.

End TwoClassesFields.

(** * Texts with two classes: the class name *)

Section TwoClassesName.

Lemma stripPrefix_some p : forall t r, stripPrefix p t = Some r -> t = p ++ r.
Proof.
  induction p as [| x p IH]; intros t r H; simpl in H.
  - now injection H as ->.
  - destruct t as [| y t]; [discriminate |].
    destruct (Ascii.eqb x y) eqn:E; [| discriminate].
    apply Ascii.eqb_eq in E. subst y. simpl. f_equal. now apply IH.
Qed.

Lemma stripPrefix_app p r : stripPrefix p (p ++ r) = Some r.
Proof.
  induction p as [| x p IH]; simpl; auto. now rewrite Ascii.eqb_refl.
Qed.

Lemma stripPrefix_app_cases R p : forall t r,
  stripPrefix p (t ++ R) = Some r ->
  (exists t1, stripPrefix p t = Some t1 /\ r = t1 ++ R) \/
  (exists q, p = t ++ q /\ q <> []).
Proof.
  induction p as [| x p IH]; intros t r H.
  - left. exists t. simpl in *. injection H as <-. auto.
  - destruct t as [| y t].
    + right. exists (x :: p). split; [reflexivity | discriminate].
    + simpl in H. simpl. destruct (Ascii.eqb x y) eqn:E; [| discriminate].
      apply Ascii.eqb_eq in E. subst y.
      destruct (IH _ _ H) as [(t1 & Ht1 & ->) | (q & -> & Hq)].
      * left. eauto.
      * right. exists q. auto.
Qed.

Lemma dropWhile_app_stop p pre d :
  forallb p pre = true -> class_at p d = false ->
  dropWhile p (pre ++ d) = d.
Proof.
  induction pre as [| c pre IH]; simpl; intros Hp Hd.
  - now apply dropWhile_fixed.
  - apply andb_prop in Hp. destruct Hp as [-> Hp]. auto.
Qed.

Lemma afterSpaces_intro ws r :
  ws <> [] -> forallb is_space ws = true -> class_at is_space r = false ->
  afterSpaces (ws ++ r) = Some r.
Proof.
  intros Hne Hws Hr. destruct ws as [| c ws]; [contradiction |].
  simpl in *. apply andb_prop in Hws. destruct Hws as [-> Hws].
  now rewrite dropWhile_app_stop.
Qed.

Lemma afterSpaces_some t r :
  afterSpaces t = Some r ->
  exists ws, t = ws ++ r /\ ws <> [] /\ forallb is_space ws = true.
Proof.
  destruct t as [| c t]; simpl; [discriminate |].
  destruct (is_space c) eqn:Hc; [| discriminate].
  intros H. injection H as <-.
  destruct (dropWhile_split is_space t) as (pre & Ht & Hp & _).
  exists (c :: pre). simpl. rewrite Hc, Hp, <- Ht.
  repeat split; auto. discriminate.
Qed.

Lemma afterSpaces_app_cases R t r :
  afterSpaces (t ++ R) = Some r ->
  forallb is_space t = true \/
  (exists ws d, t = ws ++ d /\ forallb is_space ws = true /\ d <> [] /\
                afterSpaces t = Some d /\ r = d ++ R).
Proof.
  destruct t as [| c t]; [now left |].
  simpl. destruct (is_space c) eqn:Hc; [| discriminate].
  intros H. injection H as <-.
  destruct (dropWhile_split is_space t) as (pre & Ht & Hp & Hd).
  destruct (dropWhile is_space t) as [| x d] eqn:Hdw.
  - left. rewrite Ht, app_nil_r. simpl. exact Hp.
  - right. exists (c :: pre), (x :: d). simpl. rewrite Hc, Hp.
    repeat split; auto; try discriminate.
    + now f_equal.
    + rewrite Ht at 1. rewrite <- app_assoc.
      apply dropWhile_app_stop; auto.
Qed.

Lemma space_not_e c : is_space c = true -> negb (Ascii.eqb c "e") = true.
Proof.
  destruct c as [[] [] [] [] [] [] [] []]; vm_compute; intros H;
    try discriminate H; reflexivity.
Qed.

Lemma spaces_noE l : forallb is_space l = true -> noE l = true.
Proof.
  unfold noE. rewrite !forallb_forall. intros H c Hc.
  now apply space_not_e, H.
Qed.

Lemma word_at_app d R : d <> [] -> word_at (d ++ R) = word_at d.
Proof. destruct d; simpl; congruence. Qed.

(** A declaration starts at the head of the text. *)
Lemma declStartsAt_intro ws1 ws2 id post :
  ws1 <> [] -> forallb is_space ws1 = true ->
  ws2 <> [] -> forallb is_space ws2 = true ->
  id <> [] -> forallb is_word id = true ->
  declStartsAt (T "export" ++ ws1 ++ T "class" ++ ws2 ++ id ++ post) = true.
Proof.
  intros Hn1 Hs1 Hn2 Hs2 Hni Hwi. unfold declStartsAt.
  rewrite stripPrefix_app, afterSpaces_intro by (auto; reflexivity).
  rewrite stripPrefix_app, afterSpaces_intro; auto.
  - rewrite word_at_app by assumption.
    destruct id as [| c id]; [contradiction |]. simpl in *.
    apply andb_prop in Hwi. now destruct Hwi.
  - rewrite class_at_app by assumption. now apply word_first_not_space.
Qed.

Lemma declStartsAt_elim t :
  declStartsAt t = true ->
  exists ws1 ws2 id post,
    t = T "export" ++ ws1 ++ T "class" ++ ws2 ++ id ++ post /\
    ws1 <> [] /\ forallb is_space ws1 = true /\
    ws2 <> [] /\ forallb is_space ws2 = true /\
    id <> [] /\ forallb is_word id = true.
Proof.
  unfold declStartsAt.
  destruct (stripPrefix (T "export") t) as [t1 |] eqn:H1; [| discriminate].
  destruct (afterSpaces t1) as [t2 |] eqn:H2; [| discriminate].
  destruct (stripPrefix (T "class") t2) as [t3 |] eqn:H3; [| discriminate].
  destruct (afterSpaces t3) as [t4 |] eqn:H4; [| discriminate].
  intros Hw. apply stripPrefix_some in H1, H3.
  apply afterSpaces_some in H2, H4.
  destruct H2 as (ws1 & -> & Hn1 & Hs1), H4 as (ws2 & -> & Hn2 & Hs2).
  destruct t4 as [| c post]; [discriminate |]. simpl in Hw.
  exists ws1, ws2, [c], post. subst. simpl (forallb _ [c]). rewrite Hw.
  repeat split; auto. discriminate.
Qed.

(** A declaration that starts at the head of [t ++ R] and not at the head
    of [t] takes all of [t], which then has no [e] after its head. *)
Lemma declStartsAt_straddle t R :
  declStartsAt (t ++ R) = true -> declStartsAt t = false ->
  noE (tl t) = true.
Proof.
  unfold declStartsAt. intros HR Ht.
  destruct (stripPrefix (T "export") (t ++ R)) as [r1 |] eqn:H1;
    [| discriminate].
  apply stripPrefix_app_cases in H1.
  destruct H1 as [(t1 & H1 & ->) | (q & Hq & _)].
  2:{ destruct t as [| c t]; [reflexivity |]. simpl.
      injection Hq as _ Hq.
      assert (Hx : noE (t ++ q) = true) by (rewrite <- Hq; reflexivity).
      unfold noE in Hx. rewrite forallb_app in Hx.
      apply andb_prop in Hx. now destruct Hx. }
  rewrite H1 in Ht. apply stripPrefix_some in H1. subst t.
  assert (Hgoal : noE t1 = true -> noE (tl (T "export" ++ t1)) = true).
  { intros Hn. simpl. unfold noE in *. simpl. exact Hn. }
  apply Hgoal. clear Hgoal.
  destruct (afterSpaces (t1 ++ R)) as [r2 |] eqn:H2; [| discriminate].
  apply afterSpaces_app_cases in H2.
  destruct H2 as [Hsp | (ws1 & d1 & -> & Hs1 & Hd1 & H2 & ->)];
    [now apply spaces_noE |].
  rewrite H2 in Ht.
  assert (Hgoal : noE d1 = true -> noE (ws1 ++ d1) = true).
  { intros Hn. unfold noE in *. rewrite forallb_app, Hn, andb_true_r.
    now apply spaces_noE. }
  apply Hgoal. clear Hgoal.
  destruct (stripPrefix (T "class") (d1 ++ R)) as [r3 |] eqn:H3;
    [| discriminate].
  apply stripPrefix_app_cases in H3.
  destruct H3 as [(t3 & H3 & ->) | (q & Hq & _)].
  2:{ assert (Hx : noE (d1 ++ q) = true) by (rewrite <- Hq; reflexivity).
      unfold noE in Hx. rewrite forallb_app in Hx.
      apply andb_prop in Hx. now destruct Hx. }
  rewrite H3 in Ht. apply stripPrefix_some in H3. subst d1.
  assert (Hgoal : noE t3 = true -> noE (T "class" ++ t3) = true).
  { intros Hn. unfold noE in *. rewrite forallb_app, Hn. reflexivity. }
  apply Hgoal. clear Hgoal.
  destruct (afterSpaces (t3 ++ R)) as [r4 |] eqn:H4; [| discriminate].
  apply afterSpaces_app_cases in H4.
  destruct H4 as [Hsp | (ws2 & d2 & -> & Hs2 & Hd2 & H4 & ->)];
    [now apply spaces_noE |].
  rewrite H4 in Ht. rewrite word_at_app in HR by assumption. congruence.
Qed.

Lemma declStartsAt_head c b : declStartsAt (c :: b) = true -> c = "e"%char.
Proof.
  unfold declStartsAt. cbn [stripPrefix T list_ascii_of_string].
  destruct (Ascii.eqb "e" c) eqn:E; [| discriminate].
  intros _. apply Ascii.eqb_eq in E. auto.
Qed.

Lemma noE_no_decl l : noE l = true -> forall a b, l = a ++ b ->
  declStartsAt b = false.
Proof.
  intros Hn a b ->. unfold noE in Hn. rewrite forallb_app in Hn.
  apply andb_prop in Hn. destruct Hn as [_ Hb].
  destruct b as [| c b]; [reflexivity |]. cbn [forallb] in Hb.
  apply andb_prop in Hb. destruct Hb as [Hc _].
  destruct (declStartsAt (c :: b)) eqn:E; auto.
  apply declStartsAt_head in E. subst c. discriminate Hc.
Qed.

Lemma classDeclAt_starts s pre ws1 ws2 id post :
  classDeclAt s pre ws1 ws2 id post ->
  exists t, s = pre ++ t /\ declStartsAt t = true.
Proof.
  intros (-> & ? & ? & ? & ? & ? & ?). eexists. split; [reflexivity |].
  now apply declStartsAt_intro.
Qed.

Lemma starts_classDeclAt pre t :
  declStartsAt t = true ->
  exists ws1 ws2 id post, classDeclAt (pre ++ t) pre ws1 ws2 id post.
Proof.
  intros H. apply declStartsAt_elim in H.
  destruct H as (ws1 & ws2 & id & post & -> & H).
  exists ws1, ws2, id, post. split; auto.
Qed.

Lemma app_eq_length (A : Type) (a a' b b' : list A) :
  length a = length a' -> a ++ b = a' ++ b' -> a = a' /\ b = b'.
Proof.
  revert a'. induction a as [| x a IH]; intros [| y a'] Hl H;
    simpl in *; try discriminate; auto.
  injection H as -> H. injection Hl as Hl.
  destruct (IH _ Hl H) as [-> ->]. auto.
Qed.

(** The first declaration of [s1] is the first declaration of [s1]
    followed by a character that is not a word character and any text. *)
Lemma firstClassDecl_app s1 sep s2 id :
  is_word sep = false ->
  firstClassDecl s1 id -> firstClassDecl (s1 ++ sep :: s2) id.
Proof.
  intros Hsep (pre & ws1 & ws2 & post & Hd & Hw & Hl).
  exists pre, ws1, ws2, (post ++ sep :: s2). repeat split.
  - destruct Hd as (-> & _). now rewrite <- !app_assoc.
  - apply Hd.
  - apply Hd.
  - apply Hd.
  - apply Hd.
  - apply Hd.
  - apply Hd.
  - destruct post; [exact Hsep | exact Hw].
  - intros pre' ws1' ws2' id' post' Hd'.
    destruct (Nat.le_gt_cases (length pre) (length pre')) as [| Hlt]; auto.
    exfalso.
    apply classDeclAt_starts in Hd'. destruct Hd' as (t' & Heq' & Hs').
    pose proof Hd as Hd0. apply classDeclAt_starts in Hd0.
    destruct Hd0 as (t & Heq & Hs).
    (* [pre'] is a proper prefix of [pre] *)
    subst s1. rewrite <- app_assoc in Heq'.
    apply app_eq_app in Heq'.
    destruct Heq' as (x & [[-> ->] | [-> _]]);
      [| rewrite length_app in Hlt; lia].
    assert (Hx : x <> []).
    { intros ->. rewrite app_nil_r in Hlt. lia. }
    assert (Hno : declStartsAt (x ++ t) = false).
    { destruct (declStartsAt (x ++ t)) eqn:E; auto.
      apply (@starts_classDeclAt pre') in E.
      destruct E as (a1 & a2 & a3 & a4 & E).
      rewrite app_assoc in E. apply Hl in E.
      rewrite length_app in E. destruct x; [contradiction | simpl in E; lia]. }
    rewrite app_assoc in Hs'.
    pose proof (@declStartsAt_straddle _ _ Hs' Hno) as Hn.
    destruct x as [| c x]; [contradiction |]. cbn [app tl] in Hn.
    rewrite (@noE_no_decl _ Hn x t eq_refl) in Hs. discriminate.
Qed.

Lemma span_unique (p : ascii -> bool) : forall a a' x x',
  forallb p a = true -> forallb p a' = true ->
  class_at p x = false -> class_at p x' = false ->
  a ++ x = a' ++ x' -> a = a' /\ x = x'.
Proof.
  induction a as [| c a IH]; intros [| c' a'] x x' Ha Ha' Hx Hx' H;
    simpl in *; auto.
  - subst x. simpl in Hx. apply andb_prop in Ha'. destruct Ha'. congruence.
  - subst x'. simpl in Hx'. apply andb_prop in Ha. destruct Ha. congruence.
  - injection H as -> H. apply andb_prop in Ha, Ha'.
    destruct Ha as [_ Ha], Ha' as [_ Ha'].
    destruct (IH _ _ _ Ha Ha' Hx Hx' H) as [-> ->]. auto.
Qed.

Lemma firstClassDecl_unique s id id' :
  firstClassDecl s id -> firstClassDecl s id' -> id = id'.
Proof.
  intros (pre & ws1 & ws2 & post & Hd & Hw & Hl)
         (pre' & ws1' & ws2' & post' & Hd' & Hw' & Hl').
  pose proof (Hl _ _ _ _ _ Hd') as L1. pose proof (Hl' _ _ _ _ _ Hd) as L2.
  destruct Hd as (Hs & Hn1 & Hs1 & Hn2 & Hs2 & Hni & Hwi).
  destruct Hd' as (Hs' & Hn1' & Hs1' & Hn2' & Hs2' & Hni' & Hwi').
  rewrite Hs in Hs'.
  apply app_eq_length in Hs'; [| lia]. destruct Hs' as [_ H].
  apply app_inv_head in H.
  apply (span_unique is_space) in H; auto.
  destruct H as [_ H]. apply app_inv_head in H.
  apply (span_unique is_space) in H; auto;
    try (rewrite class_at_app by assumption; now apply word_first_not_space).
  destruct H as [_ H].
  apply (span_unique is_word) in H; auto.
  now destruct H.
Qed.

End TwoClassesName.

Section TwoClasses.

Lemma parseEntity_some_inv s e :
  parseEntity s = Some e ->
  firstClassDecl s (className e) /\
  baseName e = baseNameOf (className e) /\
  fields e = fieldsAcc (scanLines (splitLines s) 0 initScan).
Proof.
  pose proof (class_search s) as H. unfold parseEntity.
  destruct (rx_match class_re s) as [[whole cs] |]; [| discriminate].
  destruct H as (id & -> & Hne & Hfirst).
  destruct id as [| c id]; [contradiction |].
  intros He. injection He as <-. simpl. auto.
Qed.

Lemma parseEntity_first s id :
  firstClassDecl s id ->
  parseEntity s
  = Some (mkParsedEntity id (baseNameOf id)
            (fieldsAcc (scanLines (splitLines s) 0 initScan))).
Proof.
  intros Hf. pose proof (class_search s) as H. unfold parseEntity.
  destruct (rx_match class_re s) as [[whole cs] |].
  - destruct H as (id' & -> & Hne & Hfirst).
    rewrite (@firstClassDecl_unique s id' id Hfirst Hf) in *.
    destruct id as [| c id]; [contradiction | reflexivity].
  - exfalso. apply H. destruct Hf as (pre & ws1 & ws2 & post & Hd & _).
    red. eauto 10.
Qed.

End TwoClasses.

(** * Further properties of the code *)

(** ** Validators *)

Section ValidatorChoice.

Lemma text_eqb_eq a : forall b, text_eqb a b = true <-> a = b.
Proof.
  induction a as [| x a IH]; intros [| y b]; simpl; split; intros H;
    try discriminate; auto.
  - apply andb_prop in H. destruct H as [Hx Hab].
    apply Ascii.eqb_eq in Hx. apply IH in Hab. now subst.
  - injection H as -> ->. rewrite Ascii.eqb_refl. now apply IH.
Qed.

Lemma text_eqb_refl a : text_eqb a a = true.
Proof. now apply text_eqb_eq. Qed.

Lemma getValidatorDecorators_shape field required :
  getValidatorDecorators field required
  = typeValidators field
    ++ (if required
        then if text_eqb (removeSpaces (tsType field)) (T "string")
             then [T "@IsNotEmpty()"] else []
        else [T "@IsOptional()"]).
Proof.
  unfold getValidatorDecorators, typeValidators. cbv zeta.
  destruct required; cbn [negb andb].
  - destruct (text_eqb (removeSpaces (tsType field)) (T "string")) eqn:Es.
    + destruct (rx_test enum_wb_re _); reflexivity.
    + rewrite app_nil_r.
      destruct (rx_test enum_wb_re _); [reflexivity |].
      destruct (text_eqb _ (T "Date")); [reflexivity |].
      destruct (text_eqb _ (T "number")); [| reflexivity].
      destruct (rx_test int_re _); reflexivity.
  - destruct (rx_test enum_wb_re _); [reflexivity |].
    destruct (text_eqb _ (T "string")); [reflexivity |].
    destruct (text_eqb _ (T "Date")); [reflexivity |].
    destruct (text_eqb _ (T "number")); [| reflexivity].
    destruct (rx_test int_re _); reflexivity.
Qed.

Lemma typeValidators_not_flag field d :
  In d (typeValidators field) ->
  d <> T "@IsOptional()" /\ d <> T "@IsNotEmpty()".
Proof.
  unfold typeValidators. cbv zeta.
  repeat match goal with
         | |- context [if ?b then _ else _] => destruct b
         end;
    cbn [In]; intros H;
    repeat (destruct H as [H | H]; [subst d; split; discriminate |]);
    contradiction.
Qed.

End ValidatorChoice.

Lemma validator_flags (field : Field) (required : bool) :
  (In (T "@IsOptional()") (getValidatorDecorators field required)
   <-> required = false) /\
  (In (T "@IsNotEmpty()") (getValidatorDecorators field required)
   <-> required = true /\ removeSpaces (tsType field) = T "string") /\
  ~ (In (T "@IsOptional()") (getValidatorDecorators field required) /\
     In (T "@IsNotEmpty()") (getValidatorDecorators field required)) /\
  exists flags,
    getValidatorDecorators field required = typeValidators field ++ flags /\
    length (typeValidators field) <= 1 /\ length flags <= 1.
Proof.
  rewrite getValidatorDecorators_shape.
  assert (Ho : In (T "@IsOptional()") (typeValidators field) -> False).
  { intros H. apply typeValidators_not_flag in H. now destruct H. }
  assert (Hn : In (T "@IsNotEmpty()") (typeValidators field) -> False).
  { intros H. apply typeValidators_not_flag in H. now destruct H. }
  assert (Hlen : length (typeValidators field) <= 1).
  { unfold typeValidators. cbv zeta.
    repeat match goal with
           | |- context [if ?b then _ else _] => destruct b
           end; simpl; lia. }
  assert (Hd : T "@IsNotEmpty()" <> T "@IsOptional()") by discriminate.
  destruct required.
  - destruct (text_eqb (removeSpaces (tsType field)) (T "string")) eqn:Es.
    + apply text_eqb_eq in Es. rewrite !in_app_iff. cbn [In].
      repeat split; try tauto; try (intros; intuition congruence).
      eexists. split; [reflexivity |]. simpl. lia.
    + assert (Es' : removeSpaces (tsType field) <> T "string").
      { intros E. apply text_eqb_eq in E. congruence. }
      rewrite !in_app_iff. cbn [In].
      repeat split; try tauto; try (intros; intuition congruence).
      eexists. split; [reflexivity |]. simpl. lia.
  - rewrite !in_app_iff. cbn [In].
    repeat split; try tauto; try (intros; intuition congruence).
    eexists. split; [reflexivity |]. simpl. lia.
Qed.

(** X1. [getValidatorDecorators(field, required)] has [@IsOptional()]
    exactly when [required] is false, and [@IsNotEmpty()] exactly when
    [required] is true and the declared type, white space removed, is
    [string]; it never has both, and the two come after the validator of
    the type. *)
Theorem getValidatorDecorators_flags (field : Field) (required : bool) :
  (In (T "@IsOptional()") (getValidatorDecorators field required)
   <-> required = false) /\
  (In (T "@IsNotEmpty()") (getValidatorDecorators field required)
   <-> required = true /\ removeSpaces (tsType field) = T "string") /\
  ~ (In (T "@IsOptional()") (getValidatorDecorators field required) /\
     In (T "@IsNotEmpty()") (getValidatorDecorators field required)) /\
  exists flags,
    getValidatorDecorators field required = typeValidators field ++ flags /\
    length (typeValidators field) <= 1 /\ length flags <= 1.
Proof. apply validator_flags. Qed.

Section RequestBlock.

Lemma docFieldLines_shape opts f :
  docFieldLines opts f
  = (if isTinyIntBoolean f then [boolTo] else [])
    ++ (if isDateTyped (mapTsType f) f then [dateTo] else [])
    ++ map (fun d => T "  " ++ d)
         (getValidatorDecorators f (negb (isRequired opts f)))
    ++ [declLine f (if isTinyIntBoolean f then T "number" else mapTsType f);
        []].
Proof.
  unfold docFieldLines, docFieldStep, declLine. cbv zeta.
  rewrite fold_left_indent.
  destruct (isTinyIntBoolean f), (isDateTyped (mapTsType f) f);
    cbn [app]; rewrite <- ?app_assoc; reflexivity.
Qed.

Lemma declLine_last f ty : exists y, declLine f ty = y ++ T ";".
Proof.
  unfold declLine. exists (T "  " ++ name f ++ T ": " ++ ty).
  now rewrite <- !app_assoc.
Qed.

Lemma declLine_not_validator f ty d : declLine f ty <> T "  " ++ d ++ T ")".
Proof.
  destruct (declLine_last f ty) as (y & ->). intros H.
  apply (f_equal (@rev ascii)) in H. rewrite !rev_app_distr in H.
  discriminate H.
Qed.

Lemma in_map_indent x l :
  In (T "  " ++ x) (map (fun d => T "  " ++ d) l) <-> In x l.
Proof.
  rewrite in_map_iff. split.
  - intros (y & Hy & Hin). apply app_inv_head in Hy. now subst.
  - intros H. eauto.
Qed.

Lemma docFieldLines_in_validator opts f v :
  In (T "  " ++ (T "@Is" ++ v ++ T ")")) (docFieldLines opts f)
  <-> In (T "@Is" ++ v ++ T ")")
        (getValidatorDecorators f (negb (isRequired opts f))).
Proof.
  rewrite docFieldLines_shape, !in_app_iff, in_map_indent. cbn [In].
  split; [| tauto]. intros [H | [H | [H | [H | [H | []]]]]]; auto.
  - destruct (isTinyIntBoolean f); cbn [In] in H; [| contradiction].
    destruct H as [H | []]. discriminate H.
  - destruct (isDateTyped (mapTsType f) f); cbn [In] in H; [| contradiction].
    destruct H as [H | []]. discriminate H.
  - exfalso. revert H.
    apply (@declLine_not_validator f _ (T "@Is" ++ v)).
  - discriminate H.
Qed.

End RequestBlock.

(** X2. In the request DTO the flag [isRequired] reaches
    [getValidatorDecorators] negated: the lines of a field have
    [@IsOptional()] exactly when [isRequired] is true, and [@IsNotEmpty()]
    exactly when [isRequired] is false and the declared type is
    [string]. *)
Theorem docFieldLines_flag_validators (opts : Options) (f : Field) :
  (In (T "  @IsOptional()") (docFieldLines opts f)
   <-> isRequired opts f = true) /\
  (In (T "  @IsNotEmpty()") (docFieldLines opts f)
   <-> isRequired opts f = false /\
       removeSpaces (tsType f) = T "string").
Proof.
  destruct (validator_flags f (negb (isRequired opts f)))
    as (Ho & Hn & _).
  split.
  - rewrite (docFieldLines_in_validator opts f (T "Optional(")), Ho.
    destruct (isRequired opts f); simpl; split; congruence.
  - rewrite (docFieldLines_in_validator opts f (T "NotEmpty(")), Hn.
    destruct (isRequired opts f); simpl; intuition congruence.
Qed.

(** ** The type resolver *)

Section ResolverMore.

Lemma replace_entity_cases t by_ :
  (exists x, t = x ++ T "Entity" /\
             rx_replace entity_end_re t by_ = x ++ by_) \/
  ((forall x, t <> x ++ T "Entity") /\ rx_replace entity_end_re t by_ = t).
Proof.
  destruct (rx_test entity_end_re t) eqn:Ht.
  - left. apply rx_test_true in Ht.
    destruct Ht as (pre & w & post & cs & Heq & Ho).
    apply entity_end_inv in Ho. destruct Ho as [-> ->].
    rewrite app_nil_r in Heq. exists pre. split; auto.
    subst t. apply replace_entity_suffix.
  - right.
    assert (Hno : forall x, t <> x ++ T "Entity").
    { intros x ->.
      apply (@rx_test_false _ _ Ht x (T "Entity") [] []).
      - now rewrite app_nil_r.
      - apply entity_end_intro. }
    split; auto. now apply replace_entity_none.
Qed.

(** A text the resolver leaves as it is. *)
Lemma settled_suffix r :
  trim r = r -> toRelationResDtoType r = r ->
  trim (r ++ T "[]") = r ++ T "[]" /\
  toRelationResDtoType (r ++ T "[]") = r ++ T "[]".
Proof.
  intros Htr Hr.
  assert (Htrim : trim (r ++ T "[]") = r ++ T "[]").
  { apply trim_fixed.
    - destruct r as [| c r']; [reflexivity |].
      rewrite class_at_app by discriminate.
      rewrite <- Htr. apply trim_shape.
    - rewrite rev_app_distr. reflexivity. }
  split; auto.
  rewrite (toRelationResDtoType_eq (r ++ T "[]")). cbv zeta. rewrite Htrim.
  destruct (rx_match array_generic_re (r ++ T "[]")) as [[whole cs] |] eqn:Hm.
  - exfalso. apply array_generic_match in Hm. destruct Hm as (g & Heq & _).
    apply (f_equal (@rev ascii)) in Heq. rewrite !rev_app_distr in Heq.
    discriminate Heq.
  - now rewrite endsWith_app, dropLast2_app, Htr, Hr.
Qed.

Lemma settled_base t0 :
  trim t0 = t0 -> rx_match array_generic_re t0 = None ->
  endsWith (T "[]") t0 = false ->
  trim (rx_replace entity_end_re t0 (T "ResDto"))
  = rx_replace entity_end_re t0 (T "ResDto") /\
  toRelationResDtoType (rx_replace entity_end_re t0 (T "ResDto"))
  = rx_replace entity_end_re t0 (T "ResDto").
Proof.
  intros Htr Hm He.
  destruct (replace_entity_cases t0 (T "ResDto"))
    as [(x & Heq & ->) | (Hno & ->)].
  - assert (Htrim : trim (x ++ T "ResDto") = x ++ T "ResDto").
    { apply trim_fixed.
      - destruct x as [| c x']; [reflexivity |].
        rewrite class_at_app by discriminate.
        pose proof (proj1 (trim_shape t0)) as Hs. rewrite Htr, Heq in Hs.
        now rewrite class_at_app in Hs by discriminate.
      - rewrite rev_app_distr. reflexivity. }
    split; auto.
    rewrite (toRelationResDtoType_eq (x ++ T "ResDto")). cbv zeta.
    rewrite Htrim.
    destruct (rx_match array_generic_re (x ++ T "ResDto"))
      as [[whole cs] |] eqn:Hm'.
    + exfalso. apply array_generic_match in Hm'.
      destruct Hm' as (g & Hg & _).
      apply (f_equal (@rev ascii)) in Hg. rewrite !rev_app_distr in Hg.
      discriminate Hg.
    + assert (He' : endsWith (T "[]") (x ++ T "ResDto") = false).
      { unfold endsWith. rewrite rev_app_distr. reflexivity. }
      rewrite He'. apply replace_entity_none.
      intros y Hy. apply (f_equal (@rev ascii)) in Hy.
      rewrite !rev_app_distr in Hy. discriminate Hy.
  - split; auto.
    rewrite (toRelationResDtoType_eq t0). cbv zeta.
    rewrite Htr, Hm, He. now apply replace_entity_none.
Qed.

Lemma resolved_settled : forall n t,
  length t <= n ->
  trim (toRelationResDtoType t) = toRelationResDtoType t /\
  toRelationResDtoType (toRelationResDtoType t) = toRelationResDtoType t.
Proof.
  induction n as [| n IH]; intros t Hlen.
  - destruct t; [| simpl in Hlen; lia]. split; reflexivity.
  - rewrite (toRelationResDtoType_eq t). cbv zeta.
    pose proof (trim_length t) as Ht.
    destruct (rx_match array_generic_re (trim t)) as [[whole cs] |] eqn:Hm.
    + pose proof Hm as Hm'. apply array_generic_match in Hm'.
      destruct Hm' as (g & Heq & -> & _).
      assert (length g < length (trim t)).
      { rewrite Heq, !length_app. simpl. lia. }
      destruct (IH g) as [H1 H2]; [lia |]. now apply settled_suffix.
    + destruct (endsWith (T "[]") (trim t)) eqn:He.
      * pose proof (endsWith_length _ _ He) as Hl. simpl in Hl.
        pose proof (dropLast2_length _ Hl).
        pose proof (trim_length (dropLast2 (trim t))).
        destruct (IH (trim (dropLast2 (trim t)))) as [H1 H2]; [lia |].
        now apply settled_suffix.
      * apply settled_base; auto. apply trim_idempotent.
Qed.

End ResolverMore.

(** X3. The recursion of [toRelationResDtoType], as the source writes it,
    holds for every text: the depth of the recursion is bounded by the
    length of the text, so the resolver returns for every input. *)
Theorem toRelationResDtoType_recursion (tsType : text) :
  toRelationResDtoType tsType =
  let t := trim tsType in
  match rx_match array_generic_re t with
  | Some (_, inner :: _) => toRelationResDtoType inner ++ T "[]"
  | _ =>
      if endsWith (T "[]") t
      then toRelationResDtoType (trim (dropLast2 t)) ++ T "[]"
      else rx_replace entity_end_re t (T "ResDto")
  end.
Proof. apply toRelationResDtoType_eq. Qed.

(** X4. Resolving a resolved type changes nothing. *)
Theorem toRelationResDtoType_idempotent (t : text) :
  toRelationResDtoType (toRelationResDtoType t) = toRelationResDtoType t.
Proof. apply (@resolved_settled (length t) t). lia. Qed.

(** X5. The resolver ignores white space around the type text, and its
    result has none. *)
Theorem toRelationResDtoType_trim (t : text) :
  toRelationResDtoType (trim t) = toRelationResDtoType t /\
  trim (toRelationResDtoType t) = toRelationResDtoType t.
Proof.
  split.
  - rewrite (toRelationResDtoType_eq (trim t)), (toRelationResDtoType_eq t).
    cbv zeta. now rewrite trim_idempotent.
  - apply (@resolved_settled (length t) t). lia.
Qed.

(** X6. No resolved type ends with [Entity]. *)
Theorem toRelationResDtoType_no_entity_suffix (t x : text) :
  toRelationResDtoType t <> x ++ T "Entity".
Proof.
  rewrite toRelationResDtoType_eq. cbv zeta.
  assert (Harr : forall r, r ++ T "[]" <> x ++ T "Entity").
  { intros r H. apply (f_equal (@rev ascii)) in H.
    rewrite !rev_app_distr in H. discriminate H. }
  destruct (rx_match array_generic_re (trim t)) as [[whole [| g cs]] |];
    try apply Harr.
  - destruct (endsWith (T "[]") (trim t)); [apply Harr |].
    destruct (replace_entity_cases (trim t) (T "ResDto"))
      as [(y & Heq & ->) | (Hno & ->)]; [| apply Hno].
    intros H. apply (f_equal (@rev ascii)) in H.
    rewrite !rev_app_distr in H. discriminate H.
  - destruct (endsWith (T "[]") (trim t)); [apply Harr |].
    destruct (replace_entity_cases (trim t) (T "ResDto"))
      as [(y & Heq & ->) | (Hno & ->)]; [| apply Hno].
    intros H. apply (f_equal (@rev ascii)) in H.
    rewrite !rev_app_distr in H. discriminate H.
Qed.

(** X7. A name of word characters ending in [Entity], under any nesting
    of the two array wrappers, mixed or not, resolves to the name with
    [ResDto] and one plain array suffix for each wrapper. *)
Theorem toRelationResDtoType_mixed_wrappers
  (ks : list wrapper) (x : text) (H : forallb is_word x = true) :
  toRelationResDtoType (wrap ks (x ++ T "Entity"))
  = x ++ T "ResDto" ++ arraySuffix (length ks).
Proof.
  rewrite toRelationResDtoType_wrap.
  - now rewrite replace_entity_suffix, <- app_assoc.
  - destruct x; discriminate.
  - rewrite forallb_app, H. reflexivity.
Qed.

(** Witness of X7: [Array<CommentEntity[]>[]]. *)
Lemma toRelationResDtoType_mixed_wrappers_witness :
  toRelationResDtoType (T "Array<CommentEntity[]>[]")
  = T "CommentResDto[][][]".
Proof.
  exact (@toRelationResDtoType_mixed_wrappers
           [Suffix; Generic; Suffix] (T "Comment") eq_refl).
Defined.

(** ** The metadata extractor *)

Section MetadataExtractor.

Lemma join_cons sep l ls :
  join sep (l :: ls) = l ++ flat_map (fun x => sep ++ x) ls.
Proof.
  revert l. induction ls as [| x ls IH]; intros l.
  - cbn [join flat_map]. now rewrite app_nil_r.
  - change (join sep (l :: x :: ls)) with (l ++ sep ++ join sep (x :: ls)).
    rewrite IH. cbn [flat_map]. now rewrite <- app_assoc.
Qed.

Lemma scanColumnMeta_from : forall ls meta depth,
  meta <> [] ->
  match scanColumnMeta ls meta depth with
  | (m, Some k) =>
      k < length ls /\
      m = meta ++ flat_map (fun x => [LF] ++ x) (firstn (S k) ls) /\
      (depth + sumBalance (firstn (S k) ls) <= 0)%Z /\
      forall j, j < k -> (0 < depth + sumBalance (firstn (S j) ls))%Z
  | (m, None) =>
      m = meta ++ flat_map (fun x => [LF] ++ x) ls /\
      forall j, j < length ls ->
                (0 < depth + sumBalance (firstn (S j) ls))%Z
  end.
Proof.
  induction ls as [| l ls IH]; intros meta depth Hne.
  - cbn [scanColumnMeta flat_map length]. rewrite app_nil_r.
    split; auto. intros j Hj. lia.
  - cbn [scanColumnMeta]. fold (parenBalance l).
    assert (Hm : meta ++ match meta with [] => [] | _ :: _ => [LF] end ++ l
                 = meta ++ [LF] ++ l) by (destruct meta; [contradiction | reflexivity]).
    rewrite Hm.
    replace (depth + countChar "(" l - countChar ")" l)%Z
      with (depth + parenBalance l)%Z by (unfold parenBalance; lia).
    destruct (depth + parenBalance l <=? 0)%Z eqn:Hd.
    + apply Z.leb_le in Hd. cbn [length firstn flat_map sumBalance].
      rewrite app_nil_r. repeat split; intros; lia.
    + apply Z.leb_gt in Hd.
      assert (Hne' : meta ++ [LF] ++ l <> []) by (destruct meta; discriminate).
      specialize (IH (meta ++ [LF] ++ l) (depth + parenBalance l)%Z Hne').
      destruct (scanColumnMeta ls (meta ++ [LF] ++ l) (depth + parenBalance l))
        as [m [k |]]; cbn [option_map].
      * destruct IH as (Hk & Hmeta & Hle & Hgt).
        cbn [length]. split; [lia |]. split; [| split].
        -- rewrite Hmeta. cbn [firstn flat_map]. now rewrite <- !app_assoc.
        -- cbn [firstn sumBalance] in *. lia.
        -- intros [| j] Hj.
           ++ cbn [firstn sumBalance]. lia.
           ++ specialize (Hgt j ltac:(lia)).
              cbn [firstn sumBalance] in *. lia.
      * destruct IH as (Hmeta & Hgt). split.
        -- rewrite Hmeta. cbn [flat_map]. now rewrite <- !app_assoc.
        -- intros [| j] Hj.
           ++ cbn [firstn sumBalance]. lia.
           ++ cbn [length] in Hj. specialize (Hgt j ltac:(lia)).
              cbn [firstn sumBalance] in *. lia.
Qed.

Lemma parenBalance_nil : parenBalance [] = 0%Z.
Proof. reflexivity. Qed.

Lemma scanColumnMeta_start ls :
  match scanColumnMeta ls [] 0 with
  | (m, Some k) =>
      k < length ls /\ m = join [LF] (firstn (S k) ls) /\
      (sumBalance (firstn (S k) ls) <= 0)%Z /\
      forall j, j < k -> (0 < sumBalance (firstn (S j) ls))%Z
  | (m, None) =>
      m = join [LF] ls /\
      forall j, j < length ls -> (0 < sumBalance (firstn (S j) ls))%Z
  end.
Proof.
  destruct ls as [| l ls].
  - cbn. split; auto. intros j Hj. lia.
  - cbn [scanColumnMeta app]. fold (parenBalance l).
    replace (0 + countChar "(" l - countChar ")" l)%Z
      with (parenBalance l) by (unfold parenBalance; lia).
    destruct (parenBalance l <=? 0)%Z eqn:Hd.
    + apply Z.leb_le in Hd. cbn [length firstn join sumBalance].
      repeat split; intros; lia.
    + apply Z.leb_gt in Hd.
      assert (Hne : l <> []).
      { intros ->. rewrite parenBalance_nil in Hd. lia. }
      pose proof (scanColumnMeta_from ls (parenBalance l) Hne) as H.
      destruct (scanColumnMeta ls l (parenBalance l)) as [m [k |]];
        cbn [option_map].
      * destruct H as (Hk & Hmeta & Hle & Hgt). cbn [length].
        split; [lia |]. split; [| split].
        -- rewrite Hmeta. change (firstn (S (S k)) (l :: ls))
             with (l :: firstn (S k) ls). now rewrite join_cons.
        -- cbn [firstn sumBalance] in *. lia.
        -- intros [| j] Hj.
           ++ cbn [firstn sumBalance]. lia.
           ++ specialize (Hgt j ltac:(lia)).
              cbn [firstn sumBalance] in *. lia.
      * destruct H as (Hmeta & Hgt). split.
        -- rewrite Hmeta. now rewrite join_cons.
        -- intros [| j] Hj.
           ++ cbn [firstn sumBalance]. lia.
           ++ cbn [length] in Hj. specialize (Hgt j ltac:(lia)).
              cbn [firstn sumBalance] in *. lia.
Qed.

End MetadataExtractor.

(** X8. The metadata extractor, from the line of the column decorator
    on: when it closes, the text is the lines up to and including the
    first line at which the parenthesis balance is zero or below, joined
    by line feeds, and that line is one of the lines; when no line closes
    the block, the text is all the lines to the end of the source and the
    outer index is left where it is. *)
Theorem scanColumnMeta_extent (ls : list text) :
  match scanColumnMeta ls [] 0 with
  | (m, Some k) =>
      k < length ls /\ m = join [LF] (firstn (S k) ls) /\
      (sumBalance (firstn (S k) ls) <= 0)%Z /\
      forall j, j < k -> (0 < sumBalance (firstn (S j) ls))%Z
  | (m, None) =>
      m = join [LF] ls /\
      forall j, j < length ls -> (0 < sumBalance (firstn (S j) ls))%Z
  end.
Proof. apply scanColumnMeta_start. Qed.

(** ** Property lines *)

Section PropertyLines.

Lemma prop_re_inv b w a cs :
  matches prop_re b w a cs ->
  b = [] /\
  exists m n q ws ty,
    w = m ++ n ++ q ++ T ":" ++ ws ++ ty ++ T ";" /\ cs = [n; ty] /\
    modifierPrefix m /\ isIdentifier n = true /\ optionalMarker q /\
    forallb is_space ws = true /\ ty <> [] /\
    forallb not_semicolon ty = true.
Proof.
  unfold prop_re. cbn [RSeqs RAlts]. intros H.
  apply matches_seq_inv in H. destruct H as (w1 & r1 & c1 & d1 & -> & -> & H1 & H).
  apply matches_bol_inv in H1. destruct H1 as (-> & -> & ->).
  apply matches_seq_inv in H. destruct H as (w2 & r2 & c2 & d2 & -> & -> & H2 & H).
  apply matches_seq_inv in H. destruct H as (w3 & r3 & c3 & d3 & -> & -> & H3 & H).
  apply matches_group_inv in H3. destruct H3 as (c3' & -> & H3).
  apply matches_seq_inv in H3. destruct H3 as (i1 & i2 & e1 & e2 & -> & -> & Hi1 & Hi2).
  apply matches_char_inv in Hi1. destruct Hi1 as (c & -> & Hc & ->).
  apply matches_star_inv in Hi2. destruct Hi2 as [Hi2 ->].
  apply matches_seq_inv in H. destruct H as (w4 & r4 & c4 & d4 & -> & -> & H4 & H).
  apply matches_seq_inv in H. destruct H as (w5 & r5 & c5 & d5 & -> & -> & H5 & H).
  apply matches_lit_inv in H5. destruct H5 as [-> ->].
  apply matches_seq_inv in H. destruct H as (w6 & r6 & c6 & d6 & -> & -> & H6 & H).
  apply matches_star_inv in H6. destruct H6 as [H6 ->].
  apply matches_seq_inv in H. destruct H as (w7 & r7 & c7 & d7 & -> & -> & H7 & H).
  apply matches_group_inv in H7. destruct H7 as (c7' & -> & H7).
  apply matches_plus_inv in H7. destruct H7 as (Hne & Hty & ->).
  apply matches_lit_inv in H. destruct H as [-> ->].
  split; [reflexivity |].
  exists w2, ([c] ++ i2), w4, w6, w7.
  assert (Hm : modifierPrefix w2 /\ c2 = []).
  { apply matches_opt_inv in H2. destruct H2 as [H2 | [-> ->]];
      [| split; [now left | reflexivity]].
    assert (Hkw : forall kw b' w' a' cs',
               matches (RSeq (RLit kw) (RPlus is_space)) b' w' a' cs' ->
               (exists sp, w' = kw ++ sp /\ sp <> [] /\
                           forallb is_space sp = true) /\ cs' = []).
    { intros kw b' w' a' cs' Hk. apply matches_seq_inv in Hk.
      destruct Hk as (x1 & x2 & k1 & k2 & -> & -> & Hl & Hp).
      apply matches_lit_inv in Hl. destruct Hl as [-> ->].
      apply matches_plus_inv in Hp. destruct Hp as (? & ? & ->). eauto. }
    apply matches_alt_inv in H2. destruct H2 as [H2 | H2];
      [| apply matches_alt_inv in H2; destruct H2 as [H2 | H2]];
      apply Hkw in H2; destruct H2 as ((sp & -> & Hsp & Hs) & ->);
      (split; [right | reflexivity]).
    - exists (T "public"), sp. cbn [In]. repeat split; auto.
    - exists (T "private"), sp. cbn [In]. repeat split; auto.
    - exists (T "readonly"), sp. cbn [In]. repeat split; auto. }
  destruct Hm as [Hm ->].
  assert (Hq : optionalMarker w4 /\ c4 = []).
  { apply matches_opt_inv in H4. destruct H4 as [H4 | [-> ->]];
      [| split; [now left | reflexivity]].
    apply matches_char_inv in H4. destruct H4 as (q & -> & Hq & ->).
    apply Ascii.eqb_eq in Hq. subst q. split; [now right | reflexivity]. }
  destruct Hq as [Hq ->].
  rewrite !app_nil_r. cbn [app isIdentifier]. rewrite Hc, Hi2.
  repeat split; auto.
Qed.

Lemma prop_re_intro m n q body post :
  modifierPrefix m -> isIdentifier n = true -> optionalMarker q ->
  body <> [] -> forallb not_semicolon body = true ->
  matches prop_re [] (m ++ n ++ q ++ T ":" ++ body ++ T ";") post [n; body].
Proof.
  intros Hm Hn Hq Hne Hb. unfold prop_re. cbn [RSeqs RAlts].
  apply matches_seq with (w1 := []) (cs1 := [])
    (w2 := m ++ n ++ q ++ T ":" ++ body ++ T ";") (cs2 := [n; body]);
    [apply MBol | | reflexivity | reflexivity].
  apply matches_seq with (w1 := m) (cs1 := [])
    (w2 := n ++ q ++ T ":" ++ body ++ T ";") (cs2 := [n; body]);
    [ | | reflexivity | reflexivity].
  { destruct Hm as [-> | (kw & sp & Hkw & -> & Hsp & Hs)]; [apply MOptNone |].
    apply MOptSome.
    assert (Hk : forall b a, matches (RSeq (RLit kw) (RPlus is_space))
                               b (kw ++ sp) a []).
    { intros b a.
      apply matches_seq with (w1 := kw) (cs1 := []) (w2 := sp) (cs2 := []);
        [apply matches_lit | now apply matches_plus | reflexivity
        | reflexivity]. }
    cbn [In] in Hkw. destruct Hkw as [<- | [<- | [<- | []]]].
    - apply MAltL, Hk.
    - apply MAltR, MAltL, Hk.
    - apply MAltR, MAltR, Hk. }
  apply matches_seq with (w1 := n) (cs1 := [n])
    (w2 := q ++ T ":" ++ body ++ T ";") (cs2 := [body]);
    [ | | reflexivity | reflexivity].
  { destruct n as [| c r]; [discriminate Hn |]. cbn [isIdentifier] in Hn.
    apply andb_prop in Hn. destruct Hn as [Hc Hr].
    apply (MGroup (r := RSeq (RChar is_ident_start) (RStar is_ident_char))
                  (cs := [])).
    apply matches_seq with (w1 := [c]) (cs1 := []) (w2 := r) (cs2 := []);
      [now constructor | now constructor | reflexivity | reflexivity]. }
  apply matches_seq with (w1 := q) (cs1 := [])
    (w2 := T ":" ++ body ++ T ";") (cs2 := [body]);
    [ | | reflexivity | reflexivity].
  { destruct Hq as [-> | ->]; [apply MOptNone |].
    apply MOptSome. now constructor. }
  apply matches_seq with (w1 := T ":") (cs1 := [])
    (w2 := body ++ T ";") (cs2 := [body]);
    [apply matches_lit | | reflexivity | reflexivity].
  apply matches_seq with (w1 := []) (cs1 := [])
    (w2 := body ++ T ";") (cs2 := [body]);
    [now constructor | | reflexivity | reflexivity].
  apply matches_seq with (w1 := body) (cs1 := [body])
    (w2 := T ";") (cs2 := []);
    [ | apply matches_lit | reflexivity | reflexivity].
  apply (MGroup (r := RPlus not_semicolon) (cs := [])).
  now apply matches_plus.
Qed.

Lemma space_char_facts c :
  is_space c = true -> is_ident_char c = false /\ not_semicolon c = true.
Proof.
  destruct c as [[] [] [] [] [] [] [] []]; vm_compute; intros H;
    try discriminate H; auto.
Qed.

Lemma ident_start_facts c :
  is_ident_start c = true -> is_ident_char c = true /\ is_space c = false.
Proof.
  destruct c as [[] [] [] [] [] [] [] []]; vm_compute; intros H;
    try discriminate H; auto.
Qed.

Lemma modifier_keyword kw :
  In kw [T "public"; T "private"; T "readonly"] ->
  forallb is_ident_char kw = true.
Proof. cbn [In]. intros [<- | [<- | [<- | []]]]; reflexivity. Qed.

Lemma identifier_run n :
  isIdentifier n = true ->
  forallb is_ident_char n = true /\ class_at is_space n = false /\ n <> [].
Proof.
  destruct n as [| c r]; [discriminate |]. cbn [isIdentifier forallb class_at].
  intros H. apply andb_prop in H. destruct H as [Hc Hr].
  apply ident_start_facts in Hc. destruct Hc as [-> ->]. rewrite Hr.
  repeat split; auto. discriminate.
Qed.

Lemma spaces_run sp x :
  sp <> [] -> forallb is_space sp = true ->
  class_at is_ident_char (sp ++ x) = false.
Proof.
  destruct sp as [| c sp]; [contradiction |]. cbn [forallb app class_at].
  intros _ H. apply andb_prop in H. destruct H as [Hc _].
  now apply space_char_facts in Hc.
Qed.

(** The rest of a declaration after its name: the optional marker and the
    colon. *)
Lemma after_name q x :
  optionalMarker q ->
  class_at is_ident_char (q ++ T ":" ++ x) = false /\
  class_at is_space (q ++ T ":" ++ x) = false.
Proof. intros [-> | ->]; split; reflexivity. Qed.

Lemma prop_head_unique m n R m' n' R' :
  modifierPrefix m -> isIdentifier n = true ->
  class_at is_ident_char R = false -> class_at is_space R = false ->
  modifierPrefix m' -> isIdentifier n' = true ->
  class_at is_ident_char R' = false -> class_at is_space R' = false ->
  m ++ n ++ R = m' ++ n' ++ R' -> n = n' /\ R = R'.
Proof.
  intros Hm Hn HR HRs Hm' Hn' HR' HRs' Heq.
  destruct (identifier_run _ Hn) as (Hni & Hns & Hne).
  destruct (identifier_run _ Hn') as (Hni' & Hns' & Hne').
  destruct Hm as [-> | (kw & sp & Hkw & -> & Hsp & Hs)];
    destruct Hm' as [-> | (kw' & sp' & Hkw' & -> & Hsp' & Hs')];
    cbn [app] in Heq.
  - now apply (span_unique is_ident_char) in Heq.
  - exfalso. rewrite <- app_assoc in Heq.
    apply (span_unique is_ident_char) in Heq; auto.
    + destruct Heq as [_ Heq]. subst R.
      destruct sp' as [| c sp']; [contradiction |].
      cbn [app class_at forallb] in *. apply andb_prop in Hs'.
      destruct Hs' as [Hc _]. congruence.
    + now apply modifier_keyword.
    + now apply spaces_run.
  - exfalso. rewrite <- app_assoc in Heq.
    apply (span_unique is_ident_char) in Heq; auto.
    + destruct Heq as [_ Heq]. subst R'.
      destruct sp as [| c sp]; [contradiction |].
      cbn [app class_at forallb] in *. apply andb_prop in Hs.
      destruct Hs as [Hc _]. congruence.
    + now apply modifier_keyword.
    + now apply spaces_run.
  - rewrite <- !app_assoc in Heq.
    apply (span_unique is_ident_char) in Heq;
      auto using modifier_keyword, spaces_run.
    destruct Heq as [_ Heq].
    apply (span_unique is_space) in Heq; auto;
      try (rewrite class_at_app by assumption; assumption).
    destruct Heq as [_ Heq].
    now apply (span_unique is_ident_char) in Heq.
Qed.

Lemma prop_head_unique3 m n R m' n' R' :
  modifierPrefix m -> isIdentifier n = true ->
  class_at is_ident_char R = false -> class_at is_space R = false ->
  modifierPrefix m' -> isIdentifier n' = true ->
  class_at is_ident_char R' = false -> class_at is_space R' = false ->
  m ++ n ++ R = m' ++ n' ++ R' -> m = m' /\ n = n' /\ R = R'.
Proof.
  intros Hm Hn HR HRs Hm' Hn' HR' HRs' Heq.
  destruct (@prop_head_unique m n R m' n' R' Hm Hn HR HRs Hm' Hn' HR' HRs'
              Heq) as [<- <-].
  apply app_inv_tail in Heq. auto.
Qed.

Lemma dropWhile_app_all p a b :
  forallb p a = true -> dropWhile p (a ++ b) = dropWhile p b.
Proof.
  induction a as [| c a IH]; cbn [forallb app dropWhile]; auto.
  intros H. apply andb_prop in H. destruct H as [-> H]. auto.
Qed.

Lemma trim_leading_spaces ws x :
  forallb is_space ws = true -> trim (ws ++ x) = trim x.
Proof. intros H. unfold trim. now rewrite dropWhile_app_all. Qed.

Lemma declaration_line m n q body post whole cs :
  modifierPrefix m -> isIdentifier n = true -> optionalMarker q ->
  body <> [] -> forallb not_semicolon body = true ->
  rx_match prop_re (m ++ n ++ q ++ T ":" ++ body ++ T ";" ++ post)
  = Some (whole, cs) ->
  whole = m ++ n ++ q ++ T ":" ++ body ++ T ";" /\
  exists ty, cs = [n; ty] /\ trim ty = trim body.
Proof.
  intros Hm Hn Hq Hne Hb Hr. apply rx_match_some in Hr.
  destruct Hr as (pre & post' & Heq & Ho & _).
  apply prop_re_inv in Ho. destruct Ho as (Hpre & m' & n' & q' & ws & ty
    & -> & -> & Hm' & Hn' & Hq' & Hws & Hty & Htys).
  rewrite app_nil_r in Hpre.
  assert (pre = []) by (destruct pre; auto; cbn [rev] in Hpre;
                        apply app_eq_nil in Hpre; destruct Hpre; discriminate).
  subst pre. cbn [app] in Heq. rewrite <- !app_assoc in Heq.
  destruct (after_name (body ++ T ";" ++ post) Hq) as [H1 H2].
  destruct (after_name (ws ++ ty ++ T ";" ++ post') Hq') as [H1' H2'].
  apply prop_head_unique3 in Heq; auto.
  destruct Heq as (<- & <- & Heq).
  assert (Hrest : q = q' /\ body ++ T ";" ++ post
                           = ws ++ ty ++ T ";" ++ post').
  { destruct Hq as [-> | ->], Hq' as [-> | ->]; cbn [app T list_ascii_of_string] in Heq;
      try discriminate Heq; split; auto; now injection Heq. }
  destruct Hrest as [<- Hrest].
  rewrite (app_assoc ws ty) in Hrest.
  apply (span_unique not_semicolon) in Hrest; auto.
  - destruct Hrest as [-> _]. split.
    + now rewrite <- !app_assoc.
    + exists ty. split; auto. now rewrite trim_leading_spaces.
  - rewrite forallb_app, Htys, andb_true_r.
    rewrite forallb_forall in *. intros c Hc. now apply space_char_facts, Hws.
Qed.

End PropertyLines.

(** X9. What a property line yields.  For a line made of an optional
    modifier ([public], [private] or [readonly], and white space), an
    identifier, an optional [?], a colon, a non-empty text without a
    semicolon, a semicolon and anything after it: the field has the
    identifier as its name and that text, trimmed, as its type; what
    follows the first semicolon is ignored, and the field takes the
    decorator buffer and the pending metadata. *)
Theorem fieldOfLine_declaration
  (m n q body post : text) (st : scanState)
  (Hm : modifierPrefix m) (Hn : isIdentifier n = true)
  (Hq : optionalMarker q) (Hne : body <> [])
  (Hb : forallb not_semicolon body = true) :
  fieldOfLine (m ++ n ++ q ++ T ":" ++ body ++ T ";" ++ post) st
  = Some (mkField n (trim body)
            (rx_test nullable_re
               (orEmpty (pendingColumnMeta st) ++ [LF]
                ++ join [LF] (decoratorBuf st)))
            (decoratorBuf st) (pendingColumnMeta st)).
Proof.
  unfold fieldOfLine.
  destruct (rx_match prop_re
              (m ++ n ++ q ++ T ":" ++ body ++ T ";" ++ post))
    as [[whole cs] |] eqn:Hr.
  - destruct (declaration_line _ _ Hm Hn Hq Hne Hb Hr)
      as (-> & ty & -> & Hty).
    rewrite Hty.
    replace (m ++ n ++ q ++ T ":" ++ body ++ T ";")
      with ((m ++ n ++ q ++ T ":" ++ body) ++ T ";")
      by now rewrite <- !app_assoc.
    now rewrite qmark_end_semicolon.
  - exfalso.
    apply (@rx_match_none _ _ Hr []
             (m ++ n ++ q ++ T ":" ++ body ++ T ";") post [n; body]).
    + cbn [app]. now rewrite <- !app_assoc.
    + now apply prop_re_intro.
Qed.

(** Witness of X9: [  public title?: Array<string> ; // note;], trimmed. *)
Lemma fieldOfLine_declaration_witness :
  fieldOfLine (T "public title?: Array<string> ; // note;") initScan
  = Some (mkField (T "title") (T "Array<string>") false [] None).
Proof.
  apply (@fieldOfLine_declaration
           (T "public ") (T "title") (T "?") (T " Array<string> ")
           (T " // note;") initScan).
  - right. exists (T "public"), (T " "). cbn [In]. repeat split; auto.
    discriminate.
  - reflexivity.
  - now right.
  - discriminate.
  - reflexivity.
Defined.

(** ** The fields of a parsed entity *)

Section ParsedFields.

Lemma decorator_line_declares_nothing line :
  isDecoratorLine line = true -> declarationOf line = [].
Proof.
  intros Hd. unfold declarationOf.
  destruct (rx_match prop_re line) as [[whole cs] |] eqn:Hm; auto.
  assert (Hp : isPropertyLine line = true)
    by (unfold isPropertyLine; now rewrite Hm).
  apply property_line_not_decorator in Hp. congruence.
Qed.

Lemma fieldOfLine_declarationOf line st :
  map (fun f => (name f, tsType f))
      (match fieldOfLine line st with Some f => [f] | None => [] end)
  = declarationOf line.
Proof.
  unfold fieldOfLine, declarationOf.
  destruct (rx_match prop_re line) as [[whole [| n [| ty [| x cs]]]] |];
    reflexivity.
Qed.

Lemma fieldOfLine_decorators line st f :
  fieldOfLine line st = Some f ->
  decorators f = decoratorBuf st /\ rawColumnMeta f = pendingColumnMeta st.
Proof.
  unfold fieldOfLine.
  destruct (rx_match prop_re line) as [[whole [| n [| ty [| x cs]]]] |];
    try discriminate.
  intros H. injection H as <-. auto.
Qed.

(** The names and the types of the fields, in the order of the visited
    lines. *)
Lemma scanLines_declarations : forall ls skip st,
  map (fun f => (name f, tsType f)) (fieldsAcc (scanLines ls skip st))
  = map (fun f => (name f, tsType f)) (fieldsAcc st)
    ++ flat_map declarationOf (map trim (visitedLines ls skip)).
Proof.
  induction ls as [| l ls IH]; intros skip st.
  - cbn. now rewrite app_nil_r.
  - rewrite scanLines_cons, visitedLines_cons.
    destruct skip as [| k]; [| apply IH]. cbv zeta.
    cbn [map flat_map]. unfold linesConsumed.
    destruct (isDecoratorLine (trim l)) eqn:Hd; cbn [andb].
    + rewrite (decorator_line_declares_nothing _ Hd). cbn [app].
      destruct (opensColumnMeta (trim l)).
      * destruct (scanColumnMeta (l :: ls) [] 0) as [meta adv]. cbn [snd].
        now rewrite IH.
      * now rewrite IH.
    + rewrite <- (fieldOfLine_declarationOf (trim l) st).
      destruct (fieldOfLine (trim l) st) as [f |]; rewrite IH; cbn [fieldsAcc].
      * now rewrite map_app, <- app_assoc.
      * reflexivity.
Qed.

(** Every visited decorator line goes to the field that follows it, or
    stays in the buffer. *)
Lemma scanLines_decorators : forall ls skip st,
  flat_map decorators (fieldsAcc (scanLines ls skip st))
  ++ decoratorBuf (scanLines ls skip st)
  = flat_map decorators (fieldsAcc st) ++ decoratorBuf st
    ++ filter isDecoratorLine (map trim (visitedLines ls skip)).
Proof.
  induction ls as [| l ls IH]; intros skip st.
  - cbn. now rewrite app_nil_r.
  - rewrite scanLines_cons, visitedLines_cons.
    destruct skip as [| k]; [| apply IH]. cbv zeta.
    cbn [map filter]. unfold linesConsumed.
    destruct (isDecoratorLine (trim l)) eqn:Hd; cbn [andb].
    + destruct (opensColumnMeta (trim l)).
      * destruct (scanColumnMeta (l :: ls) [] 0) as [meta adv]. cbn [snd].
        rewrite IH. cbn [fieldsAcc decoratorBuf].
        now rewrite <- !app_assoc.
      * rewrite IH. cbn [fieldsAcc decoratorBuf]. now rewrite <- !app_assoc.
    + destruct (fieldOfLine (trim l) st) as [f |] eqn:Hf; rewrite IH;
        cbn [fieldsAcc decoratorBuf]; [| reflexivity].
      apply fieldOfLine_decorators in Hf. destruct Hf as [Hf _].
      rewrite flat_map_app. cbn [flat_map]. rewrite Hf, app_nil_r.
      now rewrite <- !app_assoc.
Qed.

Lemma visitedLines_incl : forall ls skip l,
  In l (visitedLines ls skip) -> In l ls.
Proof.
  induction ls as [| x ls IH]; intros skip l H; [contradiction |].
  rewrite visitedLines_cons in H. destruct skip as [| k].
  - destruct H as [-> | H]; [now left | right; eauto].
  - right. eauto.
Qed.

Lemma forallb_dropWhile (p q : ascii -> bool) l :
  forallb q l = true -> forallb q (dropWhile p l) = true.
Proof.
  induction l as [| c l IH]; cbn [dropWhile forallb]; auto.
  intros H. destruct (p c); auto. apply andb_prop in H. now destruct H; auto.
Qed.

Lemma forallb_trim (q : ascii -> bool) l :
  forallb q l = true -> forallb q (trim l) = true.
Proof.
  intros H. unfold trim.
  apply forallb_rev, forallb_dropWhile, forallb_rev, forallb_dropWhile, H.
Qed.

Lemma parseEntity_fields_in_order_aux s e :
  parseEntity s = Some e ->
  map (fun f => (name f, tsType f)) (fields e)
  = flat_map declarationOf (map trim (visitedLines (splitLines s) 0)).
Proof.
  intros H. rewrite (@parseEntity_fields s e H).
  now rewrite scanLines_declarations.
Qed.

Lemma parseEntity_decorators_once_aux s e :
  parseEntity s = Some e ->
  flat_map decorators (fields e)
  ++ decoratorBuf (scanLines (splitLines s) 0 initScan)
  = filter isDecoratorLine (map trim (visitedLines (splitLines s) 0)).
Proof.
  intros H. rewrite (@parseEntity_fields s e H).
  now rewrite scanLines_decorators.
Qed.

(** Which field takes which decorator line: the buffer holds the
    decorator lines of the piece being collected. *)
Lemma scanLines_groups : forall ls skip st cur,
  decoratorBuf st = filter isDecoratorLine cur ->
  map decorators (fieldsAcc (scanLines ls skip st))
  = map decorators (fieldsAcc st)
    ++ map (filter isDecoratorLine)
         (fst (cutAtProperties cur (map trim (visitedLines ls skip)))) /\
  decoratorBuf (scanLines ls skip st)
  = filter isDecoratorLine
      (snd (cutAtProperties cur (map trim (visitedLines ls skip)))).
Proof.
  induction ls as [| l ls IH]; intros skip st cur Hbuf.
  - cbn. now rewrite app_nil_r.
  - rewrite scanLines_cons, visitedLines_cons.
    destruct skip as [| k]; [| now apply IH]. cbv zeta.
    cbn [map cutAtProperties]. unfold linesConsumed.
    destruct (isDecoratorLine (trim l)) eqn:Hd; cbn [andb].
    + assert (Hp : isPropertyLine (trim l) = false).
      { destruct (isPropertyLine (trim l)) eqn:Hp; auto.
        apply property_line_not_decorator in Hp. congruence. }
      rewrite Hp.
      assert (Hbuf' : decoratorBuf st ++ [trim l]
                      = filter isDecoratorLine (cur ++ [trim l])).
      { rewrite filter_app, Hbuf. cbn [filter]. now rewrite Hd. }
      destruct (opensColumnMeta (trim l)).
      * destruct (scanColumnMeta (l :: ls) [] 0) as [meta adv]. cbn [snd].
        apply (IH _ (mkScan (fieldsAcc st) (decoratorBuf st ++ [trim l])
                       (Some meta)) _ Hbuf').
      * apply (IH _ (mkScan (fieldsAcc st) (decoratorBuf st ++ [trim l])
                       (pendingColumnMeta st)) _ Hbuf').
    + destruct (isPropertyLine (trim l)) eqn:Hp.
      * destruct (@fieldOfLine_property (trim l) st Hp) as (f & -> & Hf & _).
        destruct (IH 0 (mkScan (fieldsAcc st ++ [f]) [] None) [] eq_refl)
          as [H1 H2].
        split; [| exact H2]. rewrite H1. cbn [fieldsAcc fst map].
        rewrite map_app. cbn [map]. rewrite Hf, Hbuf, <- app_assoc.
        reflexivity.
      * rewrite (@fieldOfLine_not_property (trim l) st Hp).
        apply IH. rewrite filter_app, Hbuf. cbn [filter].
        now rewrite Hd, app_nil_r.
Qed.

End ParsedFields.

(** X10. The fields of a parsed entity are the declarations of the lines
    the scan visits, one field for each visited line that matches the
    property pattern, in the order of the text. *)
Theorem parseEntity_fields_in_order (s : text) (e : ParsedEntity)
  (H : parseEntity s = Some e) :
  map (fun f => (name f, tsType f)) (fields e)
  = flat_map declarationOf (map trim (visitedLines (splitLines s) 0)).
Proof. now apply parseEntity_fields_in_order_aux. Qed.

(** X11. Which field takes which decorator line.  Cut the visited
    lines, trimmed, after each line that matches the property pattern:
    the decorators of the fields are, field by field and in order, the
    decorator lines of the pieces, so each field takes the decorator
    lines visited since the declaration before it and no others; the
    decorator lines after the last declaration stay in the buffer and
    are attached to no field. *)
Theorem parseEntity_decorators_once (s : text) (e : ParsedEntity)
  (H : parseEntity s = Some e) :
  map decorators (fields e)
  = map (filter isDecoratorLine)
      (fst (cutAtProperties []
              (map trim (visitedLines (splitLines s) 0)))) /\
  decoratorBuf (scanLines (splitLines s) 0 initScan)
  = filter isDecoratorLine
      (snd (cutAtProperties []
              (map trim (visitedLines (splitLines s) 0)))).
Proof.
  rewrite (@parseEntity_fields s e H).
  apply (@scanLines_groups (splitLines s) 0 initScan [] eq_refl).
Qed.

(** X12. Every field of a parsed entity has an identifier as its name and
    a type text without a semicolon and without white space around it;
    each of its decorators is a line of the source, trimmed, that starts
    with the decorator marker. *)
Theorem parseEntity_field_shape (s : text) (e : ParsedEntity) (f : Field)
  (H : parseEntity s = Some e) (Hf : In f (fields e)) :
  isIdentifier (name f) = true /\
  trim (tsType f) = tsType f /\
  forallb not_semicolon (tsType f) = true /\
  forall d, In d (decorators f) ->
            isDecoratorLine d = true /\
            exists l, In l (splitLines s) /\ d = trim l.
Proof.
  assert (Hnt : In (name f, tsType f)
                   (flat_map declarationOf
                      (map trim (visitedLines (splitLines s) 0)))).
  { rewrite <- (@parseEntity_fields_in_order_aux s e H).
    apply (in_map (fun f => (name f, tsType f))), Hf. }
  apply in_flat_map in Hnt. destruct Hnt as (line & _ & Hnt).
  unfold declarationOf in Hnt.
  destruct (rx_match prop_re line) as [[whole [| n [| ty [| x cs]]]] |]
    eqn:Hm; try contradiction.
  destruct Hnt as [Hnt | []]. injection Hnt as Hn Hty.
  apply rx_match_some in Hm. destruct Hm as (pre & post & _ & Ho & _).
  apply prop_re_inv in Ho.
  destruct Ho as (_ & m' & n' & q' & ws & ty' & _ & Hcs & _ & Hid & _ & _ & _
                  & Hsemi).
  injection Hcs as <- <-. rewrite <- Hn, <- Hty.
  split; [exact Hid |]. split; [apply trim_idempotent |].
  split; [now apply forallb_trim |].
  intros d Hd.
  assert (Hin : In d (filter isDecoratorLine
                        (map trim (visitedLines (splitLines s) 0)))).
  { rewrite <- (@parseEntity_decorators_once_aux s e H).
    apply in_or_app. left. apply in_flat_map. eauto. }
  apply filter_In in Hin. destruct Hin as [Hin Hdeco].
  split; auto. apply in_map_iff in Hin. destruct Hin as (l & <- & Hl).
  exists l. split; auto. now apply visitedLines_incl in Hl.
Qed.

(** Witness of X10, X11 and X12 on the scenario entity. *)
Lemma parseEntity_fields_in_order_witness :
  map (fun f => (name f, tsType f)) (fields Samples.docParsed)
  = flat_map declarationOf
      (map trim (visitedLines (splitLines Samples.docSource) 0)).
Proof.
  apply (@parseEntity_fields_in_order Samples.docSource Samples.docParsed).
  vm_compute. reflexivity.
Defined.

Lemma parseEntity_decorators_once_witness :
  map decorators (fields Samples.docParsed)
  = [[T "@Entity('doc')"; T "@PrimaryGeneratedColumn()"];
     [T "@Column({ type: 'varchar', length: 100 })"];
     [T "@OneToMany(() => CommentEntity, (c) => c.doc)"];
     [T "@CreateDateColumn()"]] /\
  decoratorBuf (scanLines (splitLines Samples.docSource) 0 initScan) = [].
Proof.
  destruct (@parseEntity_decorators_once Samples.docSource Samples.docParsed)
    as [H1 H2].
  - vm_compute. reflexivity.
  - split.
    + rewrite H1. vm_compute. reflexivity.
    + rewrite H2. vm_compute. reflexivity.
Defined.

Lemma parseEntity_field_shape_witness :
  isIdentifier (T "title") = true /\
  trim (T "string") = T "string" /\
  forallb not_semicolon (T "string") = true /\
  forall d, In d [T "@Column({ type: 'varchar', length: 100 })"] ->
            isDecoratorLine d = true /\
            exists l, In l (splitLines Samples.docSource) /\ d = trim l.
Proof.
  apply (@parseEntity_field_shape Samples.docSource Samples.docParsed
           (mkField (T "title") (T "string") false
              [T "@Column({ type: 'varchar', length: 100 })"]
              (Some (T "  @Column({ type: 'varchar', length: 100 })")))).
  - vm_compute. reflexivity.
  - cbn [fields Samples.docParsed In]. auto.
Defined.

(** ** The column metadata of a parsed field *)

Section ColumnMetadata.

Lemma trim_decompose l : exists a b, l = a ++ trim l ++ b.
Proof.
  unfold trim.
  destruct (dropWhile_split is_space l) as (pre & Hl & _ & _).
  destruct (dropWhile_split is_space (rev (dropWhile is_space l)))
    as (p2 & Hr & _ & _).
  exists pre, (rev p2). rewrite <- rev_app_distr, <- Hr, rev_involutive.
  exact Hl.
Qed.

Lemma startsWith_prefix p : forall s,
  startsWith p s = true -> exists x, s = p ++ x.
Proof.
  induction p as [| c p IH]; intros s H.
  - exists s. reflexivity.
  - destruct s as [| d s]; [discriminate |]. cbn [startsWith] in H.
    apply andb_prop in H. destruct H as [Hc H].
    apply Ascii.eqb_eq in Hc. subst d.
    destruct (IH _ H) as (x & ->). exists x. reflexivity.
Qed.

Lemma column_line_test l rest :
  opensColumnMeta (trim l) = true ->
  rx_test column_re (join [LF] (l :: rest)) = true.
Proof.
  unfold opensColumnMeta. intros H. apply andb_prop in H.
  destruct H as [H _]. apply startsWith_prefix in H. destruct H as (x & Hx).
  destruct (trim_decompose l) as (a & b & Hl). rewrite Hx in Hl.
  rewrite join_cons, Hl.
  apply (@rx_test_intro column_re _ a (T "@Column(")
           (x ++ b ++ flat_map (fun y => [LF] ++ y) rest) []).
  - now rewrite <- !app_assoc.
  - unfold occurs_at, column_re. apply matches_lit.
Qed.

Lemma scanColumnMeta_text l ls :
  exists rest, fst (scanColumnMeta (l :: ls) [] 0) = join [LF] (l :: rest).
Proof.
  pose proof (scanColumnMeta_start (l :: ls)) as H.
  destruct (scanColumnMeta (l :: ls) [] 0) as [m [k |]]; cbn [fst].
  - destruct H as (_ & -> & _). exists (firstn k ls). reflexivity.
  - destruct H as (-> & _). exists ls. reflexivity.
Qed.

Lemma scanLines_meta_inv : forall ls skip st,
  metaInvariant (decoratorBuf st) (pendingColumnMeta st) ->
  Forall (fun f => metaInvariant (decorators f) (rawColumnMeta f))
         (fieldsAcc st) ->
  Forall (fun f => metaInvariant (decorators f) (rawColumnMeta f))
         (fieldsAcc (scanLines ls skip st)).
Proof.
  induction ls as [| l ls IH]; intros skip st Hinv Hfs; [exact Hfs |].
  rewrite scanLines_cons. destruct skip as [| k]; [| now apply IH]. cbv zeta.
  destruct (isDecoratorLine (trim l)).
  - destruct (opensColumnMeta (trim l)) eqn:Ho.
    + destruct (scanColumnMeta_text l ls) as (rest & Hm).
      destruct (scanColumnMeta (l :: ls) [] 0) as [meta adv].
      cbn [fst] in Hm. apply IH; cbn [decoratorBuf pendingColumnMeta fieldsAcc];
        auto.
      exists l, rest. repeat split; auto. apply in_or_app. right. now left.
    + apply IH; cbn [decoratorBuf pendingColumnMeta fieldsAcc]; auto.
      unfold metaInvariant in *. destruct (pendingColumnMeta st) as [m |].
      * destruct Hinv as (l0 & rest & Hin & Hop & Hm).
        exists l0, rest. repeat split; auto. apply in_or_app. now left.
      * rewrite forallb_app, Hinv. cbn [forallb]. now rewrite Ho.
  - destruct (fieldOfLine (trim l) st) as [f |] eqn:Hf; [| now apply IH].
    apply IH; cbn [decoratorBuf pendingColumnMeta fieldsAcc].
    + reflexivity.
    + apply Forall_app. split; auto. constructor; [| constructor].
      apply fieldOfLine_decorators in Hf. destruct Hf as [-> ->]. exact Hinv.
Qed.

Lemma parseEntity_meta_inv s e f :
  parseEntity s = Some e -> In f (fields e) ->
  metaInvariant (decorators f) (rawColumnMeta f).
Proof.
  intros H Hf. rewrite (@parseEntity_fields s e H) in Hf.
  revert f Hf. apply Forall_forall.
  apply scanLines_meta_inv; [reflexivity | constructor].
Qed.

End ColumnMetadata.

(** X13. A parsed field has raw column metadata exactly when one of its
    decorators is a [@Column(] line with a brace; the metadata then
    starts with such a line as the source has it, untrimmed, so the test
    for [@Column(] that [isTinyIntBoolean] makes on it succeeds. *)
Theorem parseEntity_column_metadata (s : text) (e : ParsedEntity) (f : Field)
  (H : parseEntity s = Some e) (Hf : In f (fields e)) :
  (rawColumnMeta f = None <->
   forall d, In d (decorators f) -> opensColumnMeta d = false) /\
  (forall m, rawColumnMeta f = Some m ->
             rx_test column_re m = true /\
             exists l rest,
               In (trim l) (decorators f) /\
               opensColumnMeta (trim l) = true /\
               m = join [LF] (l :: rest)).
Proof.
  pose proof (@parseEntity_meta_inv s e f H Hf) as Hinv.
  unfold metaInvariant in Hinv. split.
  - destruct (rawColumnMeta f) as [m |].
    + destruct Hinv as (l & rest & Hin & Ho & _). split; [discriminate |].
      intros Hall. apply Hall in Hin. congruence.
    + split; auto. intros _ d Hd.
      rewrite forallb_forall in Hinv. apply Hinv in Hd.
      now apply negb_true_iff in Hd.
  - intros m Hm. rewrite Hm in Hinv.
    destruct Hinv as (l & rest & Hin & Ho & ->).
    split; [now apply column_line_test | eauto].
Qed.

(** Witness of X13: the [title] column of the scenario entity. *)
Lemma parseEntity_column_metadata_witness :
  rx_test column_re (T "  @Column({ type: 'varchar', length: 100 })") = true.
Proof.
  apply (proj2 (@parseEntity_column_metadata
                  Samples.docSource Samples.docParsed
                  (mkField (T "title") (T "string") false
                     [T "@Column({ type: 'varchar', length: 100 })"]
                     (Some (T "  @Column({ type: 'varchar', length: 100 })")))
                  ltac:(vm_compute; reflexivity)
                  ltac:(cbn [fields Samples.docParsed In]; auto))
               _ eq_refl).
Defined.

(** X14. When every column decorator with a brace closes its parentheses
    on its own line, the scan visits every line of the text. *)
Theorem visitedLines_single_line_blocks (ls : list text)
  (H : forall l, In l ls ->
                 isDecoratorLine (trim l) && opensColumnMeta (trim l) = true ->
                 (parenBalance l <= 0)%Z) :
  visitedLines ls 0 = ls.
Proof.
  induction ls as [| l ls IH]; [reflexivity |].
  rewrite visitedLines_cons.
  assert (Hc : linesConsumed l ls = 0).
  { unfold linesConsumed.
    destruct (isDecoratorLine (trim l) && opensColumnMeta (trim l)) eqn:Ho;
      auto.
    specialize (H l (or_introl eq_refl) Ho).
    cbn [scanColumnMeta app]. fold (parenBalance l).
    replace (0 + countChar "(" l - countChar ")" l)%Z
      with (parenBalance l) by (unfold parenBalance; lia).
    apply Z.leb_le in H. now rewrite H. }
  rewrite Hc. f_equal. apply IH. intros l' Hl'. apply H. now right.
Qed.

(** Witness of X14: the scenario entity. *)
Lemma visitedLines_single_line_blocks_witness :
  visitedLines (splitLines Samples.docSource) 0 = splitLines Samples.docSource.
Proof.
  apply visitedLines_single_line_blocks.
  intros l Hl Ho.
  assert (Hall : forallb (fun l => negb (isDecoratorLine (trim l)
                                         && opensColumnMeta (trim l))
                                   || (parenBalance l <=? 0)%Z)
                         (splitLines Samples.docSource) = true)
    by (vm_compute; reflexivity).
  rewrite forallb_forall in Hall. specialize (Hall l Hl).
  rewrite Ho in Hall. cbn [negb orb] in Hall. now apply Z.leb_le.
Defined.

(** X15. For every field of a parsed entity the optional flag is the
    result of the nullable test on the pending metadata and the
    decorators; the optional marker of the declaration does not enter
    it. *)
Theorem parseEntity_optional_flag (s : text) (e : ParsedEntity) (f : Field)
  (H : parseEntity s = Some e) (Hf : In f (fields e)) :
  optional f =
    rx_test nullable_re
      (orEmpty (rawColumnMeta f) ++ [LF] ++ join [LF] (decorators f)).
Proof. exact (@parsed_optional_is_nullable s e f H Hf). Qed.

(** Witness of X15: a nullable column. *)
Lemma parseEntity_optional_flag_witness :
  optional (mkField (T "title") (T "string") true
              [T "@Column({ nullable: true })"]
              (Some (T "  @Column({ nullable: true })")))
  = rx_test nullable_re
      (T "  @Column({ nullable: true })" ++ [LF]
       ++ T "@Column({ nullable: true })").
Proof.
  apply (@parseEntity_optional_flag ScanSamples.postSource
           (mkParsedEntity (T "PostEntity") (T "Post")
              [mkField (T "title") (T "string") true
                 [T "@Column({ nullable: true })"]
                 (Some (T "  @Column({ nullable: true })"))])).
  - vm_compute. reflexivity.
  - cbn [fields In]. auto.
Defined.

(** ** The import harvester *)

Section ImportHarvester.

Lemma existsb_text_eqb x l : existsb (text_eqb x) l = true <-> In x l.
Proof.
  rewrite existsb_exists. split.
  - intros (y & Hy & E). apply text_eqb_eq in E. now subst.
  - intros H. exists x. split; auto. apply text_eqb_refl.
Qed.

Lemma dedupeFrom_in : forall l seen x,
  In x (dedupeFrom seen l) <-> In x l /\ ~ In x seen.
Proof.
  induction l as [| y l IH]; intros seen x; cbn [dedupeFrom In].
  - tauto.
  - destruct (existsb (text_eqb y) seen) eqn:E.
    + apply existsb_text_eqb in E. rewrite IH. split.
      * tauto.
      * intros [[-> | H] Hn]; [contradiction | auto].
    + assert (Hy : ~ In y seen).
      { intros H. apply existsb_text_eqb in H. congruence. }
      cbn [In]. rewrite IH. cbn [In].
      destruct (text_eqb y x) eqn:Eyx.
      * apply text_eqb_eq in Eyx. subst x. tauto.
      * assert (Hne : y <> x).
        { intros ->. rewrite text_eqb_refl in Eyx. discriminate. }
        tauto.
Qed.

Lemma dedupeFrom_nodup : forall l seen, NoDup (dedupeFrom seen l).
Proof.
  induction l as [| y l IH]; intros seen; cbn [dedupeFrom].
  - constructor.
  - destruct (existsb (text_eqb y) seen); auto.
    constructor; auto. rewrite dedupeFrom_in. cbn [In]. tauto.
Qed.

Lemma dedupe_in l x : In x (dedupe l) <-> In x l.
Proof. unfold dedupe. rewrite dedupeFrom_in. cbn [In]. tauto. Qed.

Lemma includes_iff p : forall s,
  includes p s = true <-> exists a b, s = a ++ p ++ b.
Proof.
  induction s as [| c s IH]; cbn [includes].
  - rewrite orb_false_r. split.
    + intros H. apply startsWith_prefix in H. destruct H as (x & ->).
      exists [], x. reflexivity.
    + intros (a & b & H). symmetry in H. apply app_eq_nil in H.
      destruct H as [-> H]. apply app_eq_nil in H. destruct H as [-> _].
      reflexivity.
  - rewrite orb_true_iff, IH. split.
    + intros [H | (a & b & ->)].
      * apply startsWith_prefix in H. destruct H as (x & ->).
        exists [], x. reflexivity.
      * exists (c :: a), b. reflexivity.
    + intros (a & b & H). destruct a as [| d a].
      * left. cbn [app] in H. rewrite H. clear.
        induction p as [| x p IHp]; cbn [startsWith app]; auto.
        now rewrite Ascii.eqb_refl.
      * right. cbn [app] in H. injection H as _ ->. eauto.
Qed.

Lemma extractEnumImports_in source fs line :
  In line (extractEnumImports source fs) <->
  In line (splitLines source) /\
  startsWith (T "import") (trim line) = true /\
  exists f, In f fs /\ isEnumTypeName (trim (tsType f)) = true /\
            includes (trim (tsType f)) line = true.
Proof.
  unfold extractEnumImports. cbv zeta.
  rewrite dedupe_in, !filter_In, existsb_exists. split.
  - intros [[Hl Hi] (n & Hn & Hinc)].
    rewrite dedupe_in, filter_In in Hn. destruct Hn as [Hn He].
    apply in_map_iff in Hn. destruct Hn as (f & <- & Hf). eauto 10.
  - intros (Hl & Hi & f & Hf & He & Hinc). repeat split; auto.
    exists (trim (tsType f)). split; auto.
    rewrite dedupe_in, filter_In. split; auto.
    apply in_map_iff. eauto.
Qed.

End ImportHarvester.

(** X16. [extractEnumImports] returns, each once, exactly the lines of
    the source that start with [import] after trimming and contain, as a
    piece of text, the trimmed declared type of a field whose type has
    the enum naming. *)
Theorem extractEnumImports_lines (source : text) (fs : list Field) :
  NoDup (extractEnumImports source fs) /\
  forall line,
    In line (extractEnumImports source fs) <->
    In line (splitLines source) /\
    startsWith (T "import") (trim line) = true /\
    exists f a b,
      In f fs /\ isEnumTypeName (trim (tsType f)) = true /\
      line = a ++ trim (tsType f) ++ b.
Proof.
  split.
  - unfold extractEnumImports, dedupe. cbv zeta. apply dedupeFrom_nodup.
  - intros line. rewrite extractEnumImports_in. split.
    + intros (Hl & Hi & f & Hf & He & Hinc).
      apply includes_iff in Hinc. destruct Hinc as (a & b & Hab).
      repeat split; auto. exists f, a, b. auto.
    + intros (Hl & Hi & f & a & b & Hf & He & Hab).
      repeat split; auto. exists f. repeat split; auto.
      apply includes_iff. eauto.
Qed.

(** ** The classifiers *)

Section Classifiers.

Lemma matches_alts_lit_inv ks : forall k b w a cs,
  matches (RAlts (RLit k) (map RLit ks)) b w a cs ->
  In w (k :: ks) /\ cs = [].
Proof.
  induction ks as [| k' ks IH]; intros k b w a cs H; cbn [RAlts map] in H.
  - apply matches_lit_inv in H. destruct H as [-> ->]. split; [now left | auto].
  - apply matches_alt_inv in H. destruct H as [H | H].
    + apply matches_lit_inv in H. destruct H as [-> ->].
      split; [now left | auto].
    + apply IH in H. destruct H as [H ->]. split; [now right | auto].
Qed.

Lemma matches_alts_lit ks : forall k b w a,
  In w (k :: ks) -> matches (RAlts (RLit k) (map RLit ks)) b w a [].
Proof.
  induction ks as [| k' ks IH]; intros k b w a H; cbn [RAlts map].
  - destruct H as [<- | []]. apply matches_lit.
  - destruct H as [<- | H].
    + apply MAltL, matches_lit.
    + apply MAltR. now apply IH.
Qed.

(** The pattern [@(name|...|name)\b]. *)
Lemma named_decorator_test k ks d :
  (forall kw x, In kw (k :: ks) -> word_at (rev kw ++ x) = true) ->
  rx_test (RSeqs [RLit (T "@"); RGroup (RAlts (RLit k) (map RLit ks)); RWordB])
          d = true
  <-> namesDecorator (k :: ks) d.
Proof.
  intros Hword. cbn [RSeqs]. split.
  - intros H. apply rx_test_true in H.
    destruct H as (pre & w & post & cs & Heq & Ho). unfold occurs_at in Ho.
    apply matches_seq_inv in Ho.
    destruct Ho as (w1 & r1 & c1 & d1 & -> & -> & H1 & Ho).
    apply matches_lit_inv in H1. destruct H1 as [-> ->].
    apply matches_seq_inv in Ho.
    destruct Ho as (w2 & r2 & c2 & d2 & -> & -> & H2 & Ho).
    apply matches_group_inv in H2. destruct H2 as (c2' & -> & H2).
    apply matches_alts_lit_inv in H2. destruct H2 as [Hin ->].
    apply matches_wordb_inv in Ho. destruct Ho as (-> & Hx & _).
    rewrite (Hword _ _ Hin) in Hx.
    exists pre, w2, post. rewrite Heq, app_nil_r, <- !app_assoc.
    repeat split; auto. destruct (word_at post); [discriminate | reflexivity].
  - intros (pre & kw & post & -> & Hin & Hw).
    apply (@rx_test_intro _ _ pre (T "@" ++ kw) post [kw]).
    + now rewrite <- !app_assoc.
    + unfold occurs_at.
      apply matches_seq with (w1 := T "@") (cs1 := []) (w2 := kw)
        (cs2 := [kw]); [apply matches_lit | | reflexivity | reflexivity].
      apply matches_seq with (w1 := kw) (cs1 := [kw]) (w2 := [])
        (cs2 := []); [ | | now rewrite app_nil_r | reflexivity].
      * apply (MGroup (cs := [])). now apply matches_alts_lit.
      * constructor. rewrite (Hword _ _ Hin), Hw. reflexivity.
Qed.

Lemma relation_names_word kw x :
  In kw relationNames -> word_at (rev kw ++ x) = true.
Proof.
  unfold relationNames. cbn [In].
  intros [<- | [<- | [<- | [<- | [<- | [<- | []]]]]]]; reflexivity.
Qed.

Lemma audit_names_word kw x :
  In kw auditNames -> word_at (rev kw ++ x) = true.
Proof.
  unfold auditNames. cbn [In]. intros [<- | [<- | [<- | []]]]; reflexivity.
Qed.

Lemma relation_re_test d :
  rx_test relation_re d = true <-> namesDecorator relationNames d.
Proof.
  apply (@named_decorator_test (T "OneToOne")
           [T "OneToMany"; T "ManyToOne"; T "ManyToMany"; T "JoinColumn";
            T "JoinTable"] d).
  intros kw x. apply relation_names_word.
Qed.

Lemma audit_re_test d :
  rx_test audit_re d = true <-> namesDecorator auditNames d.
Proof.
  apply (@named_decorator_test (T "CreateDateColumn")
           [T "UpdateDateColumn"; T "DeleteDateColumn"] d).
  intros kw x. apply audit_names_word.
Qed.

Lemma generated_re_test d :
  rx_test generated_re d = true
  <-> namesDecorator [T "PrimaryGeneratedColumn"] d.
Proof.
  unfold generated_re. split.
  - intros H. apply rx_test_true in H.
    destruct H as (pre & w & post & cs & Heq & Ho). unfold occurs_at in Ho.
    apply matches_seq_inv in Ho.
    destruct Ho as (w1 & r1 & c1 & d1 & -> & -> & H1 & Ho).
    apply matches_lit_inv in H1. destruct H1 as [-> ->].
    apply matches_wordb_inv in Ho. destruct Ho as (-> & Hx & _).
    exists pre, (T "PrimaryGeneratedColumn"), post.
    rewrite Heq, app_nil_r. split; [reflexivity |]. split; [now left |].
    cbn [rev T list_ascii_of_string app word_at] in Hx.
    destruct (word_at post); [discriminate | reflexivity].
  - intros (pre & kw & post & -> & [<- | []] & Hw).
    apply (@rx_test_intro _ _ pre (T "@PrimaryGeneratedColumn") post []).
    + reflexivity.
    + unfold occurs_at.
      apply matches_seq with (w1 := T "@PrimaryGeneratedColumn") (cs1 := [])
        (w2 := []) (cs2 := []);
        [apply matches_lit | | now rewrite app_nil_r | reflexivity].
      constructor. cbn [rev T list_ascii_of_string app word_at].
      rewrite Hw. reflexivity.
Qed.

Lemma existsb_test (r : regex) (P : text -> Prop) (ds : list text) :
  (forall d, rx_test r d = true <-> P d) ->
  existsb (rx_test r) ds = true <-> exists d, In d ds /\ P d.
Proof.
  intros H. rewrite existsb_exists. split; intros (d & Hd & Hp);
    exists d; split; auto; now apply H.
Qed.

End Classifiers.

(** X17. A field is a relation exactly when one of its decorator lines
    has, anywhere in it, the marker followed by one of the six relation
    names and no word character right after the name. *)
Theorem isRelation_decorator (f : Field) :
  isRelation f = true
  <-> exists d, In d (decorators f) /\ namesDecorator relationNames d.
Proof. apply existsb_test, relation_re_test. Qed.

(** X18. A field is an audit field exactly when one of its decorator
    lines has the marker followed by one of the three timestamp names and
    no word character right after the name. *)
Theorem isAudit_decorator (f : Field) :
  isAudit f = true
  <-> exists d, In d (decorators f) /\ namesDecorator auditNames d.
Proof. apply existsb_test, audit_re_test. Qed.

(** X19. A field is a generated primary key exactly when one of its
    decorator lines has [@PrimaryGeneratedColumn] and no word character
    right after it. *)
Theorem isGeneratedPrimary_decorator (f : Field) :
  isGeneratedPrimary f = true
  <-> exists d, In d (decorators f) /\
                namesDecorator [T "PrimaryGeneratedColumn"] d.
Proof. apply existsb_test, generated_re_test. Qed.

(** ** The page *)

Section Page.

Lemma dropWhile_nil p l : dropWhile p l = [] -> forallb p l = true.
Proof.
  destruct (dropWhile_split p l) as (pre & Hl & Hp & _). intros E.
  rewrite E, app_nil_r in Hl. now subst.
Qed.

Lemma trim_nil_spaces s : trim s = [] -> forallb is_space s = true.
Proof.
  unfold trim. intros H.
  apply (f_equal (@rev ascii)) in H. rewrite rev_involutive in H.
  cbn [rev] in H. apply dropWhile_nil in H.
  apply forallb_rev in H. rewrite rev_involutive in H.
  destruct (dropWhile_split is_space s) as (pre & Hs & Hp & _).
  rewrite Hs, forallb_app, Hp, H. reflexivity.
Qed.

Lemma blank_no_class s : trim s = [] -> ~ hasClassDecl s.
Proof.
  intros Ht (pre & ws1 & ws2 & id & post & Hs & _).
  apply trim_nil_spaces in Ht. rewrite Hs, forallb_app in Ht.
  apply andb_prop in Ht. destruct Ht as [_ Ht]. discriminate Ht.
Qed.

Lemma parseEntity_none_iff s : parseEntity s = None <-> ~ hasClassDecl s.
Proof.
  pose proof (class_search s) as H. unfold parseEntity.
  destruct (rx_match class_re s) as [[whole cs] |].
  - destruct H as (id & -> & Hne & Hfirst).
    destruct id as [| c id]; [contradiction |].
    split; [discriminate |]. intros Hno. exfalso. apply Hno.
    destruct Hfirst as (pre & ws1 & ws2 & post & Hd & _). red. eauto 10.
  - tauto.
Qed.

Lemma pageParsed_parseEntity input : pageParsed input = parseEntity input.
Proof.
  unfold pageParsed. destruct (trim input) as [| c t] eqn:Et; auto.
  symmetry. apply parseEntity_none_iff. now apply blank_no_class.
Qed.

Lemma join_first_nonempty sep l ls : l <> [] -> join sep (l :: ls) <> [].
Proof.
  intros Hl. rewrite join_cons. destruct l; [contradiction | discriminate].
Qed.

Lemma genDocDto_nonempty src parsed opts : genDocDto src parsed opts <> [].
Proof.
  unfold genDocDto. rewrite genDocDtoLines_blocks. unfold docHeader.
  cbn [app]. apply join_first_nonempty. discriminate.
Qed.

Lemma genResponseDto_nonempty src parsed : genResponseDto src parsed <> [].
Proof.
  unfold genResponseDto. rewrite genResponseDtoLines_blocks.
  unfold resHeader. cbn [app]. apply join_first_nonempty. discriminate.
Qed.

End Page.

(** X20. The guard on the blank input changes nothing: the page parses
    what [parseEntity] parses, because a text that is empty after
    trimming has no class declaration. *)
Theorem pageParsed_guard_redundant (input : text) :
  pageParsed input = parseEntity input.
Proof. apply pageParsed_parseEntity. Qed.

(** X21. The page shows the parse error exactly when the input has a
    character that is not white space and no exported class declaration,
    and the invitation to paste exactly when the input is empty after
    trimming; it never shows both, and shows neither when the input
    parses. *)
Theorem page_messages (input : text) :
  (showsParseError input = true
   <-> trim input <> [] /\ ~ hasClassDecl input) /\
  (showsPasteHint input = true <-> trim input = []) /\
  showsParseError input && showsPasteHint input = false /\
  (showsParseError input || showsPasteHint input = false
   <-> hasClassDecl input).
Proof.
  unfold showsParseError, showsPasteHint.
  rewrite pageParsed_parseEntity.
  pose proof (parseEntity_none_iff input) as Hn.
  pose proof (@blank_no_class input) as Hb.
  destruct (parseEntity input) as [e |] eqn:Hp.
  - assert (Hd : hasClassDecl input).
    { apply parseEntity_some_inv in Hp.
      destruct Hp as ((pre & ws1 & ws2 & post & Hd & _) & _).
      red. eauto 10. }
    destruct (trim input) as [| c t]; [exfalso; now apply Hb |].
    cbn [truthy negb andb orb]. repeat split; try discriminate; try tauto.
  - assert (Hno : ~ hasClassDecl input) by now apply Hn.
    destruct (trim input) as [| c t]; cbn [truthy negb andb orb];
      repeat split; try discriminate; try tauto; try congruence.
Qed.

(** X22. The two generated texts are empty together: each is empty
    exactly when the input does not parse, so the copy buttons are
    disabled exactly then. *)
Theorem page_outputs (input : text) (forceOptional stripAudit : bool) :
  (pageDtoCode input forceOptional stripAudit = []
   <-> parseEntity input = None) /\
  (pageResDtoCode input = [] <-> parseEntity input = None) /\
  (copyDisabled (pageDtoCode input forceOptional stripAudit) = true
   <-> parseEntity input = None) /\
  (copyDisabled (pageResDtoCode input) = true <-> parseEntity input = None).
Proof.
  unfold pageDtoCode, pageResDtoCode, copyDisabled.
  rewrite pageParsed_parseEntity.
  destruct (parseEntity input) as [e |].
  - pose proof (genDocDto_nonempty input e
                  (mkOptions forceOptional stripAudit)) as H1.
    pose proof (genResponseDto_nonempty input e) as H2.
    destruct (genDocDto input e (mkOptions forceOptional stripAudit));
      [contradiction |].
    destruct (genResponseDto input e); [contradiction |].
    cbn [truthy negb]. repeat split; discriminate.
  - cbn [truthy negb]. repeat split; auto.
Qed.

(** ** Lines *)

Section Lines.

Lemma splitLinesFrom_line l : forall cur,
  noLF l = true -> splitLinesFrom cur l = [rev cur ++ l].
Proof.
  induction l as [| c l IH]; intros cur H.
  - cbn. now rewrite app_nil_r.
  - cbn [noLF forallb] in H. apply andb_prop in H. destruct H as [Hc H].
    apply negb_true_iff in Hc. rewrite splitLinesFrom_cons, Hc.
    destruct l as [| d l].
    + cbn. now rewrite ?app_nil_r, <- ?app_assoc.
    + assert (Hd : Ascii.eqb d LF = false).
      { cbn [forallb] in H. apply andb_prop in H. destruct H as [Hd _].
        now apply negb_true_iff in Hd. }
      rewrite Hd, andb_false_r. rewrite IH by exact H.
      cbn [rev]. now rewrite <- app_assoc.
Qed.

Lemma splitLinesFrom_crlf s2 l : forall cur,
  noLF l = true ->
  splitLinesFrom cur (l ++ CR :: LF :: s2)
  = (rev cur ++ l) :: splitLinesFrom [] s2.
Proof.
  induction l as [| c l IH]; intros cur H.
  - cbn [app]. rewrite splitLinesFrom_cons. cbn. now rewrite app_nil_r.
  - cbn [noLF forallb] in H. apply andb_prop in H. destruct H as [Hc H].
    apply negb_true_iff in Hc. cbn [app]. rewrite splitLinesFrom_cons, Hc.
    destruct l as [| d l].
    + cbn [app]. replace (Ascii.eqb CR LF) with false by reflexivity.
      rewrite andb_false_r. pose proof (IH (c :: cur) H) as E.
      cbn [app] in E. rewrite E.
      cbn [rev]. now rewrite <- app_assoc.
    + assert (Hd : Ascii.eqb d LF = false).
      { cbn [forallb] in H. apply andb_prop in H. destruct H as [Hd _].
        now apply negb_true_iff in Hd. }
      cbn [app]. rewrite Hd, andb_false_r.
      change (d :: l ++ CR :: LF :: s2) with ((d :: l) ++ CR :: LF :: s2).
      rewrite (IH (c :: cur) H). cbn [rev]. now rewrite <- app_assoc.
Qed.

Lemma join_cons2 sep l x ls :
  join sep (l :: x :: ls) = l ++ sep ++ join sep (x :: ls).
Proof. reflexivity. Qed.

Lemma splitLines_join_lf : forall ls l,
  Forall (fun l => noLF l = true /\ endsWith [CR] l = false) (l :: ls) ->
  splitLines (join [LF] (l :: ls)) = l :: ls.
Proof.
  induction ls as [| x ls IH]; intros l H.
  - cbn [join]. inversion H as [| ? ? [Hl _] _]; subst.
    unfold splitLines. now rewrite splitLinesFrom_line.
  - rewrite join_cons2. inversion H as [| ? ? [Hl Hcr] Hrest]; subst.
    rewrite (@splitLines_app l (join [LF] (x :: ls)) Hcr).
    rewrite IH by exact Hrest.
    unfold splitLines. now rewrite splitLinesFrom_line.
Qed.

Lemma splitLines_join_crlf : forall ls l,
  Forall (fun l => noLF l = true) (l :: ls) ->
  splitLines (join [CR; LF] (l :: ls)) = l :: ls.
Proof.
  induction ls as [| x ls IH]; intros l H.
  - cbn [join]. inversion H; subst.
    unfold splitLines. now rewrite splitLinesFrom_line.
  - rewrite join_cons2. inversion H as [| ? ? Hl Hrest]; subst.
    unfold splitLines. cbn [app]. rewrite splitLinesFrom_crlf by exact Hl.
    fold (splitLines (join [CR; LF] (x :: ls))). now rewrite IH.
Qed.

End Lines.

(** X23. The lines of a text: a non-empty list of lines without line
    feeds, joined by line feeds (the lines then not ending with a
    carriage return) or by carriage return and line feed, is split into
    those lines again, so the parser scans the same lines whichever line
    ending the text uses. *)
Theorem splitLines_join (l : text) (ls : list text)
  (H : Forall (fun l => noLF l = true) (l :: ls)) :
  splitLines (join [CR; LF] (l :: ls)) = l :: ls /\
  (Forall (fun l => endsWith [CR] l = false) (l :: ls) ->
   splitLines (join [LF] (l :: ls)) = l :: ls).
Proof.
  split; [now apply splitLines_join_crlf |].
  intros Hcr. apply splitLines_join_lf.
  rewrite Forall_forall in *. intros x Hx. split; auto.
Qed.

(** Witness of X23. *)
Lemma splitLines_join_witness :
  splitLines (T "a: string;" ++ [CR; LF] ++ T "}") = [T "a: string;"; T "}"]
  /\ splitLines (T "a: string;" ++ [LF] ++ T "}") = [T "a: string;"; T "}"].
Proof.
  destruct (@splitLines_join (T "a: string;") [T "}"]) as [H1 H2].
  - repeat constructor.
  - split; [exact H1 |]. apply H2. repeat constructor.
Defined.

Section ExposeCount.

Lemma filter_none (A : Type) (p : A -> bool) l :
  (forall x, In x l -> p x = false) -> filter p l = [].
Proof.
  induction l as [| y l IH]; cbn [filter]; auto. intros H.
  rewrite (H y (or_introl eq_refl)). apply IH. intros x Hx. apply H. now right.
Qed.

Lemma countLine_app x l1 l2 :
  countLine x (l1 ++ l2) = countLine x l1 + countLine x l2.
Proof. unfold countLine. now rewrite filter_app, length_app. Qed.

Lemma countLine_flat_map (A : Type) x (g : A -> list text) xs :
  (forall a, countLine x (g a) = 1) ->
  countLine x (flat_map g xs) = length xs.
Proof.
  intros H. induction xs as [| a xs IH]; [reflexivity |].
  cbn [flat_map length]. now rewrite countLine_app, H, IH.
Qed.

Lemma expose_not_decl f ty : text_eqb exposeLine (declLine f ty) = false.
Proof.
  destruct (text_eqb exposeLine (declLine f ty)) eqn:E; auto.
  apply text_eqb_eq in E. symmetry in E.
  now apply (@declLine_not_validator f ty (T "@Expose(")) in E.
Qed.

Lemma expose_block f : countLine exposeLine (resFieldLinesSpec f) = 1.
Proof.
  unfold resFieldLinesSpec, resTransformsSpec. rewrite countLine_app.
  assert (Ht : forall (b : bool) (x : text),
             text_eqb exposeLine x = false ->
             countLine exposeLine (if b then [x] else []) = 0).
  { intros [] x Hx; unfold countLine; cbn [filter]; [now rewrite Hx | auto]. }
  assert (H1 : countLine exposeLine
                 (if isRelation f then []
                  else (if isTinyIntBoolean f then [boolFrom] else [])
                       ++ (if isDateTyped (trim (tsType f)) f
                              && negb (isAudit f)
                           then [dateFrom] else [])) = 0).
  { destruct (isRelation f); [reflexivity |].
    rewrite countLine_app, !Ht by reflexivity. reflexivity. }
  rewrite H1. unfold countLine. cbn [filter].
  rewrite text_eqb_refl, expose_not_decl. reflexivity.
Qed.

Lemma expose_not_import source fs :
  countLine exposeLine (extractEnumImports source fs) = 0.
Proof.
  unfold countLine. rewrite filter_none; [reflexivity |].
  intros x Hx. apply extractEnumImports_in in Hx.
  destruct Hx as (_ & Hi & _).
  destruct (text_eqb exposeLine x) eqn:E; auto.
  apply text_eqb_eq in E. subst x. discriminate Hi.
Qed.

Lemma expose_count src parsed :
  countLine exposeLine (genResponseDtoLines src parsed)
  = length (fields parsed).
Proof.
  rewrite genResponseDtoLines_blocks. unfold resHeader.
  rewrite !countLine_app, expose_not_import.
  rewrite (@countLine_flat_map _ exposeLine resFieldLinesSpec (fields parsed)
             expose_block).
  assert (H1 : countLine exposeLine
    [T "import { Expose, Transform } from 'class-transformer';";
     T "import { boolTransformer, dateTransformer } from 'src/common/util/transformer';"]
    = 0) by reflexivity.
  assert (H2 : countLine exposeLine
    [[]; T "export class " ++ (baseName parsed ++ T "ResDto") ++ T " {"] = 0)
    by reflexivity.
  assert (H3 : countLine exposeLine [T "}"] = 0) by reflexivity.
  rewrite H1, H2, H3. cbn [Nat.add]. now rewrite Nat.add_0_r.
Qed.

End ExposeCount.

(** X24. The response DTO has exactly one exposure marker line for each
    field of the parsed entity. *)
Theorem genResponseDto_expose_count (src : text) (parsed : ParsedEntity) :
  countLine exposeLine (genResponseDtoLines src parsed)
  = length (fields parsed).
Proof. apply expose_count. Qed.

(** * The request DTO: the fields it leaves out *)

Section ExcludedFields.

Lemma decorator_row_not_declaration l f ty :
  isDecoratorRow l = true -> l <> declLine f ty.
Proof.
  unfold isDecoratorRow. intros H ->.
  apply andb_prop in H. destruct H as [_ H].
  destruct (declLine_last f ty) as (y & Hy). rewrite Hy in H.
  unfold endsWith in H. rewrite rev_app_distr in H. discriminate H.
Qed.

Lemma docFieldLines_rows opts g :
  exists decos,
    docFieldLines opts g = decos ++ [declLine g (docDeclaredType g); []] /\
    forallb isDecoratorRow decos = true.
Proof.
  rewrite docFieldLines_shape. unfold docDeclaredType, mapTsType.
  exists ((if isTinyIntBoolean g then [boolTo] else [])
          ++ (if isDateTyped (trim (tsType g)) g then [dateTo] else [])
          ++ map (fun d => T "  " ++ d)
               (getValidatorDecorators g (negb (isRequired opts g)))).
  split.
  - now rewrite <- !app_assoc.
  - rewrite !forallb_app, validator_rows.
    destruct (isTinyIntBoolean g), (isDateTyped (trim (tsType g)) g);
      reflexivity.
Qed.

Lemma declaration_in_block opts g l :
  In l (docFieldLines opts g) ->
  isDecoratorRow l = true \/ l = declLine g (docDeclaredType g) \/ l = [].
Proof.
  destruct (docFieldLines_rows opts g) as (decos & -> & Hrows).
  rewrite in_app_iff. cbn [In]. intros [H | [H | [H | []]]]; auto.
  left. rewrite forallb_forall in Hrows. auto.
Qed.

(** A declaration line among the lines of the request DTO is a selected
    import line or the declaration of a retained field. *)
Lemma declaration_in_docLines src parsed opts f ty :
  In (declLine f ty) (docLines src parsed opts) ->
  In (declLine f ty) (extractEnumImports src (fields parsed)) \/
  exists g, In g (docRetained parsed) /\
            declLine g (docDeclaredType g) = declLine f ty.
Proof.
  unfold docLines, docHeader, docFooter. rewrite !in_app_iff.
  intros [[H | [H | H]] | [H | H]].
  - exfalso. cbn [In] in H.
    repeat (destruct H as [H | H]; [discriminate H |]). exact H.
  - now left.
  - exfalso. cbn [In] in H.
    repeat (destruct H as [H | H]; [discriminate H |]). exact H.
  - apply in_flat_map in H. destruct H as (g & Hg & Hl).
    apply declaration_in_block in Hl. destruct Hl as [Hl | [Hl | Hl]].
    + exfalso. now apply (@decorator_row_not_declaration _ f ty) in Hl.
    + right. eauto.
    + discriminate Hl.
  - exfalso. cbn [In] in H.
    repeat (destruct H as [H | H]; [discriminate H |]). exact H.
Qed.

Lemma startsWith_app_stop p : forall n c r,
  ~ In c p -> startsWith p (n ++ c :: r) = true -> startsWith p n = true.
Proof.
  induction p as [| x p IH]; intros n c r Hc H; [reflexivity |].
  destruct n as [| y n]; cbn [app startsWith] in *.
  - apply andb_prop in H. destruct H as [H _]. apply Ascii.eqb_eq in H.
    exfalso. apply Hc. now left.
  - apply andb_prop in H. destruct H as [-> H]. cbn [andb].
    apply (IH n c r); auto. intros Hin. apply Hc. now right.
Qed.

Lemma declLine_trim f ty :
  isIdentifier (name f) = true ->
  trim (declLine f ty) = name f ++ T ": " ++ ty ++ T ";".
Proof.
  intros Hn. apply identifier_run in Hn. destruct Hn as (_ & Hsp & Hne).
  unfold declLine. rewrite (@trim_leading_spaces (T "  ") _ eq_refl).
  apply trim_fixed.
  - destruct (name f); [contradiction | exact Hsp].
  - rewrite !rev_app_distr. reflexivity.
Qed.

Lemma import_line_name src fs f ty :
  isIdentifier (name f) = true ->
  In (declLine f ty) (extractEnumImports src fs) ->
  startsWith (T "import") (name f) = true.
Proof.
  intros Hn H. apply extractEnumImports_in in H. destruct H as (_ & H & _).
  rewrite (@declLine_trim f ty Hn) in H.
  apply (@startsWith_app_stop (T "import") (name f) ":"%char
           (T " " ++ ty ++ T ";")); [| exact H].
  cbn [T list_ascii_of_string In]. intuition discriminate.
Qed.

Lemma declLine_name f g tf tg :
  isIdentifier (name f) = true -> isIdentifier (name g) = true ->
  declLine g tg = declLine f tf -> name g = name f.
Proof.
  intros Hf Hg H. unfold declLine in H. apply app_inv_head in H.
  apply identifier_run in Hf, Hg.
  destruct Hf as (Hf & _), Hg as (Hg & _).
  apply (span_unique is_ident_char) in H; auto. now destruct H.
Qed.

End ExcludedFields.

(** C4, as amended.  For every parsed entity, every pair of options and
    every field for which [isRelation] or [isAudit] holds: the text of
    the request DTO is the header, the blocks of the retained fields and
    the footer, joined by line feeds; the field is not retained; every
    retained field is neither a relation nor an audit field, and its
    block is decorator rows followed by its declaration; a declaration
    line of the field is a line of the request DTO only as one of the
    import lines that [extractEnumImports] selects from the source text,
    or as the declaration of a retained field; so, when the names are
    identifiers, the name of the field does not start with [import] and
    no retained field has its name, no line of the request DTO declares
    it; the value of [stripAudit] does not change the text. *)
Theorem genDocDto_excludes_relation_and_audit
  (src : text) (parsed : ParsedEntity) (opts : Options) (f : Field)
  (H : isRelation f = true \/ isAudit f = true) :
  genDocDto src parsed opts = join [LF] (docLines src parsed opts) /\
  ~ In f (docRetained parsed) /\
  (forall g, In g (docRetained parsed) ->
             In g (fields parsed) /\
             isRelation g = false /\ isAudit g = false /\
             exists decos,
               docFieldLines opts g
               = decos ++ [declLine g (docDeclaredType g); []] /\
               forallb isDecoratorRow decos = true) /\
  (forall ty,
      In (declLine f ty) (docLines src parsed opts) ->
      In (declLine f ty) (extractEnumImports src (fields parsed)) \/
      exists g, In g (docRetained parsed) /\
                declLine g (docDeclaredType g) = declLine f ty) /\
  (isIdentifier (name f) = true ->
   startsWith (T "import") (name f) = false ->
   (forall g, In g (docRetained parsed) ->
              isIdentifier (name g) = true /\ name g <> name f) ->
   forall ty, ~ In (declLine f ty) (docLines src parsed opts)) /\
  (forall sa,
      genDocDto src parsed (mkOptions (forceOptional opts) sa)
      = genDocDto src parsed opts).
Proof.
  split; [unfold genDocDto, docLines; now rewrite genDocDtoLines_blocks |].
  split.
  { unfold docRetained. rewrite filter_In. intros [_ Hk].
    apply andb_prop in Hk. destruct Hk as [Hr Ha].
    destruct H as [H | H]; rewrite H in *; discriminate. }
  split.
  { intros g Hg. unfold docRetained in Hg. apply filter_In in Hg.
    destruct Hg as [Hg Hk]. apply andb_prop in Hk. destruct Hk as [Hr Ha].
    apply negb_true_iff in Hr, Ha. repeat split; auto.
    apply docFieldLines_rows. }
  split; [intros ty; apply declaration_in_docLines |].
  split; [| intros sa; reflexivity].
  intros Hn Hi Hnames ty Hin.
  apply declaration_in_docLines in Hin. destruct Hin as [Hin | (g & Hg & Hl)].
  - apply (@import_line_name src (fields parsed) f ty Hn) in Hin. congruence.
  - destruct (Hnames g Hg) as [Hgn Hne]. apply Hne.
    now apply (@declLine_name f g ty (docDeclaredType g) Hn Hgn).
Qed.

(** Witness of C4: the relation field of the scenario entity. *)
Lemma genDocDto_excludes_relation_and_audit_witness :
  ~ In commentsField (docRetained Samples.docParsed) /\
  ~ In (declLine commentsField (T "CommentEntity[]"))
       (docLines Samples.docSource Samples.docParsed (mkOptions false true)).
Proof.
  destruct (@genDocDto_excludes_relation_and_audit
              Samples.docSource Samples.docParsed (mkOptions false true)
              commentsField)
    as (_ & Hout & _ & _ & Habs & _).
  - left. vm_compute. reflexivity.
  - split; [exact Hout |]. apply Habs.
    + vm_compute. reflexivity.
    + vm_compute. reflexivity.
    + intros g Hg. vm_compute in Hg.
      destruct Hg as [<- | [<- | []]];
        (split; [vm_compute; reflexivity | vm_compute; discriminate]).
Defined.

(** Counterexample to C4 as stated: the relation [importRole] of
    [AccountEntity] has a declaration line that starts with [import] and
    mentions an enum type, so [extractEnumImports] selects that line of
    the source and the request DTO has it among its import lines. *)
Lemma excludedAsStated_counterexample : ~ excludedAsStated.
Proof.
  intros Hc.
  apply (Hc ImportSamples.accountSource ImportSamples.accountParsed
            (mkOptions false true) ImportSamples.importRole).
  - vm_compute. reflexivity.
  - cbn [fields ImportSamples.accountParsed In]. auto.
  - left. vm_compute. reflexivity.
  - unfold fieldAppears. vm_compute.
    do 5 right. left. reflexivity.
Qed.

(** * Texts with two classes *)

(** C10, as amended.  For a text made of a text with an exported class
    declaration, a line break, and a second text with an exported class
    declaration, [parseEntity] takes [className] and [baseName] from the
    first declaration of the whole text, which is the first declaration
    of the first part.  The fields come from one scan of all the lines:
    their names and types are the declarations of the lines the scan
    visits, in the order of the text, whichever class a line belongs to.
    When every column metadata block of the first part closes within the
    first part, these are the names and types of the fields of the first
    part followed by those of the second, and the fields themselves when
    moreover no decorator line and no metadata is pending at the end of
    the first part. *)
Theorem parseEntity_two_classes
  (s1 s2 nl : text) (e1 e2 : ParsedEntity)
  (H1 : parseEntity s1 = Some e1) (H2 : parseEntity s2 = Some e2)
  (Hnl : lineBreakAfter s1 nl) :
  exists e,
    parseEntity (s1 ++ nl ++ s2) = Some e /\
    firstClassDecl (s1 ++ nl ++ s2) (className e) /\
    className e = className e1 /\
    baseName e = baseName e1 /\
    declarations (fields e)
    = flat_map declarationOf
        (map trim (visitedLines (splitLines (s1 ++ nl ++ s2)) 0)) /\
    (blocksClosed (splitLines s1) 0 = true ->
     declarations (fields e)
     = declarations (fields e1) ++ declarations (fields e2) /\
     (nothingPending s1 = true -> fields e = fields e1 ++ fields e2)).
Proof.
  pose proof (@parseEntity_fields_in_order_aux s1 e1 H1) as Hd1.
  pose proof (@parseEntity_fields_in_order_aux s2 e2 H2) as Hd2.
  apply parseEntity_some_inv in H1, H2.
  destruct H1 as (Hf1 & Hb1 & Hs1), H2 as (_ & _ & Hs2).
  assert (Hf : firstClassDecl (s1 ++ nl ++ s2) (className e1)).
  { destruct Hnl as [-> | [-> _]]; cbn [app];
      now apply firstClassDecl_app. }
  pose proof (@parseEntity_first _ _ Hf) as Hp.
  eexists. split; [exact Hp |].
  cbn [className baseName fields].
  split; [exact Hf |]. split; [reflexivity |]. split; [now rewrite Hb1 |].
  pose proof (@parseEntity_fields_in_order_aux _ _ Hp) as Hd.
  cbn [fields] in Hd. split; [exact Hd |].
  intros Hc. unfold declarations in *. split.
  - rewrite Hd, (@splitLines_line_break s1 nl s2 Hnl).
    rewrite (@visitedLines_app _ _ 0 Hc), map_app, flat_map_app.
    now rewrite Hd1, Hd2.
  - intros Hn. unfold nothingPending in Hn. cbv zeta in Hn.
    rewrite Hs1, Hs2, (@splitLines_line_break s1 nl s2 Hnl).
    apply scan_two_blocks; auto.
    + destruct (decoratorBuf _); [reflexivity | discriminate].
    + destruct (decoratorBuf _); [| discriminate].
      destruct (pendingColumnMeta _); [discriminate | reflexivity].
Qed.

(** Witness of C10: [UserEntity] followed by [PostEntity], joined by a
    line feed and joined by a carriage return and a line feed. *)
Lemma parseEntity_two_classes_witness :
  (exists e,
     parseEntity (ScanSamples.userSource ++ [LF] ++ ScanSamples.postSource)
     = Some e /\
     className e = T "UserEntity" /\ baseName e = T "User" /\
     map name (fields e) = [T "id"; T "name"; T "title"]) /\
  (exists e,
     parseEntity (ScanSamples.userSource ++ [CR; LF] ++ ScanSamples.postSource)
     = Some e /\
     className e = T "UserEntity" /\ baseName e = T "User" /\
     map name (fields e) = [T "id"; T "name"; T "title"]).
Proof.
  split.
  - destruct (@parseEntity_two_classes
              ScanSamples.userSource ScanSamples.postSource [LF]
              (mkParsedEntity (T "UserEntity") (T "User")
                 [mkField (T "id") (T "number") false
                    [T "@PrimaryGeneratedColumn()"] None;
                  mkField (T "name") (T "string") false [] None])
              (mkParsedEntity (T "PostEntity") (T "Post")
                 [mkField (T "title") (T "string") true
                    [T "@Column({ nullable: true })"]
                    (Some (T "  @Column({ nullable: true })"))])
              ltac:(vm_compute; reflexivity) ltac:(vm_compute; reflexivity)
              ltac:(right; split; [reflexivity | vm_compute; reflexivity]))
      as (e & He & _ & Hc & Hbn & _ & Hf).
    exists e. repeat split; auto.
    destruct (Hf ltac:(vm_compute; reflexivity)) as [_ Hfs].
    rewrite Hfs by (vm_compute; reflexivity). reflexivity.
  - destruct (@parseEntity_two_classes
              ScanSamples.userSource ScanSamples.postSource [CR; LF]
              (mkParsedEntity (T "UserEntity") (T "User")
                 [mkField (T "id") (T "number") false
                    [T "@PrimaryGeneratedColumn()"] None;
                  mkField (T "name") (T "string") false [] None])
              (mkParsedEntity (T "PostEntity") (T "Post")
                 [mkField (T "title") (T "string") true
                    [T "@Column({ nullable: true })"]
                    (Some (T "  @Column({ nullable: true })"))])
              ltac:(vm_compute; reflexivity) ltac:(vm_compute; reflexivity)
              ltac:(left; reflexivity))
      as (e & He & _ & Hc & Hbn & _ & Hf).
    exists e. repeat split; auto.
    destruct (Hf ltac:(vm_compute; reflexivity)) as [_ Hfs].
    rewrite Hfs by (vm_compute; reflexivity). reflexivity.
Defined.

(** Counterexample to C10 as stated: the metadata block that
    [SmileEntity] leaves open for the scan closes at the column decorator
    of [FrownEntity]; the scan passes over the lines in between, and the
    property [mood] of the first class is not among the fields of the
    two classes together. *)
Lemma twoClasses_counterexample : ~ twoClassesAsStated.
Proof.
  intros Hc.
  assert (P1 : exists e1, parseEntity BoundarySamples.smileSource = Some e1 /\
                          declarations (fields e1) = [(T "mood", T "string")])
    by (eexists; split; vm_compute; reflexivity).
  assert (P2 : exists e2, parseEntity BoundarySamples.frownSource = Some e2 /\
                          declarations (fields e2) = [(T "note", T "string")])
    by (eexists; split; vm_compute; reflexivity).
  destruct P1 as (e1 & He1 & Hd1), P2 as (e2 & He2 & Hd2).
  destruct (Hc _ _ _ _ He1 He2) as (e & He & _ & Hd).
  rewrite Hd1, Hd2 in Hd. vm_compute in He. injection He as <-.
  vm_compute in Hd. discriminate Hd.
Qed.
